(** * discordgo: role hierarchy reordering and event dispatch

    A shallow embedding of [roles.go] (the [Role.Move] algorithm) and of the
    event-handler registry and dispatcher ([addEventHandler],
    [removeEventHandlerInstance], [handle], [handleEvent], [natsHandler],
    [AddHandler], ...), followed by the properties established about them.

    Part I holds the definitions, Part II the lemmas and theorems. *)

From Stdlib Require Import ZArith Lia.
From stdpp Require Import base list list_numbers gmap strings sorting.

(* ===================================================================== *)
(** * Part I - the model *)
(* ===================================================================== *)

(** ** Go's [int] and the [float64] round trip of [math.Min]/[math.Max] *)

Module GoInt.
Local Open Scope Z_scope.

Definition MinInt64 : Z := - 2 ^ 63.
Definition MaxInt64 : Z := 2 ^ 63 - 1.

(** Two's complement wrap-around of 64-bit [int] arithmetic. *)
Definition wrap64 (z : Z) : Z := (z + 2 ^ 63) mod 2 ^ 64 - 2 ^ 63.

Definition add (x y : Z) : Z := wrap64 (x + y).

(** [float64(x)] for an [int] [x]: the nearest value with a 53-bit
    significand, ties to even.  The value of the float is an integer,
    which is what is kept here. *)
Definition float64 (x : Z) : Z :=
  let a := Z.abs x in
  if a <? 2 ^ 53 then x
  else
    let e := Z.log2 a - 52 in
    let q := a / 2 ^ e in
    let r := a mod 2 ^ e in
    let half := 2 ^ (e - 1) in
    let q' := if r <? half then q
              else if half <? r then q + 1
              else if Z.even q then q else q + 1 in
    Z.sgn x * (q' * 2 ^ e).

(** [math.Min] and [math.Max] on finite floats that are neither NaN nor
    a negative zero (no conversion from [int] produces those). *)
Definition math_Min (x y : Z) : Z := Z.min x y.
Definition math_Max (x y : Z) : Z := Z.max x y.

(** [int(f)] for an integral float [f].  Outside the range of [int] the
    result is implementation-dependent; the only such input reachable
    from [float64] of an [int] is [2^63], for which amd64 yields
    [MinInt64]. *)
Definition int (f : Z) : Z :=
  if (MinInt64 <=? f) && (f <=? MaxInt64) then f else MinInt64.
End GoInt.

(** ** roles.go *)

Module Hierarchy.

(** A [*Role] is an address in the store of role objects; an address
    outside of the store stands for [nil]. *)
Abbreviation ptr := nat (only parsing).

Module Guild.
(** The fields of [Guild] that [roles.go] reads. *)
Record t := mk { ID : string; Roles : list ptr }.
End Guild.

Module Role.
(** The fields of [Role] that the hierarchy code reads or writes;
    [Guild] is [None] for a nil [*Guild]. *)
Record t := mk { ID : string; Position : Z; Guild : option Guild.t }.

Definition setPosition (p : Z) (r : t) : t :=
  {| ID := ID r; Position := p; Guild := Guild r |}.
End Role.

Module RoleMove.
Record t := mk { ID : string; Position : Z }.
End RoleMove.

Abbreviation store := (list Role.t).

Inductive Error :=
| ErrRolePositionBounds
| ErrUnmovableDefaultRole
| RemoteError (msg : string).

(** What a call of [Move] did besides returning: the batches handed to
    [Session.GuildRoleReorder], in order. *)
Definition batch : Type := string * list RoleMove.t.

Inductive Outcome :=
| Panic                                    (* nil pointer dereference *)
| Return (st : store) (submitted : list batch) (err : option Error).

(** The batches a call submitted. *)
Definition submitted (o : Outcome) : list batch :=
  match o with
  | Return _ sub _ => sub
  | Panic => []
  end.

(** [r.Position] of the object at [a], [0] at nil (never read there). *)
Definition positionOf (st : store) (a : ptr) : Z :=
  match st !! a with Some r => Role.Position r | None => 0%Z end.

Definition idOf (st : store) (a : ptr) : string :=
  match st !! a with Some r => Role.ID r | None => EmptyString end.

(** [LowerThan] and [HigherThan]. *)
Definition LowerThan (r other : Role.t) : bool :=
  (Role.Position r <? Role.Position other)%Z.
Definition HigherThan (r other : Role.t) : bool :=
  (Role.Position r >? Role.Position other)%Z.

(** [IsDefault]: [r.ID == r.Guild.ID]. *)
Definition IsDefault (r : Role.t) : option bool :=
  match Role.Guild r with
  | None => None
  | Some g => Some (bool_decide (Role.ID r = Guild.ID g))
  end.

(** [Roles.Less(i, j)]: [r[i].Position > r[j].Position], on the elements. *)
Definition Less (st : store) (a b : ptr) : bool :=
  (positionOf st a >? positionOf st b)%Z.

(** [sort.Reverse]: [Less(i, j)] of the wrapped value is [Less(j, i)]. *)
Definition Reverse (less : ptr -> ptr -> bool) : ptr -> ptr -> bool :=
  fun a b => less b a.

(** [Roles.ContainsID]; [None] is the panic on a nil role met before the
    ID is found. *)
Fixpoint ContainsID (st : store) (r : list ptr) (ID : string) : option bool :=
  match r with
  | [] => Some false
  | role :: rest =>
      match st !! role with
      | None => None
      | Some rv =>
          if bool_decide (Role.ID rv = ID) then Some true
          else ContainsID st rest ID
      end
  end.

(** [insertionSort] of package [sort], which [sort.Sort] runs on short
    slices: every element is swapped leftwards while it is [less] than its
    left neighbour. *)
Fixpoint insertLeft (less : ptr -> ptr -> bool) (x : ptr) (rev_sorted : list ptr)
  : list ptr :=
  match rev_sorted with
  | [] => [x]
  | y :: rest => if less x y then y :: insertLeft less x rest else x :: rev_sorted
  end.

Definition insertionSort (less : ptr -> ptr -> bool) (data : list ptr) : list ptr :=
  rev (fold_left (fun acc x => insertLeft less x acc) data []).

(** The contract of [sort.Sort] for a [Less] that compares integer keys:
    the result is a rearrangement of the input in which no element is
    [Less] than an earlier one.  The order of equal elements is left open
    ([sort.Sort] is not stable). *)
Definition SortContract (sortSort : (ptr -> ptr -> bool) -> list ptr -> list ptr)
  : Prop :=
  forall (key : ptr -> Z) (less : ptr -> ptr -> bool) (l : list ptr),
    (forall a b, less a b = (key a <? key b)%Z) ->
    sortSort less l ≡ₚ l /\
    StronglySorted (fun a b => (key a <= key b)%Z) (sortSort less l).

Section Move.
(** [sort.Sort] and the REST call [Session.GuildRoleReorder] belong to
    other packages. *)
Variable sortSort : (ptr -> ptr -> bool) -> list ptr -> list ptr.
Variable GuildRoleReorder : string -> list RoleMove.t -> option Error.

Local Open Scope Z_scope.

(** The first loop of [Move]: the other roles of the guild whose
    position lies between [min] and [max]. *)
Fixpoint collect (st : store) (rID : string) (min max : Z)
    (roles editedRoles : list ptr) : option (list ptr) :=
  match roles with
  | [] => Some editedRoles
  | role :: rest =>
      match st !! role with
      | None => None
      | Some rv =>
          if bool_decide (Role.ID rv ≠ rID)
             && (Role.Position rv <=? max) && (Role.Position rv >=? min)
          then collect st rID min max rest (editedRoles ++ [role])
          else collect st rID min max rest editedRoles
      end
  end.

(** The second loop: [for p, i := min, 0; p <= max+1 && i < len(..)]. *)
Fixpoint reposition (st : store) (p max : Z) (editedRoles : list ptr)
    (edits : list RoleMove.t) : option (store * list RoleMove.t) :=
  match editedRoles with
  | [] => Some (st, edits)
  | role :: rest =>
      if p <=? GoInt.add max 1 then
        match st !! role with
        | None => None
        | Some rv =>
            let rv' := Role.setPosition p rv in
            reposition (<[role := rv']> st) (GoInt.add p 1) max rest
              (edits ++ [RoleMove.mk (Role.ID rv') (Role.Position rv')])
        end
      else Some (st, edits)
  end.

Definition moveMin (position current : Z) : Z :=
  GoInt.int (GoInt.math_Min (GoInt.float64 position) (GoInt.float64 current)).
Definition moveMax (position current : Z) : Z :=
  GoInt.int (GoInt.math_Max (GoInt.float64 position) (GoInt.float64 current)).

Definition Move (st : store) (r : ptr) (position : Z) : Outcome :=
  if position <=? 0 then Return st [] (Some ErrRolePositionBounds)
  else
    match st !! r with
    | None => Panic
    | Some rv =>
        match IsDefault rv, Role.Guild rv with
        | Some true, _ => Return st [] (Some ErrUnmovableDefaultRole)
        | Some false, Some g =>
            let min := moveMin position (Role.Position rv) in
            let max := moveMax position (Role.Position rv) in
            match collect st (Role.ID rv) min max (Guild.Roles g) [] with
            | None => Panic
            | Some editedRoles =>
                let editedRoles := sortSort (Reverse (Less st)) editedRoles in
                let editedRoles :=
                  if position =? min then r :: editedRoles
                  else editedRoles ++ [r] in
                match reposition st min max editedRoles [] with
                | None => Panic
                | Some (st', edits) =>
                    Return st' [(Guild.ID g, edits)]
                      (GuildRoleReorder (Guild.ID g) edits)
                end
            end
        | _, _ => Panic
        end
    end.
End Move.

(** *** Closed forms of the two loops, used to state what they compute *)

(** The test of the first loop. *)
Definition inRange (st : store) (rID : string) (min max : Z) (role : ptr) : Prop :=
  idOf st role ≠ rID /\ (positionOf st role <= max)%Z /\ (min <= positionOf st role)%Z.

#[global] Instance inRange_dec st rID min max role :
  Decision (inRange st rID min max role).
Proof. unfold inRange. apply _. Defined.

(** The store after positions [p], [p+1], ... have been written to the
    roles of [l], in order. *)
Fixpoint assignFrom (st : store) (p : Z) (l : list ptr) : store :=
  match l with
  | [] => st
  | role :: rest => assignFrom (alter (Role.setPosition p) role st) (p + 1)%Z rest
  end.

(** The edits recorded while doing so. *)
Definition editsFrom (st : store) (p : Z) (l : list ptr) : list RoleMove.t :=
  zip_with (fun role z => RoleMove.mk (idOf st role) z) l (seqZ p (Z.of_nat (length l))).

(** The roles [Move] repositions, in order: the sorted others with the
    moved role [r] in front or at the end. *)
Definition combined (position min : Z) (r : ptr) (sorted : list ptr) : list ptr :=
  if (position =? min)%Z then r :: sorted else sorted ++ [r].

(** The position of [role] lies between [min] and [max]. *)
Definition within (st : store) (min max : Z) (role : ptr) : Prop :=
  (min <= positionOf st role <= max)%Z.

#[global] Instance within_dec st min max role : Decision (within st min max role).
Proof. unfold within. apply _. Defined.

(** *** Sample collections *)

(** The remote call succeeds. *)
Definition reorderOk : string -> list RoleMove.t -> option Error := fun _ _ => None.

(** Five roles at positions 0 to 4, the default one at 0. *)
Definition guild5 : Guild.t := Guild.mk "g" [0; 1; 2; 3; 4]%nat.
Definition roles5 : store :=
  [Role.mk "g" 0 (Some guild5); Role.mk "a" 1 (Some guild5);
   Role.mk "b" 2 (Some guild5); Role.mk "c" 3 (Some guild5);
   Role.mk "d" 4 (Some guild5)].

(** Three roles at position 0, the default one in the middle. *)
Definition guild000 : Guild.t := Guild.mk "g" [0; 1; 2]%nat.
Definition roles000 : store :=
  [Role.mk "x" 0 (Some guild000); Role.mk "g" 0 (Some guild000);
   Role.mk "r" 0 (Some guild000)].

(** Four roles sharing position 1 above the default role. *)
Definition guild1111 : Guild.t := Guild.mk "g" [0; 1; 2; 3; 4]%nat.
Definition roles1111 : store :=
  [Role.mk "g" 0 (Some guild1111); Role.mk "a" 1 (Some guild1111);
   Role.mk "b" 1 (Some guild1111); Role.mk "c" 1 (Some guild1111);
   Role.mk "d" 1 (Some guild1111)].

(** A gap: roles at positions 1 and 3 above the default role. *)
Definition guild13 : Guild.t := Guild.mk "g" [0; 1; 2]%nat.
Definition roles13 : store :=
  [Role.mk "g" 0 (Some guild13); Role.mk "a" 1 (Some guild13);
   Role.mk "b" 3 (Some guild13)].

(** [roles5] after its role [b] has been moved from 2 to 4, and the
    edits of that move. *)
Definition roles5_b4 : store :=
  [Role.mk "g" 0 (Some guild5); Role.mk "a" 1 (Some guild5);
   Role.mk "b" 4 (Some guild5); Role.mk "c" 2 (Some guild5);
   Role.mk "d" 3 (Some guild5)].
Definition edits_b4 : list RoleMove.t :=
  [RoleMove.mk "c" 2; RoleMove.mk "d" 3; RoleMove.mk "b" 4].

(** *** The rest of roles.go *)

(** [Roles.Len], [Roles.Swap] and [Roles.Less] on the indices of a slice;
    [None] is the run-time panic (index out of range, nil role). *)
Definition Len (r : list ptr) : nat := length r.

Definition Swap (r : list ptr) (i j : nat) : option (list ptr) :=
  a ← r !! i; b ← r !! j; Some (<[j := a]> (<[i := b]> r)).

Definition LessAt (st : store) (r : list ptr) (i j : nat) : option bool :=
  a ← r !! i; b ← r !! j; ra ← st !! a; rb ← st !! b;
  Some (Role.Position ra >? Role.Position rb)%Z.

(** [Role.GetID] and [Role.Mention]: [fmt.Sprintf("<@&%s>", r.ID)]. *)
Definition GetID (r : Role.t) : string := Role.ID r.

Definition Mention (r : Role.t) : string :=
  String.append "<@&" (String.append (Role.ID r) ">").

(** A [Member], as far as [GetMembers] reads it; a [*Member] is an
    address in a store of members. *)
Module Member.
Record t := mk { UserID : string; Roles : list string }.
End Member.

(** The inner loop of [GetMembers]: [m] is appended once for every
    entry of [m.Roles] that equals the ID of the role. *)
Fixpoint scanRoles (rID : string) (m : ptr) (roles : list string)
    (members : list ptr) : list ptr :=
  match roles with
  | [] => members
  | roleID :: rest =>
      scanRoles rID m rest
        (if bool_decide (roleID = rID) then members ++ [m] else members)
  end.

Fixpoint scanMembers (ms : list Member.t) (rID : string) (allMembers : list ptr)
    (members : list ptr) : option (list ptr) :=
  match allMembers with
  | [] => Some members
  | m :: rest =>
      match ms !! m with
      | None => None
      | Some mv => scanMembers ms rID rest (scanRoles rID m (Member.Roles mv) members)
      end
  end.

(** [GetMembers]; [allMembers] is [r.Guild.Members], a field the record
    [Guild.t] above leaves out, so that it is passed beside the role. *)
Definition GetMembers (ms : list Member.t) (r : Role.t) (allMembers : list ptr)
  : option (list ptr) :=
  match Role.Guild r with
  | None => None
  | Some _ => scanMembers ms (Role.ID r) allMembers []
  end.

(** The member at [m] lists the role ID, and how many times. *)
Definition hasRole (ms : list Member.t) (rID : string) (m : ptr) : Prop :=
  match ms !! m with
  | Some mv => rID ∈ Member.Roles mv
  | None => False
  end.

#[global] Instance hasRole_dec ms rID m : Decision (hasRole ms rID m).
Proof. unfold hasRole. destruct (ms !! m); apply _. Defined.

Definition timesListed (ms : list Member.t) (rID : string) (m : ptr) : nat :=
  match ms !! m with
  | Some mv => length (filter (fun roleID => roleID = rID) (Member.Roles mv))
  | None => 0
  end.

(** The store a call of [Move] left. *)
Definition storeOf (o : Outcome) : option store :=
  match o with
  | Return st _ _ => Some st
  | Panic => None
  end.

(** Six members over the roles of [roles5]. *)
Definition members6 : list Member.t :=
  [Member.mk "u0" ["g"]; Member.mk "u1" ["g"; "b"]; Member.mk "u2" ["g"; "a"; "c"];
   Member.mk "u3" ["b"; "g"; "b"]; Member.mk "u4" []; Member.mk "u5" ["d"; "b"]].

End Hierarchy.

(** ** The event-handler registry and dispatcher *)

Module Dispatch.

(** A [*eventHandlerInstance]: the address of an instance on the heap.
    Every registration allocates a fresh one, so two registrations of the
    same callback stay apart. *)
Abbreviation ehi := nat (only parsing).

(** An [EventHandler]: the tag its [Type()] returns and the callback
    that [Handle] runs (opaque user code, named by a number). *)
Module EventHandler.
Record t := mk { Type_ : string; callback : nat }.
End EventHandler.

(** The parts of a [Guild] that [setGuildIds] and [setSession] write.
    The data of an event is a tree of pointers ([*Guild], [[]*Channel],
    [*User], ...): a pointer is [None] when it is nil and holds the
    object it points to otherwise.  No two pointers of an event are
    taken to point to the same object, as in a value that
    [json.Unmarshal] has filled. *)
Module Guild.
Record Channel := mkChannel { ChannelGuildID : string; ChannelSession : bool }.
Record User := mkUser { UserSession : bool }.
Record Member := mkMember { MemberGuildID : string; MemberUser : option User }.
Record VoiceState := mkVoiceState { VoiceStateGuildID : string }.
(** [Session] fields hold [true] once they point to the session;
    [Guild] back-references hold the ID of the guild they point to. *)
Record Role := mkRole { RoleSession : bool; RoleGuild : option string }.
Record Emoji := mkEmoji { EmojiSession : bool; EmojiGuild : option string }.
Record t := mk {
  ID : string;
  Session : bool;
  Channels : list (option Channel);
  Members : list (option Member);
  VoiceStates : list (option VoiceState);
  Roles : list (option Role);
  Emojis : list (option Emoji)
}.
End Guild.

(** The event structs that the type switch of [onInterface] opens:
    [Ready] with its [[]*Guild], [GuildCreate] and [GuildUpdate] with
    the [*Guild] they embed. *)
Module Ready.
Record t := mk { SessionID : string; Guilds : list (option Guild.t) }.
End Ready.
Module GuildCreate.
Record t := mk { Guild : option Guild.t }.
End GuildCreate.
Module GuildUpdate.
Record t := mk { Guild : option Guild.t }.
End GuildUpdate.

(** The dynamic type of an event value [interface{}], as far as the
    type switch of [onInterface] tells them apart, with the pointer it
    holds ([None]: a nil pointer of that type). *)
Inductive Event :=
| Ready (t : option Ready.t)
| GuildCreate (t : option GuildCreate.t)
| GuildUpdate (t : option GuildUpdate.t)
| VoiceServerUpdate (data : string)
| VoiceStateUpdate (data : string)
| OtherEvent (name : string) (data : string).

(** An [EventInterfaceProvider]: [Type()] and the empty value of [New()]. *)
Module EventInterfaceProvider.
Record t := mk { Type_ : string; New : Event }.
End EventInterfaceProvider.

Inductive LogLevel := LogError | LogWarning | LogInformational | LogDebug.

(** What the code does to the outside, in program order. *)
Inductive Action :=
| Log (level : LogLevel) (format : string)
| Handle (eh : ehi) (i : Event)             (* eh.eventHandler.Handle(s, i) *)
| GoHandle (eh : ehi) (i : Event)           (* go eh.eventHandler.Handle(s, i) *)
| StateOnInterface (i : Event)              (* s.State.OnInterface(s, i) *)
| GoOnVoiceServerUpdate (i : Event)
| GoOnVoiceStateUpdate (i : Event)
| QueueSubscribe (subject queue : string).  (* s.NATS.QueueSubscribe(..) *)

(** A slice of instances: the cells within its length, and its capacity. *)
Record Slice := mkSlice { elems : list ehi; cap : nat }.

Definition nilSlice : Slice := mkSlice [] 0.

(** The registry is used under [s.handlersMu]: registration and removal
    hold the write lock, [handleEvent] only the read lock, although
    [handle] writes [s.onceHandlers[t]] under it.  The functions below
    are single calls that run to their end with no other call on the
    session in between; dispatches that overlap are not described.  A
    handler is opaque user code: its invocation is an action of the
    trace, and what it does when it runs is not part of a call. *)

(** The session fields the dispatcher uses, the two package-level maps
    ([natsSubscriptions], [registeredInterfaceProviders]), the heap of
    handler instances and the trace of actions so far. *)
Record World := mkWorld {
  handlers : gmap string Slice;
  onceHandlers : gmap string Slice;
  SyncEvents : bool;
  State : bool;                            (* s.State != nil *)
  sessionID : string;
  NATS : bool;                             (* s.NATS != nil *)
  NatsMode : Z;
  NatsQueueName : string;
  natsSubscriptions : gmap string (option nat);
  registeredInterfaceProviders : gmap string EventInterfaceProvider.t;
  instances : list EventHandler.t;
  trace : list Action
}.

Definition setHandlers (h : gmap string Slice) (w : World) : World :=
  mkWorld h (onceHandlers w) (SyncEvents w) (State w) (sessionID w) (NATS w)
    (NatsMode w) (NatsQueueName w) (natsSubscriptions w)
    (registeredInterfaceProviders w) (instances w) (trace w).

Definition setOnceHandlers (h : gmap string Slice) (w : World) : World :=
  mkWorld (handlers w) h (SyncEvents w) (State w) (sessionID w) (NATS w)
    (NatsMode w) (NatsQueueName w) (natsSubscriptions w)
    (registeredInterfaceProviders w) (instances w) (trace w).

Definition setSessionID (id : string) (w : World) : World :=
  mkWorld (handlers w) (onceHandlers w) (SyncEvents w) (State w) id (NATS w)
    (NatsMode w) (NatsQueueName w) (natsSubscriptions w)
    (registeredInterfaceProviders w) (instances w) (trace w).

Definition setNatsSubscriptions (m : gmap string (option nat)) (w : World) : World :=
  mkWorld (handlers w) (onceHandlers w) (SyncEvents w) (State w) (sessionID w)
    (NATS w) (NatsMode w) (NatsQueueName w) m
    (registeredInterfaceProviders w) (instances w) (trace w).

Definition setProviders (m : gmap string EventInterfaceProvider.t) (w : World)
  : World :=
  mkWorld (handlers w) (onceHandlers w) (SyncEvents w) (State w) (sessionID w)
    (NATS w) (NatsMode w) (NatsQueueName w) (natsSubscriptions w) m
    (instances w) (trace w).

Definition setInstances (l : list EventHandler.t) (w : World) : World :=
  mkWorld (handlers w) (onceHandlers w) (SyncEvents w) (State w) (sessionID w)
    (NATS w) (NatsMode w) (NatsQueueName w) (natsSubscriptions w)
    (registeredInterfaceProviders w) l (trace w).

(** Performing an action appends it to the trace. *)
Definition emit (a : Action) (w : World) : World :=
  mkWorld (handlers w) (onceHandlers w) (SyncEvents w) (State w) (sessionID w)
    (NATS w) (NatsMode w) (NatsQueueName w) (natsSubscriptions w)
    (registeredInterfaceProviders w) (instances w) (trace w ++ [a]).

Definition log (level : LogLevel) (format : string) (w : World) : World :=
  emit (Log level format) w.

(** [m[t]] on a map of slices: the nil slice when the key is absent (or
    the map itself is nil). *)
Definition index (m : gmap string Slice) (t : string) : Slice :=
  default nilSlice (m !! t).

Definition interfaceEventType : string := "__INTERFACE__".

(** The removal closure returned by a registration: it captured the tag
    and the instance; [NoOp] is [func() {}]. *)
Inductive Token :=
| NoOp
| Remove (t : string) (eh : ehi).

(** [registerInterfaceProvider]. *)
Definition registerInterfaceProvider (eh : EventInterfaceProvider.t) (w : World)
  : World :=
  match registeredInterfaceProviders w !! EventInterfaceProvider.Type_ eh with
  | Some _ => w
  | None =>
      setProviders
        (<[EventInterfaceProvider.Type_ eh := eh]> (registeredInterfaceProviders w)) w
  end.

(** [for _, x := range xs { ... }] over a slice of pointers whose body
    writes to [x]: the slice with the objects as the body leaves them;
    [None] is the nil-pointer panic, of a nil entry or inside the body. *)
Definition forEach {A} (body : A -> option A) (xs : list (option A))
  : option (list (option A)) :=
  mapM (fun p => x ← p; y ← body x; Some (Some y)) xs.

(** [setGuildIds] and [setSession]: the guild as they leave it; [None]
    is the panic on a nil guild, a nil entry of a list they range over,
    or a nil [m.User]. *)
Definition setGuildIds (g : option Guild.t) : option Guild.t :=
  g ← g;
  Channels ← forEach
    (fun c => Some (Guild.mkChannel (Guild.ID g) (Guild.ChannelSession c)))
    (Guild.Channels g);
  Members ← forEach
    (fun m => Some (Guild.mkMember (Guild.ID g) (Guild.MemberUser m)))
    (Guild.Members g);
  VoiceStates ← forEach
    (fun _ => Some (Guild.mkVoiceState (Guild.ID g))) (Guild.VoiceStates g);
  Some (Guild.mk (Guild.ID g) (Guild.Session g) Channels Members VoiceStates
          (Guild.Roles g) (Guild.Emojis g)).

Definition setSession (g : option Guild.t) : option Guild.t :=
  g ← g;
  Channels ← forEach
    (fun c => Some (Guild.mkChannel (Guild.ChannelGuildID c) true))
    (Guild.Channels g);
  Members ← forEach
    (fun m => _ ← Guild.MemberUser m;
              Some (Guild.mkMember (Guild.ID g) (Some (Guild.mkUser true))))
    (Guild.Members g);
  Roles ← forEach
    (fun _ => Some (Guild.mkRole true (Some (Guild.ID g)))) (Guild.Roles g);
  Emojis ← forEach
    (fun _ => Some (Guild.mkEmoji true (Some (Guild.ID g)))) (Guild.Emojis g);
  Some (Guild.mk (Guild.ID g) true Channels Members (Guild.VoiceStates g)
          Roles Emojis).

(** The body of the loop of [onInterface] over the guilds of a [Ready]. *)
Definition readyGuild (g : option Guild.t) : option (option Guild.t) :=
  g ← setGuildIds g; g ← setSession (Some g); Some (Some g).

(** [onReady]. *)
Definition onReady (SessionID : string) (w : World) : World :=
  setSessionID SessionID w.

Section Dispatcher.
(** Collaborators outside of the file: the growth policy of [append]
    (old capacity, needed length), [handlerForInterface],
    [State.OnInterface], [json.Unmarshal] and the NATS client. *)
Variable growslice : nat -> nat -> nat.
Variable Handler : Type.
Variable handlerForInterface : Handler -> option EventHandler.t.
Variable State_OnInterface : Event -> option string.
Variable json_Unmarshal : string -> Event -> Event * option string.
Variable NATS_QueueSubscribe : string -> string -> option nat * option string.

(** [append(s, xs...)]: in place when the capacity suffices, into a new
    array otherwise. *)
Definition append (s : Slice) (xs : list ehi) : Slice :=
  let n := (length (elems s) + length xs)%nat in
  if (n <=? cap s)%nat then mkSlice (elems s ++ xs) (cap s)
  else mkSlice (elems s ++ xs) (growslice (cap s) n).

(** [&eventHandlerInstance{eventHandler}]. *)
Definition new (eventHandler : EventHandler.t) (w : World) : ehi * World :=
  (length (instances w), setInstances (instances w ++ [eventHandler]) w).

Definition addEventHandler (eventHandler : EventHandler.t) (w : World)
  : World * Token :=
  let '(eh, w) := new eventHandler w in
  let t := EventHandler.Type_ eventHandler in
  (setHandlers (<[t := append (index (handlers w) t) [eh]]> (handlers w)) w,
   Remove t eh).

Definition addEventHandlerOnce (eventHandler : EventHandler.t) (w : World)
  : World * Token :=
  let '(eh, w) := new eventHandler w in
  let t := EventHandler.Type_ eventHandler in
  (setOnceHandlers
     (<[t := append (index (onceHandlers w) t) [eh]]> (onceHandlers w)) w,
   Remove t eh).

(** [AddHandler]. *)
Definition AddHandler (handler : Handler) (w : World) : World * Token :=
  match handlerForInterface handler with
  | None =>
      (log LogError "Invalid handler type, handler will never be called" w, NoOp)
  | Some eh =>
      let w :=
        if NATS w && (NatsMode w =? 1)%Z then
          let subject := EventHandler.Type_ eh in
          let subject :=
            if bool_decide (subject = interfaceEventType) then "*" else subject in
          match natsSubscriptions w !! subject with
          | Some _ => w
          | None =>
              let w := log LogInformational "Subscribing to NATS event: %s" w in
              let '(sub, err) := NATS_QueueSubscribe subject (NatsQueueName w) in
              let w := emit (QueueSubscribe subject (NatsQueueName w)) w in
              let w :=
                match err with
                | Some _ =>
                    let w := log LogError "Could not subscribe to NATS event: %s" w in
                    setNatsSubscriptions (<[subject := sub]> (natsSubscriptions w)) w
                | None => w
                end in
              log LogInformational "%v" w
          end
        else w in
      addEventHandler eh w
  end.

(** [AddHandlerOnce]. *)
Definition AddHandlerOnce (handler : Handler) (w : World) : World * Token :=
  match handlerForInterface handler with
  | None =>
      (log LogError "Invalid handler type, handler will never be called" w, NoOp)
  | Some eh => addEventHandlerOnce eh w
  end.

(** The first loop of [removeEventHandlerInstance].  [handlers] is the
    local slice header: [n] cells of the backing array, which
    [append(handlers[:i], handlers[i+1:]...)] shifts in place while the
    loop keeps ranging over all [n] of them; [assigned] is the slice
    last stored into [s.handlers[t]], if any. *)
Definition spliceHandlers (eh : ehi) (n c : nat)
    (acc : list ehi * option Slice) (i : nat) : list ehi * option Slice :=
  let '(handlers, assigned) := acc in
  if bool_decide (handlers !! i = Some eh) then
    let spliced := take i handlers ++ drop (S i) handlers in
    (spliced ++ drop (n - 1) handlers, Some (mkSlice spliced c))
  else acc.

(** The second loop: [append(onceHandlers[:i], handlers[i+1:]...)].
    [handlers[i+1:]] is out of range when [i+1 > len(handlers)]; the
    result goes into the cells of [onceHandlers] when they suffice and
    into a new array otherwise. *)
Definition spliceOnceHandlers (eh : ehi) (handlers : list ehi) (m c : nat)
    (acc : option (list ehi * option Slice)) (i : nat)
  : option (list ehi * option Slice) :=
  '(onceHandlers, assigned) ← acc;
  if bool_decide (onceHandlers !! i = Some eh) then
    if (S i <=? length handlers)%nat then
      let spliced := take i onceHandlers ++ drop (S i) handlers in
      if (length spliced <=? c)%nat then
        Some (take m (spliced ++ drop (length spliced) onceHandlers),
              Some (mkSlice spliced c))
      else
        Some (onceHandlers,
              Some (mkSlice spliced (growslice c (length spliced))))
    else None
  else Some (onceHandlers, assigned).

Definition store (t : string) (assigned : option Slice)
    (m : gmap string Slice) : gmap string Slice :=
  match assigned with
  | Some sl => <[t := sl]> m
  | None => m
  end.

(** [removeEventHandlerInstance]; [None] is the run-time panic. *)
Definition removeEventHandlerInstance (t : string) (eh : ehi) (w : World)
  : option World :=
  let hs := index (handlers w) t in
  let n := length (elems hs) in
  let '(handlers', assigned) :=
    fold_left (spliceHandlers eh n (cap hs)) (seq 0 n) (elems hs, None) in
  let w := setHandlers (store t assigned (handlers w)) w in
  let os := index (onceHandlers w) t in
  let m := length (elems os) in
  '(_, assigned) ← fold_left (spliceOnceHandlers eh handlers' m (cap os))
                     (seq 0 m) (Some (elems os, None));
  Some (setOnceHandlers (store t assigned (onceHandlers w)) w).

Definition invoke (tok : Token) (w : World) : option World :=
  match tok with
  | NoOp => Some w
  | Remove t eh => removeEventHandlerInstance t eh w
  end.

(** [handle]: the persistent handlers, then the once handlers, which are
    dropped afterwards. *)
Definition fire (i : Event) (w : World) (eh : ehi) : World :=
  if SyncEvents w then emit (Handle eh i) w else emit (GoHandle eh i) w.

Definition handle (t : string) (i : Event) (w : World) : World :=
  let w := fold_left (fire i) (elems (index (handlers w) t)) w in
  if (0 <? length (elems (index (onceHandlers w) t)))%nat then
    let w := fold_left (fire i) (elems (index (onceHandlers w) t)) w in
    setOnceHandlers (<[t := nilSlice]> (onceHandlers w)) w
  else w.

(** [onInterface]: the value as the hook leaves it, and the world;
    [None] is a panic, on a nil pointer of the event or on a nil
    [State]. *)
Definition onInterface (i : Event) (w : World) : option (Event * World) :=
  '(i, w) ←
    match i with
    | Ready t =>
        t ← t;
        Guilds ← mapM readyGuild (Ready.Guilds t);
        Some (Ready (Some (Ready.mk (Ready.SessionID t) Guilds)),
              onReady (Ready.SessionID t) w)
    | GuildCreate t =>
        t ← t;
        g ← setGuildIds (GuildCreate.Guild t);
        Some (GuildCreate (Some (GuildCreate.mk (Some g))), w)
    | GuildUpdate t =>
        t ← t;
        g ← setGuildIds (GuildUpdate.Guild t);
        Some (GuildUpdate (Some (GuildUpdate.mk (Some g))), w)
    | VoiceServerUpdate _ => Some (i, emit (GoOnVoiceServerUpdate i) w)
    | VoiceStateUpdate _ => Some (i, emit (GoOnVoiceStateUpdate i) w)
    | OtherEvent _ _ => Some (i, w)
    end;
  if State w then
    let w := emit (StateOnInterface i) w in
    match State_OnInterface i with
    | Some _ => Some (i, log LogDebug "error dispatching internal event, %s" w)
    | None => Some (i, w)
    end
  else None.

(** [handleEvent]. *)
Definition handleEvent (t : string) (i : Event) (w : World) : option World :=
  '(i, w) ← (if State w then onInterface i w else Some (i, w));
  let w := handle interfaceEventType i w in
  Some (handle t i w).

(** [natsHandler]: [m.Subject] and [m.Data]. *)
Definition natsHandler (Subject Data : string) (w : World) : option World :=
  match registeredInterfaceProviders w !! Subject with
  | Some eh =>
      let i := EventInterfaceProvider.New eh in
      let '(i, err) := json_Unmarshal Data i in
      let w :=
        match err with
        | Some _ => log LogError "error unmarshalling %s event, %s" w
        | None => w
        end in
      handleEvent Subject i w
  | None => Some w
  end.
End Dispatcher.

(** *** Notions used to state what the dispatcher does *)

(** The action by which [handle] invokes the instance [eh]. *)
Definition call (w : World) (i : Event) (eh : ehi) : Action :=
  if SyncEvents w then Handle eh i else GoHandle eh i.

Definition isHandlerCall (a : Action) : bool :=
  match a with
  | Handle _ _ | GoHandle _ _ => true
  | _ => false
  end.

(** The invocations of [eh] in a trace. *)
Definition invokes (eh : ehi) (a : Action) : bool :=
  match a with
  | Handle eh' _ | GoHandle eh' _ => bool_decide (eh' = eh)
  | _ => false
  end.

Definition invocations (eh : ehi) (tr : list Action) : nat :=
  length (List.filter (invokes eh) tr).

(** [s.onceHandlers[t] = nil] when [len(s.onceHandlers[t]) > 0]. *)
Definition clearOnce (t : string) (m : gmap string Slice) : gmap string Slice :=
  if (0 <? length (elems (index m t)))%nat then <[t := nilSlice]> m else m.

(** The instance [eh] sits in some table. *)
Definition held (w : World) (eh : ehi) : Prop :=
  exists t,
    eh ∈ elems (index (handlers w) t) \/ eh ∈ elems (index (onceHandlers w) t).

(** The once entry [eh] of tag [T], as a once registration leaves it:
    held once by the once list of [T] and by no other list. *)
Definition onceEntry (w : World) (T : string) (eh : ehi) : Prop :=
  (exists l1 l2,
     elems (index (onceHandlers w) T) = l1 ++ eh :: l2 /\ (eh ∉ l1) /\ (eh ∉ l2)) /\
  (forall t, eh ∉ elems (index (handlers w) t)) /\
  (forall t, t ≠ T -> eh ∉ elems (index (onceHandlers w) t)).

(** Every instance held by a table has been allocated. *)
Definition allocated (w : World) : Prop :=
  forall t eh,
    eh ∈ elems (index (handlers w) t) \/ eh ∈ elems (index (onceHandlers w) t) ->
    (eh < length (instances w))%nat.

(** *** Sample worlds *)

Definition OnInterfaceOk : Event -> option string := fun _ => None.
Definition UnmarshalFails : string -> Event -> Event * option string :=
  fun _ i => (i, Some "unexpected end of JSON input").
Definition SubscribeOk : string -> string -> option nat * option string :=
  fun _ _ => (Some 7%nat, None).

(** A fresh session in synchronous mode, with or without a [State]. *)
Definition fresh (state : bool) : World :=
  mkWorld ∅ ∅ true state "" false 0 "" ∅ ∅ [] [].

(** A fresh session bridged to NATS. *)
Definition bridged : World :=
  mkWorld ∅ ∅ true true "" true 1 "q" ∅ ∅ [] [].

Definition onT : EventHandler.t := EventHandler.mk "T" 0.
Definition onAny : EventHandler.t := EventHandler.mk interfaceEventType 1.
Definition ping : Event := OtherEvent "T" "ping".

(** [append] allocating exactly what is needed. *)
Definition growExact : nat -> nat -> nat := fun _ n => n.

(** Every handler value is an [EventHandler] already. *)
Definition resolve : EventHandler.t -> option EventHandler.t := Some.

Definition isSubscribe (a : Action) : bool :=
  match a with
  | QueueSubscribe _ _ => true
  | _ => false
  end.

(** A session with a [State], a provider for ["T"], a persistent
    wildcard handler (instance 0) and a persistent handler under ["T"]
    (instance 1). *)
Definition listening : World :=
  fst (addEventHandler growExact onT
         (fst (addEventHandler growExact onAny
                 (registerInterfaceProvider (EventInterfaceProvider.mk "T" ping)
                    (fresh true))))).

(** The same with a once handler under ["T"] on top (instance 2). *)
Definition waiting : World := fst (addEventHandlerOnce growExact onT listening).

(** *** Further notions *)

(** The persistent entry [eh] of tag [T], as a registration leaves it:
    held once by the persistent list of [T] and by no other list. *)
Definition persistentEntry (w : World) (T : string) (eh : ehi) : Prop :=
  (exists l1 l2,
     elems (index (handlers w) T) = l1 ++ eh :: l2 /\ (eh ∉ l1) /\ (eh ∉ l2)) /\
  (forall t, t ≠ T -> eh ∉ elems (index (handlers w) t)) /\
  (forall t, eh ∉ elems (index (onceHandlers w) t)).

(** The NATS subject [AddHandler] uses for a handler, and whether it
    goes on to subscribe to it. *)
Definition subjectOf (eh : EventHandler.t) : string :=
  if bool_decide (EventHandler.Type_ eh = interfaceEventType) then "*"
  else EventHandler.Type_ eh.

Definition subscribes (w : World) (eh : EventHandler.t) : bool :=
  NATS w && (NatsMode w =? 1)%Z
  && (if natsSubscriptions w !! subjectOf eh is Some _ then false else true).

(** The value the type switch of [onInterface] leaves behind; [None]
    when it dereferences a nil pointer of the event. *)
Definition afterHook (i : Event) : option Event :=
  match i with
  | Ready t =>
      t ← t;
      Guilds ← mapM readyGuild (Ready.Guilds t);
      Some (Ready (Some (Ready.mk (Ready.SessionID t) Guilds)))
  | GuildCreate t =>
      t ← t;
      g ← setGuildIds (GuildCreate.Guild t);
      Some (GuildCreate (Some (GuildCreate.mk (Some g))))
  | GuildUpdate t =>
      t ← t;
      g ← setGuildIds (GuildUpdate.Guild t);
      Some (GuildUpdate (Some (GuildUpdate.mk (Some g))))
  | _ => Some i
  end.

(** A dispatch of [i] gets past the hook: the session has no [State],
    so that the hook is skipped, or the hook dereferences no nil
    pointer of [i]. *)
Definition getsPastHook (w : World) (i : Event) : Prop :=
  State w = true -> is_Some (afterHook i).

(** The value the handlers of such a dispatch receive. *)
Definition delivered (w : World) (i : Event) : Event :=
  if State w then default i (afterHook i) else i.

(** The session ID after such a dispatch. *)
Definition sessionIDAfter (w : World) (i : Event) : string :=
  if State w then
    match i with
    | Ready (Some t) => Ready.SessionID t
    | _ => sessionID w
    end
  else sessionID w.

(** A [GuildCreate] as [New()] of its provider returns it, before any
    decoding: the [*Guild] it embeds is nil. *)
Definition emptyGuildCreate : Event := GuildCreate (Some (GuildCreate.mk None)).

(** The NATS settings and the two package-level maps. *)
Definition globals (w : World) :=
  (NATS w, NatsMode w, NatsQueueName w, natsSubscriptions w,
   registeredInterfaceProviders w).

(** The subscription fails, leaving no subscription object. *)
Definition SubscribeFails : string -> string -> option nat * option string :=
  fun _ _ => (None, Some "nats: connection closed").

(** No handler value is an [EventHandler]. *)
Definition reject : EventHandler.t -> option EventHandler.t := fun _ => None.

(** [listening] before its handler under ["T"] was added. *)
Definition provided : World :=
  fst (addEventHandler growExact onAny
         (registerInterfaceProvider (EventInterfaceProvider.mk "T" ping)
            (fresh true))).

(** Two persistent handlers (instances 0 and 1) and two once handlers
    (instances 2 and 3) under ["T"]. *)
Definition crowded : World :=
  fst (addEventHandlerOnce growExact onT
         (fst (addEventHandlerOnce growExact onT
                 (fst (addEventHandler growExact onT
                         (fst (addEventHandler growExact onT (fresh true)))))))).

(** A session with a [State], a provider for ["GUILD_CREATE"] whose
    [New()] is the empty [GuildCreate], and a persistent handler under
    that tag (instance 0); and the same session without [State]. *)
Definition onGuildCreate : EventHandler.t := EventHandler.mk "GUILD_CREATE" 0.
Definition guildProvided (state : bool) : World :=
  fst (addEventHandler growExact onGuildCreate
         (registerInterfaceProvider
            (EventInterfaceProvider.mk "GUILD_CREATE" emptyGuildCreate)
            (fresh state))).

End Dispatch.

(* ===================================================================== *)
(** * Part II - properties *)
(* ===================================================================== *)

(** ** Arithmetic of [int] and [float64] within the exact range *)

Module GoIntFacts.
Import GoInt.
Local Open Scope Z_scope.

Lemma float64_exact x : Z.abs x < 2 ^ 53 -> float64 x = x.
Proof.
  intros H. unfold float64.
  destruct (Z.ltb_spec (Z.abs x) (2 ^ 53)); [reflexivity | lia].
Qed.

Lemma int_exact f : MinInt64 <= f <= MaxInt64 -> int f = f.
Proof.
  intros [H1 H2]. unfold int.
  destruct (Z.leb_spec MinInt64 f); [|lia].
  destruct (Z.leb_spec f MaxInt64); [reflexivity | lia].
Qed.

Lemma wrap64_exact z : MinInt64 <= z <= MaxInt64 -> wrap64 z = z.
Proof.
  unfold wrap64, MinInt64, MaxInt64. intros H.
  rewrite Z.mod_small; lia.
Qed.

Lemma add_exact x y : MinInt64 <= x + y <= MaxInt64 -> add x y = x + y.
Proof. apply wrap64_exact. Qed.
End GoIntFacts.

(** ** roles.go *)

Module HierarchyFacts.
Import Hierarchy.
Local Open Scope Z_scope.

(** *** [insertionSort] meets the contract of [sort.Sort] *)

Lemma insertLeft_perm less x acc : insertLeft less x acc ≡ₚ x :: acc.
Proof.
  induction acc as [|y acc IH]; simpl; [reflexivity|].
  destruct (less x y); [|reflexivity].
  rewrite IH. apply perm_swap.
Qed.

Lemma insertLeft_sorted (key : ptr -> Z) less x acc :
  (forall a b, less a b = (key a <? key b)) ->
  StronglySorted (fun a b => key b <= key a) acc ->
  StronglySorted (fun a b => key b <= key a) (insertLeft less x acc).
Proof.
  intros Hless. induction acc as [|y acc IH]; simpl; intros Hs.
  - repeat constructor.
  - apply StronglySorted_inv in Hs as [Hs Hy].
    rewrite Hless. destruct (Z.ltb_spec (key x) (key y)) as [Hlt|Hge].
    + constructor; [auto|].
      rewrite (insertLeft_perm less x acc). constructor; [lia | exact Hy].
    + constructor; [constructor; assumption|].
      constructor; [exact Hge|].
      eapply Forall_impl; [exact Hy|]. simpl. intros; lia.
Qed.

Lemma insertionSort_acc (key : ptr -> Z) less data acc :
  (forall a b, less a b = (key a <? key b)) ->
  StronglySorted (fun a b => key b <= key a) acc ->
  let out := fold_left (fun acc x => insertLeft less x acc) data acc in
  out ≡ₚ data ++ acc /\ StronglySorted (fun a b => key b <= key a) out.
Proof.
  intros Hless. revert acc. induction data as [|x data IH]; simpl; intros acc Hs.
  - split; [reflexivity | assumption].
  - destruct (IH (insertLeft less x acc)) as [Hp Hs'].
    { by apply insertLeft_sorted. }
    split; [|exact Hs'].
    rewrite Hp, insertLeft_perm. by rewrite Permutation_middle.
Qed.

Lemma StronglySorted_rev_flip {A} (R : A -> A -> Prop) (l : list A) :
  StronglySorted R l -> StronglySorted (fun a b => R b a) (rev l).
Proof.
  induction 1 as [|x l Hs IH Hx]; simpl; [constructor|].
  apply StronglySorted_app. split_and!.
  - intros a b Ha Hb. apply list_elem_of_singleton in Hb as ->.
    rewrite Forall_forall in Hx. apply Hx.
    apply list_elem_of_In. apply in_rev. by apply list_elem_of_In.
  - exact IH.
  - repeat constructor.
Qed.

Lemma insertionSort_contract : SortContract insertionSort.
Proof.
  intros key less l Hless. unfold insertionSort.
  destruct (insertionSort_acc key less l [] Hless) as [Hp Hs]; [constructor|].
  simpl in Hp, Hs. split.
  - rewrite <- Permutation_rev. by rewrite Hp, app_nil_r.
  - by apply (StronglySorted_rev_flip (fun a b => key b <= key a)).
Qed.

Lemma StronglySorted_weaken {A} (R1 R2 : A -> A -> Prop) (l : list A) :
  (forall a b, R1 a b -> R2 a b) -> StronglySorted R1 l -> StronglySorted R2 l.
Proof.
  intros HR. induction 1 as [|x l Hs IH Hx]; constructor; [assumption|].
  eapply Forall_impl; [exact Hx | auto].
Qed.

(** The sorted rearrangement of a list without equal keys is unique:
    every [sort.Sort] returns it. *)
Lemma sort_unique sortSort (key : ptr -> Z) less l l' :
  SortContract sortSort ->
  (forall a b, less a b = (key a <? key b)) ->
  l ≡ₚ l' ->
  StronglySorted (fun a b => key a < key b) l' ->
  sortSort less l = l'.
Proof.
  intros Hc Hless Hperm Hl. destruct (Hc key less l Hless) as [Hp Hs].
  assert (Hinj : forall a b, a ∈ l' -> b ∈ l' -> key a = key b -> a = b).
  { clear -Hl. induction Hl as [|x l Hl IH Hx]; intros a b Ha Hb Hk.
    - by apply elem_of_nil in Ha.
    - rewrite Forall_forall in Hx.
      apply elem_of_cons in Ha as [->|Ha]; apply elem_of_cons in Hb as [->|Hb];
        auto.
      + specialize (Hx _ Hb). lia.
      + specialize (Hx _ Ha). lia. }
  eapply (StronglySorted_unique_strong (fun a b => key a <= key b));
    [| exact Hs | | by rewrite Hp].
  - intros a b Ha Hb H1 H2. apply Hinj; [by rewrite <- Hperm, <- Hp | done | lia].
  - eapply StronglySorted_weaken; [|exact Hl]. simpl. intros; lia.
Qed.

Lemma sort_strictly_sorted sortSort (key : ptr -> Z) less l :
  SortContract sortSort ->
  (forall a b, less a b = (key a <? key b)) ->
  StronglySorted (fun a b => key a < key b) l ->
  sortSort less l = l.
Proof. intros Hc Hless Hl. by eapply sort_unique. Qed.

Lemma Reverse_Less st a b :
  Reverse (Less st) a b = (positionOf st a <? positionOf st b).
Proof. unfold Reverse, Less. apply Z.gtb_ltb. Qed.

(** *** Lists of positions *)

Lemma setPosition_id v : Role.setPosition (Role.Position v) v = v.
Proof. by destruct v. Qed.

Lemma setPosition_setPosition p p' v :
  Role.setPosition p (Role.setPosition p' v) = Role.setPosition p v.
Proof. reflexivity. Qed.

(** A strictly ascending list of [n] integers taken from an interval of
    [n] integers is the interval. *)
Lemma strictly_sorted_interval (l : list Z) : forall a,
  StronglySorted Z.lt l ->
  (forall x, x ∈ l -> a <= x < a + Z.of_nat (length l)) ->
  l = seqZ a (Z.of_nat (length l)).
Proof.
  induction l as [|x l IH]; intros a Hs Hin; [done|].
  apply StronglySorted_inv in Hs as [Hs Hx]. rewrite Forall_forall in Hx.
  cbn [length] in *.
  assert (Hl : l = seqZ (a + 1) (Z.of_nat (length l))).
  { apply IH; [done|]. intros y Hy.
    pose proof (Hx y Hy). pose proof (Hin x (list_elem_of_here _ _)).
    pose proof (Hin y (list_elem_of_further _ _ _ Hy)). lia. }
  assert (x = a) as ->.
  { pose proof (Hin x (list_elem_of_here _ _)) as Hxa.
    destruct l as [|y l]; [cbn in Hxa; lia|].
    cbn [length] in Hl. rewrite seqZ_cons in Hl by lia.
    injection Hl as Hy _. specialize (Hx y (list_elem_of_here _ _)). lia. }
  rewrite seqZ_cons by lia. f_equal.
  replace (Z.succ a) with (a + 1) by lia.
  by replace (Z.pred (Z.of_nat (S (length l)))) with (Z.of_nat (length l)) by lia.
Qed.

Lemma StronglySorted_le_NoDup_lt (l : list Z) :
  StronglySorted Z.le l -> NoDup l -> StronglySorted Z.lt l.
Proof.
  induction 1 as [|x l Hs IH Hx]; intros Hnd; [constructor|].
  apply NoDup_cons in Hnd as [Hnx Hnd]. constructor; [auto|].
  rewrite Forall_forall in *. intros y Hy.
  specialize (Hx y Hy). assert (x ≠ y) by (by intros ->). lia.
Qed.

Lemma StronglySorted_key_fmap {A} (key : A -> Z) (R : Z -> Z -> Prop) (l : list A) :
  StronglySorted (fun a b => R (key a) (key b)) l <-> StronglySorted R (key <$> l).
Proof.
  induction l as [|x l IH]; [split; constructor|].
  rewrite fmap_cons, !StronglySorted_cons, IH, Forall_fmap. done.
Qed.

Lemma filter_ext_elem {A} (P Q : A -> Prop) `{forall x, Decision (P x)}
    `{forall x, Decision (Q x)} (l : list A) :
  (forall x, x ∈ l -> P x <-> Q x) -> filter P l = filter Q l.
Proof.
  induction l as [|x l IH]; intros Hext; [done|].
  rewrite !filter_cons.
  rewrite IH by (intros y Hy; apply Hext; by right).
  pose proof (Hext x (list_elem_of_here _ _)) as Hx.
  destruct (decide (P x)), (decide (Q x)); tauto || done.
Qed.

(** In a list without repetition, the elements that satisfy [P] are
    one of them, [r], and the others that do. *)
Lemma filter_split_elem {A} `{EqDecision A} (P : A -> Prop)
    `{forall x, Decision (P x)} (l : list A) (r : A) :
  NoDup l -> r ∈ l -> P r ->
  filter P l ≡ₚ r :: filter (fun q => q ≠ r /\ P q) l.
Proof.
  intros Hnd Hr HP. induction l as [|x l IH]; [by apply elem_of_nil in Hr|].
  apply NoDup_cons in Hnd as [Hx Hnd]. rewrite !filter_cons.
  destruct (decide (x = r)) as [->|Hne].
  - rewrite decide_True by done. rewrite decide_False by tauto.
    f_equiv. erewrite filter_ext_elem; [done|].
    intros y Hy. split; [|tauto]. intros HPy. split; [|done]. by intros ->.
  - apply elem_of_cons in Hr as [->|Hr]; [done|].
    specialize (IH Hnd Hr).
    destruct (decide (P x)) as [HPx|HPx].
    + rewrite decide_True by done. rewrite IH. apply perm_swap.
    + rewrite decide_False by tauto. exact IH.
Qed.

(** *** The two loops of [Move] *)

Lemma ContainsID_valid (st : store) (r : list ptr) (ID : string) :
  Forall (fun a : ptr => is_Some (st !! a)) r ->
  ContainsID st r ID = Some (bool_decide (ID ∈ idOf st <$> r)).
Proof.
  induction 1 as [|a r [rv Ha] _ IH]; cbn.
  - reflexivity.
  - rewrite Ha.
    assert (Ha' : idOf st a = Role.ID rv) by (unfold idOf; rewrite Ha; reflexivity).
    destruct (decide (Role.ID rv = ID)) as [Hid|Hid].
    + rewrite bool_decide_eq_true_2 by exact Hid.
      f_equal. symmetry. apply bool_decide_eq_true.
      apply elem_of_cons. left. congruence.
    + rewrite bool_decide_eq_false_2 by exact Hid.
      rewrite IH. f_equal. apply bool_decide_ext.
      rewrite elem_of_cons, Ha'.
      split; [intros H; right; exact H | intros [H|H]; [congruence | exact H]].
Qed.

Lemma ContainsID_ext (st st' : store) (r : list ptr) (ID : string) :
  length st' = length st ->
  (forall q : ptr, idOf st' q = idOf st q) ->
  ContainsID st' r ID = ContainsID st r ID.
Proof.
  intros Hlen Hid. induction r as [|a r IH]; cbn; [reflexivity|].
  specialize (Hid a). unfold idOf in Hid.
  destruct (st' !! a) as [rv'|] eqn:Ha', (st !! a) as [rv|] eqn:Ha.
  - rewrite Hid, IH. reflexivity.
  - apply lookup_lt_Some in Ha'. apply lookup_ge_None in Ha. lia.
  - apply lookup_lt_Some in Ha. apply lookup_ge_None in Ha'. lia.
  - reflexivity.
Qed.

Section MoveFacts.
Variable sortSort : (ptr -> ptr -> bool) -> list ptr -> list ptr.
Variable GuildRoleReorder : string -> list RoleMove.t -> option Error.
Hypothesis sortSort_contract : SortContract sortSort.

Lemma idOf_alter (st : store) p (a q : ptr) :
  idOf (alter (Role.setPosition p) a st) q = idOf st q.
Proof.
  unfold idOf. destruct (decide (a = q)) as [->|Hne].
  - rewrite list_lookup_alter_eq. destruct (st !! q); reflexivity.
  - by rewrite list_lookup_alter_ne.
Qed.

Lemma valid_alter (st : store) p (a q : ptr) :
  is_Some (alter (Role.setPosition p) a st !! q) <-> is_Some (st !! q).
Proof. rewrite !lookup_lt_is_Some. by rewrite length_alter. Qed.

Lemma insert_setPosition (st : store) (a : ptr) rv p :
  st !! a = Some rv ->
  <[a := Role.setPosition p rv]> st = alter (Role.setPosition p) a st.
Proof.
  intros H. apply list_eq. intros i. destruct (decide (a = i)) as [->|Hne].
  - rewrite list_lookup_alter_eq, H. simpl.
    apply list_lookup_insert_eq. by eapply lookup_lt_Some.
  - by rewrite list_lookup_insert_ne, list_lookup_alter_ne.
Qed.

Lemma collect_filter st rID lo hi roles acc :
  Forall (fun q => is_Some (st !! q)) roles ->
  collect st rID lo hi roles acc
  = Some (acc ++ filter (inRange st rID lo hi) roles).
Proof.
  intros Hv. revert acc. induction Hv as [|q roles [rv Hq] Hv IH]; intros acc.
  - simpl. by rewrite app_nil_r.
  - simpl. rewrite Hq. rewrite filter_cons.
    assert (Hiff : inRange st rID lo hi q <->
              bool_decide (Role.ID rv ≠ rID) && (Role.Position rv <=? hi)
                && (Role.Position rv >=? lo) = true).
    { unfold inRange, idOf, positionOf. rewrite Hq.
      rewrite !andb_true_iff, bool_decide_eq_true, Z.leb_le, Z.geb_le.
      tauto. }
    destruct (decide (inRange st rID lo hi q)) as [Hin|Hout].
    + apply Hiff in Hin. rewrite Hin, IH. by rewrite <- app_assoc.
    + destruct (_ && _ && _); [exfalso; apply Hout, Hiff; reflexivity|]. apply IH.
Qed.

Lemma collect_Some st rID lo hi roles acc l :
  collect st rID lo hi roles acc = Some l ->
  Forall (fun q => is_Some (st !! q)) roles.
Proof.
  revert acc. induction roles as [|q roles IH]; intros acc; [constructor|].
  simpl. destruct (st !! q) as [rv|] eqn:Hq; [|discriminate].
  intros H. constructor; [by eexists|].
  destruct (_ && _ && _); eauto.
Qed.

(** Whatever the bounds, the second loop writes only to roles of its
    list, keeps every ID, and records edits only for those roles. *)
Lemma reposition_frame l : forall st p max edits st' edits',
  reposition st p max l edits = Some (st', edits') ->
  (forall q, q ∉ l -> st' !! q = st !! q) /\
  (forall q, idOf st' q = idOf st q) /\
  exists new, edits' = edits ++ new /\
    forall e, e ∈ new -> exists q, q ∈ l /\ RoleMove.ID e = idOf st q.
Proof.
  induction l as [|a l IH]; intros st p max edits st' edits'; simpl.
  - intros [= <- <-]. split_and!; [done..|].
    exists []. rewrite app_nil_r. split; [done|]. by intros e ?%elem_of_nil.
  - destruct (p <=? GoInt.add max 1).
    2:{ intros [= <- <-]. split_and!; [done..|].
        exists []. rewrite app_nil_r. split; [done|]. by intros e ?%elem_of_nil. }
    destruct (st !! a) as [rv|] eqn:Ha; [|discriminate].
    rewrite (insert_setPosition _ _ _ _ Ha).
    intros H. apply IH in H as (Hother & Hid & new & -> & Hnew).
    split_and!.
    + intros q Hq. apply not_elem_of_cons in Hq as [Hne Hq].
      rewrite (Hother q Hq). by rewrite list_lookup_alter_ne.
    + intros q. by rewrite Hid, idOf_alter.
    + eexists (_ :: new). split; [by rewrite <- app_assoc|].
      intros e [->|He]%elem_of_cons.
      * exists a. split; [left|]. simpl. unfold idOf. by rewrite Ha.
      * destruct (Hnew e He) as (q & Hq & Heq). exists q.
        split; [by right|]. by rewrite Heq, idOf_alter.
Qed.

Local Abbreviation Move := (Move sortSort GuildRoleReorder).

(** *** The ways [Move] returns *)

Lemma Move_inv st r position st' sub err :
  Move st r position = Return st' sub err ->
  (position <= 0 /\ st' = st /\ sub = [] /\ err = Some ErrRolePositionBounds) \/
  (0 < position /\ exists rv g,
      st !! r = Some rv /\ Role.Guild rv = Some g /\
      ((Role.ID rv = Guild.ID g /\ st' = st /\ sub = [] /\
        err = Some ErrUnmovableDefaultRole) \/
       (Role.ID rv ≠ Guild.ID g /\
        let lo := moveMin position (Role.Position rv) in
        let hi := moveMax position (Role.Position rv) in
        exists collected edits,
          collect st (Role.ID rv) lo hi (Guild.Roles g) [] = Some collected /\
          reposition st lo hi
            (combined position lo r (sortSort (Reverse (Less st)) collected)) []
            = Some (st', edits) /\
          sub = [(Guild.ID g, edits)] /\
          err = GuildRoleReorder (Guild.ID g) edits))).
Proof.
  unfold Hierarchy.Move. intros HM.
  destruct (Z.leb_spec position 0) as [Hle|Hgt].
  { injection HM as <- <- <-. left. auto. }
  destruct (st !! r) as [rv|] eqn:Hr; [|discriminate].
  unfold IsDefault in HM.
  destruct (Role.Guild rv) as [g|] eqn:Hg; [|discriminate].
  right. split; [lia|]. exists rv, g. split_and!; [done..|].
  case_bool_decide as Hid.
  { injection HM as <- <- <-. left. auto. }
  right. split; [done|]. simpl.
  destruct (collect _ _ _ _ _ _) as [collected|] eqn:Hc; [|discriminate].
  fold (combined position (moveMin position (Role.Position rv)) r
          (sortSort (Reverse (Less st)) collected)) in HM.
  destruct (reposition _ _ _ _ _) as [[st1 edits]|] eqn:Hrep; [|discriminate].
  injection HM as <- <- <-. exists collected, edits. auto.
Qed.

Lemma elem_of_combined position lo r sorted q :
  q ∈ combined position lo r sorted <-> q = r \/ q ∈ sorted.
Proof.
  unfold combined. destruct (position =? lo).
  - apply elem_of_cons.
  - rewrite elem_of_app, list_elem_of_singleton. tauto.
Qed.

Lemma sorted_perm st l : sortSort (Reverse (Less st)) l ≡ₚ l.
Proof.
  apply (sortSort_contract (positionOf st)). apply Reverse_Less.
Qed.

Lemma sorted_sorted st l :
  StronglySorted (fun a b => positionOf st a <= positionOf st b)
    (sortSort (Reverse (Less st)) l).
Proof.
  apply (sortSort_contract (positionOf st)). apply Reverse_Less.
Qed.

(** *** C9 *)

(** C9 (as amended): for the default entity of a collection [Move]
    fails for every target position, with the position-bounds error
    when the target is zero or less and with the unmovable-default
    error when it is positive (the entity's own position included);
    the call leaves the store as it was and submits no batch. *)
Theorem move_default_rejected st r rv g position :
  st !! r = Some rv ->
  Role.Guild rv = Some g ->
  Role.ID rv = Guild.ID g ->
  Move st r position
  = Return st []
      (Some (if position <=? 0 then ErrRolePositionBounds
             else ErrUnmovableDefaultRole)).
Proof.
  intros Hr Hg Hid. unfold Hierarchy.Move.
  destruct (position <=? 0); [reflexivity|].
  rewrite Hr. unfold IsDefault. rewrite Hg.
  by rewrite bool_decide_eq_true_2.
Qed.

(** *** C2 *)

(** What [Move] leaves alone: the entities that carry the ID of the guild,
    when those listed in the collection are all outside of the range. *)
Lemma Move_frame_default st r rv g position st' sub err :
  st !! r = Some rv ->
  Role.Guild rv = Some g ->
  (forall d dv, d ∈ Guild.Roles g -> st !! d = Some dv ->
     Role.ID dv = Guild.ID g ->
     Role.Position dv < moveMin position (Role.Position rv) \/
     moveMax position (Role.Position rv) < Role.Position dv) ->
  Move st r position = Return st' sub err ->
  (forall d dv, st !! d = Some dv -> Role.ID dv = Guild.ID g ->
     st' !! d = Some dv) /\
  (forall gid edits e, (gid, edits) ∈ sub -> e ∈ edits ->
     RoleMove.ID e ≠ Guild.ID g).
Proof.
  intros Hr Hg Hout HM.
  apply Move_inv in HM
    as [(_ & -> & -> & _)|(_ & rv' & g' & Hr' & Hg' & HM)].
  { split; [done|]. by intros ??? ?%elem_of_nil. }
  rewrite Hr in Hr'. injection Hr' as <-.
  rewrite Hg in Hg'. injection Hg' as <-.
  destruct HM as [(_ & -> & -> & _)|(Hid & collected & edits & Hc & Hrep & -> & _)].
  { split; [done|]. by intros ??? ?%elem_of_nil. }
  pose proof (collect_Some _ _ _ _ _ _ _ Hc) as Hvalid.
  rewrite (collect_filter _ _ _ _ _ _ Hvalid) in Hc. simpl in Hc.
  injection Hc as <-.
  apply reposition_frame in Hrep as (Hother & _ & new & Hnew & Hids).
  simpl in Hnew. subst new.
  (* no role of the repositioned list carries the ID of the guild *)
  assert (Hclean : forall q, q ∈ combined position
             (moveMin position (Role.Position rv)) r
             (sortSort (Reverse (Less st))
                (filter (inRange st (Role.ID rv)
                   (moveMin position (Role.Position rv))
                   (moveMax position (Role.Position rv))) (Guild.Roles g))) ->
           idOf st q ≠ Guild.ID g).
  { intros q [->|Hq]%elem_of_combined.
    - unfold idOf. by rewrite Hr.
    - rewrite sorted_perm in Hq. apply list_elem_of_filter in Hq as [Hin Hq].
      rewrite Forall_forall in Hvalid. destruct (Hvalid q Hq) as [qv Hqv].
      unfold idOf. rewrite Hqv. intros Heq.
      destruct Hin as (_ & H1 & H2). unfold positionOf in H1, H2.
      rewrite Hqv in H1, H2.
      destruct (Hout q qv Hq Hqv Heq); lia. }
  split.
  - intros d dv Hd Hdid. rewrite Hother; [done|].
    intros Hin. apply (Hclean d Hin). unfold idOf. by rewrite Hd.
  - intros gid edits' e Hsub He.
    apply list_elem_of_singleton in Hsub. injection Hsub as -> ->.
    destruct (Hids e He) as (q & Hq & ->). by apply Hclean.
Qed.

(** C2 (as amended): when every default entity of the collection has
    its position outside of the range between the [min] and [max] that
    [Move] computes from the target and the moved entity's position (so
    whenever the default sits at position 0 and the moved entity at 1 or
    above), [Move] leaves the default entity as it was and records no
    edit naming its ID. *)
Theorem move_spares_default_outside_range st r rv g position st' sub err :
  st !! r = Some rv ->
  Role.Guild rv = Some g ->
  (forall d dv, d ∈ Guild.Roles g -> st !! d = Some dv ->
     Role.ID dv = Guild.ID g ->
     Role.Position dv < moveMin position (Role.Position rv) \/
     moveMax position (Role.Position rv) < Role.Position dv) ->
  Move st r position = Return st' sub err ->
  (forall d dv, st !! d = Some dv -> Role.ID dv = Guild.ID g ->
     st' !! d = Some dv) /\
  (forall gid edits e, (gid, edits) ∈ sub -> e ∈ edits ->
     RoleMove.ID e ≠ Guild.ID g).
Proof. apply Move_frame_default. Qed.

(** *** The second loop when it reaches the end of its list *)

Lemma assignFrom_notin l : forall (st : store) p (q : ptr),
  q ∉ l -> assignFrom st p l !! q = st !! q.
Proof.
  induction l as [|a l IH]; intros st p q Hq; simpl; [done|].
  apply not_elem_of_cons in Hq as [Hne Hq].
  rewrite IH by done. by rewrite list_lookup_alter_ne.
Qed.

Lemma assignFrom_app l1 l2 : forall (st : store) p,
  assignFrom st p (l1 ++ l2)
  = assignFrom (assignFrom st p l1) (p + Z.of_nat (length l1)) l2.
Proof.
  induction l1 as [|a l1 IH]; intros st p; cbn [app assignFrom length].
  - by rewrite Z.add_0_r.
  - rewrite IH. f_equal. lia.
Qed.

Lemma assignFrom_length l : forall (st : store) p,
  length (assignFrom st p l) = length st.
Proof.
  induction l as [|a l IH]; intros st p; simpl; [done|].
  by rewrite IH, length_alter.
Qed.

Lemma idOf_assignFrom l : forall (st : store) p q,
  idOf (assignFrom st p l) q = idOf st q.
Proof.
  induction l as [|a l IH]; intros st p q; simpl; [done|].
  by rewrite IH, idOf_alter.
Qed.

(** With no repetition in the list, its [i]-th role ends at [p + i]. *)
Lemma assignFrom_lookup l : forall (st : store) p i (q : ptr) rv,
  NoDup l -> l !! i = Some q -> st !! q = Some rv ->
  assignFrom st p l !! q = Some (Role.setPosition (p + Z.of_nat i) rv).
Proof.
  induction l as [|a l IH]; intros st p i q rv Hnd Hi Hq; [done|].
  apply NoDup_cons in Hnd as [Ha Hnd].
  destruct i as [|i]; cbn [assignFrom lookup list_lookup] in *.
  - injection Hi as ->. rewrite assignFrom_notin by done.
    rewrite list_lookup_alter_eq, Hq. cbn. by rewrite Z.add_0_r.
  - assert (a ≠ q) as Hne.
    { intros ->. apply Ha. by eapply list_elem_of_lookup_2. }
    erewrite IH; [|done|exact Hi|by rewrite list_lookup_alter_ne].
    f_equal. f_equal. lia.
Qed.

Lemma editsFrom_alter (st : store) p' a p l :
  editsFrom (alter (Role.setPosition p') a st) p l = editsFrom st p l.
Proof.
  unfold editsFrom. apply zip_with_ext; [|done..].
  intros q z. by rewrite idOf_alter.
Qed.

Lemma editsFrom_cons (st : store) p a l :
  editsFrom st p (a :: l) = RoleMove.mk (idOf st a) p :: editsFrom st (p + 1) l.
Proof.
  unfold editsFrom. cbn [length]. rewrite seqZ_cons by lia.
  cbn [zip_with].
  replace (Z.succ p) with (p + 1) by lia.
  by replace (Z.pred (Z.of_nat (S (length l)))) with (Z.of_nat (length l)) by lia.
Qed.

Lemma editsFrom_positions (st : store) p l :
  RoleMove.Position <$> editsFrom st p l = seqZ p (Z.of_nat (length l)).
Proof.
  revert p. induction l as [|a l IH]; intros p; [done|].
  rewrite editsFrom_cons, fmap_cons, IH. cbn [RoleMove.Position length].
  rewrite (seqZ_cons p) by lia.
  replace (Z.succ p) with (p + 1) by lia.
  by replace (Z.pred (Z.of_nat (S (length l)))) with (Z.of_nat (length l)) by lia.
Qed.

Lemma editsFrom_lookup (st : store) p l i q :
  l !! i = Some q ->
  editsFrom st p l !! i = Some (RoleMove.mk (idOf st q) (p + Z.of_nat i)).
Proof.
  revert p i. induction l as [|a l IH]; intros p i Hi; [done|].
  rewrite editsFrom_cons. destruct i as [|i]; cbn [lookup list_lookup] in *.
  - injection Hi as ->. by rewrite Z.add_0_r.
  - rewrite (IH _ _ Hi). f_equal. f_equal. lia.
Qed.

Lemma editsFrom_length (st : store) p l : length (editsFrom st p l) = length l.
Proof.
  unfold editsFrom. rewrite length_zip_with, length_seqZ. lia.
Qed.

Lemma reposition_full l : forall (st : store) p hi edits,
  Forall (fun q => is_Some (st !! q)) l ->
  GoInt.MinInt64 <= p -> hi <= GoInt.MaxInt64 - 2 ->
  p + Z.of_nat (length l) <= hi + 2 ->
  reposition st p hi l edits
  = Some (assignFrom st p l, edits ++ editsFrom st p l).
Proof.
  induction l as [|a l IH]; intros st p hi edits Hv Hp Hhi Hlen.
  - simpl. by rewrite app_nil_r.
  - apply Forall_cons in Hv as [[rv Ha] Hv]. cbn [length] in Hlen.
    cbn [reposition].
    rewrite !GoIntFacts.add_exact by (unfold GoInt.MaxInt64, GoInt.MinInt64 in *; lia).
    destruct (Z.leb_spec p (hi + 1)) as [_|?]; [|lia].
    rewrite Ha, (insert_setPosition _ _ _ _ Ha).
    rewrite IH; [| |lia..].
    + cbn [assignFrom Role.setPosition Role.ID Role.Position].
      rewrite editsFrom_alter, editsFrom_cons, <- app_assoc.
      unfold idOf. by rewrite Ha.
    + eapply Forall_impl; [exact Hv|]. intros q. by rewrite valid_alter.
Qed.

(** [Move] in closed form, for positions that [float64] holds exactly. *)
Lemma moveMin_exact position current :
  Z.abs position < 2 ^ 53 -> Z.abs current < 2 ^ 53 ->
  moveMin position current = Z.min position current.
Proof.
  intros H1 H2. unfold moveMin, GoInt.math_Min.
  rewrite !GoIntFacts.float64_exact by done.
  apply GoIntFacts.int_exact. unfold GoInt.MinInt64, GoInt.MaxInt64. lia.
Qed.

Lemma moveMax_exact position current :
  Z.abs position < 2 ^ 53 -> Z.abs current < 2 ^ 53 ->
  moveMax position current = Z.max position current.
Proof.
  intros H1 H2. unfold moveMax, GoInt.math_Max.
  rewrite !GoIntFacts.float64_exact by done.
  apply GoIntFacts.int_exact. unfold GoInt.MinInt64, GoInt.MaxInt64. lia.
Qed.

Lemma length_combined position lo r sorted :
  length (combined position lo r sorted) = S (length sorted).
Proof.
  unfold combined. destruct (position =? lo); simpl; [done|].
  rewrite length_app. simpl. lia.
Qed.

Lemma Move_reorders st r rv g position :
  0 < position < 2 ^ 53 ->
  Z.abs (Role.Position rv) < 2 ^ 53 ->
  st !! r = Some rv ->
  Role.Guild rv = Some g ->
  Role.ID rv ≠ Guild.ID g ->
  Forall (fun q => is_Some (st !! q)) (Guild.Roles g) ->
  let lo := Z.min position (Role.Position rv) in
  let hi := Z.max position (Role.Position rv) in
  let others := filter (inRange st (Role.ID rv) lo hi) (Guild.Roles g) in
  let l := combined position lo r (sortSort (Reverse (Less st)) others) in
  Z.of_nat (length others) <= hi - lo + 1 ->
  Move st r position
  = Return (assignFrom st lo l) [(Guild.ID g, editsFrom st lo l)]
      (GuildRoleReorder (Guild.ID g) (editsFrom st lo l)).
Proof.
  intros Hpos Hcur Hr Hg Hid Hvalid lo hi others l Hlen.
  unfold Hierarchy.Move.
  destruct (Z.leb_spec position 0) as [?|_]; [lia|].
  rewrite Hr. unfold IsDefault. rewrite Hg.
  rewrite bool_decide_eq_false_2 by done.
  rewrite moveMin_exact, moveMax_exact by lia.
  rewrite collect_filter by done. simpl.
  fold lo hi others. fold (combined position lo r (sortSort (Reverse (Less st)) others)).
  fold l.
  rewrite reposition_full; [done| | | |].
  - apply Forall_forall. intros q [->|Hq]%elem_of_combined; [by eexists|].
    rewrite sorted_perm in Hq. apply list_elem_of_filter in Hq as [_ Hq].
    rewrite Forall_forall in Hvalid. by apply Hvalid.
  - unfold GoInt.MinInt64. lia.
  - unfold GoInt.MaxInt64. lia.
  - unfold l. rewrite length_combined, sorted_perm. lia.
Qed.

(** The usual arrangement: the default entity at position 0 (or below)
    and the moved entity above it. *)
Lemma move_spares_default_at_zero st r rv g position st' sub err :
  0 < position < 2 ^ 53 ->
  0 < Role.Position rv < 2 ^ 53 ->
  st !! r = Some rv ->
  Role.Guild rv = Some g ->
  (forall d dv, d ∈ Guild.Roles g -> st !! d = Some dv ->
     Role.ID dv = Guild.ID g -> Role.Position dv <= 0) ->
  Move st r position = Return st' sub err ->
  (forall d dv, st !! d = Some dv -> Role.ID dv = Guild.ID g ->
     st' !! d = Some dv) /\
  (forall gid edits e, (gid, edits) ∈ sub -> e ∈ edits ->
     RoleMove.ID e ≠ Guild.ID g).
Proof.
  intros Hpos Hcur Hr Hg Hzero HM.
  apply (Move_frame_default st r rv g position st' sub err Hr Hg); [|exact HM].
  intros d dv Hd Hdv Hid. left. rewrite moveMin_exact by lia.
  specialize (Hzero d dv Hd Hdv Hid). lia.
Qed.

Lemma moved_not_among_others st r rv lo hi roles :
  st !! r = Some rv ->
  r ∉ sortSort (Reverse (Less st)) (filter (inRange st (Role.ID rv) lo hi) roles).
Proof.
  intros Hr Hin. rewrite sorted_perm in Hin.
  apply list_elem_of_filter in Hin as [(Hne & _) _].
  apply Hne. unfold idOf. by rewrite Hr.
Qed.

(** *** C3 *)

(** C3 (as amended): for a non-default entity and a target above zero,
    provided at most [hi - lo + 1] other entities of the collection have
    their position in [[lo, hi]] (as is the case when positions are
    pairwise distinct), [Move] submits one batch whose positions are
    [lo], [lo + 1], ... in this order, none beyond [hi + 1]; the moved
    entity takes the first slot, at the target, when the target is [lo],
    and the last slot, at [lo] plus the number of the others, when it is
    not; that slot is the target itself when the others number
    [hi - lo]. *)
Theorem move_assigns_contiguous_positions st r rv g position :
  0 < position < 2 ^ 53 ->
  Z.abs (Role.Position rv) < 2 ^ 53 ->
  st !! r = Some rv ->
  Role.Guild rv = Some g ->
  Role.ID rv ≠ Guild.ID g ->
  Forall (fun q => is_Some (st !! q)) (Guild.Roles g) ->
  let lo := Z.min position (Role.Position rv) in
  let hi := Z.max position (Role.Position rv) in
  let others := filter (inRange st (Role.ID rv) lo hi) (Guild.Roles g) in
  let slot := if decide (position = lo) then position
              else lo + Z.of_nat (length others) in
  Z.of_nat (length others) <= hi - lo + 1 ->
  exists st' edits,
    Move st r position
    = Return st' [(Guild.ID g, edits)] (GuildRoleReorder (Guild.ID g) edits) /\
    RoleMove.Position <$> edits = seqZ lo (Z.of_nat (length others) + 1) /\
    Forall (fun e => lo <= RoleMove.Position e <= hi + 1) edits /\
    edits !! Z.to_nat (slot - lo) = Some (RoleMove.mk (Role.ID rv) slot) /\
    st' !! r = Some (Role.setPosition slot rv) /\
    (Z.of_nat (length others) = hi - lo -> slot = position).
Proof.
  intros Hpos Hcur Hr Hg Hid Hvalid lo hi others slot Hlen.
  pose proof (Move_reorders st r rv g position Hpos Hcur Hr Hg Hid Hvalid Hlen)
    as HM.
  fold lo hi others in HM.
  set (sorted := sortSort (Reverse (Less st)) others) in *.
  assert (Hsl : length sorted = length others).
  { unfold sorted. by rewrite sorted_perm. }
  assert (Hnotin : r ∉ sorted).
  { unfold sorted, others. by apply moved_not_among_others. }
  eexists _, _. split; [exact HM|].
  assert (Hposs : RoleMove.Position <$> editsFrom st lo (combined position lo r sorted)
                  = seqZ lo (Z.of_nat (length others) + 1)).
  { rewrite editsFrom_positions, length_combined, Hsl. f_equal. lia. }
  split_and!.
  - exact Hposs.
  - apply Forall_forall. intros e He.
    assert (RoleMove.Position e ∈ seqZ lo (Z.of_nat (length others) + 1)) as Hin.
    { rewrite <- Hposs. by apply list_elem_of_fmap_2. }
    apply elem_of_seqZ in Hin. lia.
  - unfold slot, combined. destruct (decide (position = lo)) as [He|Hne].
    + rewrite (proj2 (Z.eqb_eq position lo) He).
      replace (Z.to_nat (position - lo)) with 0%nat by lia.
      rewrite editsFrom_cons. cbn. unfold idOf. rewrite Hr. by rewrite <- He.
    + destruct (Z.eqb_spec position lo) as [?|_]; [done|].
      replace (Z.to_nat (lo + Z.of_nat (length others) - lo))
        with (length sorted) by lia.
      erewrite editsFrom_lookup.
      2:{ rewrite lookup_app_r by lia. by rewrite Nat.sub_diag. }
      unfold idOf. rewrite Hr, Hsl. done.
  - unfold slot, combined. destruct (decide (position = lo)) as [He|Hne].
    + rewrite (proj2 (Z.eqb_eq position lo) He). cbn [assignFrom].
      rewrite assignFrom_notin by done.
      rewrite list_lookup_alter_eq, Hr. cbn. by rewrite <- He.
    + destruct (Z.eqb_spec position lo) as [?|_]; [done|].
      rewrite assignFrom_app. cbn [assignFrom].
      rewrite list_lookup_alter_eq, assignFrom_notin, Hr by done.
      cbn. by rewrite Hsl.
  - unfold slot. intros Hn. destruct (decide (position = lo)); lia.
Qed.

(** *** C4 *)

(** C4 (as amended): in the collection with entities at positions
    0, 1, 2, 3, 4, moving the entity at position 2 to target 4 collects
    the entities at positions 3 and 4, keeps them in ascending order
    ([sort.Reverse] of a [Less] that is itself descending), appends the
    moved entity, and submits exactly the edits (idAt3 -> 2),
    (idAt4 -> 3), (moved -> 4), in this order. *)
Theorem move_2_to_4_edits :
  Move roles5 2%nat 4
  = Return
      [Role.mk "g" 0 (Some guild5); Role.mk "a" 1 (Some guild5);
       Role.mk "b" 4 (Some guild5); Role.mk "c" 2 (Some guild5);
       Role.mk "d" 3 (Some guild5)]
      [("g", [RoleMove.mk "c" 2; RoleMove.mk "d" 3; RoleMove.mk "b" 4])]
      (GuildRoleReorder "g"
         [RoleMove.mk "c" 2; RoleMove.mk "d" 3; RoleMove.mk "b" 4]).
Proof.
  assert (Hothers :
    filter (inRange roles5 "b" (Z.min 4 2) (Z.max 4 2)) (Guild.Roles guild5)
    = [3; 4]%nat) by (vm_compute; reflexivity).
  rewrite (Move_reorders roles5 2%nat (Role.mk "b" 2 (Some guild5)) guild5 4);
    cbn [Role.ID Role.Position Guild.ID]; rewrite ?Hothers;
    [|lia|cbn; lia|reflexivity|reflexivity|discriminate| |cbn; lia].
  - rewrite (sort_strictly_sorted sortSort (positionOf roles5) _ [3; 4]%nat
               sortSort_contract (Reverse_Less roles5)); [reflexivity|].
    repeat constructor.
  - apply Forall_forall. intros q Hq. apply lookup_lt_is_Some.
    apply list_elem_of_In in Hq. cbn in Hq. cbn. lia.
Qed.

(** *** C10: moving there and back *)

(** *** What [Move] does in general *)

Lemma reposition_positions_only l : forall (st : store) p max edits st' edits',
  reposition st p max l edits = Some (st', edits') ->
  length st' = length st /\
  forall (q : ptr) v', st' !! q = Some v' ->
    exists v, st !! q = Some v /\ Role.ID v' = Role.ID v /\ Role.Guild v' = Role.Guild v.
Proof.
  induction l as [|a l IH]; intros st p max edits st' edits'; cbn [reposition].
  - intros [= <- <-]. split; [reflexivity|]. intros q v' Hq. exists v'. auto.
  - destruct (p <=? GoInt.add max 1).
    2:{ intros [= <- <-]. split; [reflexivity|]. intros q v' Hq. exists v'. auto. }
    destruct (st !! a) as [rv|] eqn:Ha; [|discriminate].
    intros H. apply IH in H as [Hlen Hfields]. split.
    + rewrite Hlen. apply length_insert.
    + intros q v' Hq. destruct (Hfields q v' Hq) as (v1 & Hv1 & Hid1 & Hg1).
      destruct (decide (a = q)) as [->|Hne].
      * rewrite list_lookup_insert_eq in Hv1 by (eapply lookup_lt_Some; exact Ha).
        injection Hv1 as <-. exists rv. auto.
      * rewrite list_lookup_insert_ne in Hv1 by exact Hne. exists v1. auto.
Qed.

Lemma Move_frame st r position st' sub err :
  Move st r position = Return st' sub err ->
  length st' = length st /\
  (forall (q : ptr) v', st' !! q = Some v' ->
     exists v, st !! q = Some v /\ Role.ID v' = Role.ID v /\ Role.Guild v' = Role.Guild v) /\
  (forall rv g (q : ptr), st !! r = Some rv -> Role.Guild rv = Some g -> q ≠ r ->
     ~ (q ∈ Guild.Roles g /\
        inRange st (Role.ID rv) (moveMin position (Role.Position rv))
          (moveMax position (Role.Position rv)) q) ->
     st' !! q = st !! q).
Proof.
  intros HM. apply Move_inv in HM.
  assert (Hsame : st' = st ->
    length st' = length st /\
    (forall (q : ptr) v', st' !! q = Some v' ->
       exists v, st !! q = Some v /\ Role.ID v' = Role.ID v /\ Role.Guild v' = Role.Guild v) /\
    (forall rv g (q : ptr), st !! r = Some rv -> Role.Guild rv = Some g -> q ≠ r ->
       ~ (q ∈ Guild.Roles g /\
          inRange st (Role.ID rv) (moveMin position (Role.Position rv))
            (moveMax position (Role.Position rv)) q) ->
       st' !! q = st !! q)).
  { intros ->. split; [reflexivity|]. split; [|reflexivity].
    intros q v' Hq. exists v'. auto. }
  destruct HM as [(_ & Hst & _)|(_ & rv & g & Hr & Hg & [(_ & Hst & _)|HM])];
    [exact (Hsame Hst)..|].
  destruct HM as (_ & collected & edits & Hc & Hrep & _ & _).
  destruct (reposition_positions_only _ _ _ _ _ _ _ Hrep) as [Hlen Hfields].
  split; [exact Hlen|]. split; [exact Hfields|].
  intros rv0 g0 q Hr0 Hg0 Hqr Hout.
  assert (rv0 = rv) as -> by congruence. assert (g0 = g) as -> by congruence.
  apply (reposition_frame _ _ _ _ _ _ _ Hrep).
  rewrite elem_of_combined, sorted_perm. intros [Hq|Hq]; [exact (Hqr Hq)|].
  rewrite collect_filter in Hc by (eapply collect_Some; exact Hc).
  injection Hc as <-. cbn in Hq. apply list_elem_of_filter in Hq. tauto.
Qed.

(** X7: a call of [Move] that returns either rejects the request, with
    [ErrRolePositionBounds] for a position of zero or less and
    [ErrUnmovableDefaultRole] for the default role, and then changes
    nothing and calls no remote; or it submits exactly one batch, to
    the guild of the role, and returns the answer of the remote as it
    is.  The batch names only the role and roles of its guild. *)
Theorem Move_rejects_or_submits_once st r position st' sub err :
  Move st r position = Return st' sub err ->
  (st' = st /\ sub = [] /\
   (position <= 0 /\ err = Some ErrRolePositionBounds \/
    0 < position /\ err = Some ErrUnmovableDefaultRole /\
    exists rv, st !! r = Some rv /\ IsDefault rv = Some true)) \/
  (0 < position /\
   exists rv g edits,
     st !! r = Some rv /\ IsDefault rv = Some false /\ Role.Guild rv = Some g /\
     sub = [(Guild.ID g, edits)] /\
     err = GuildRoleReorder (Guild.ID g) edits /\
     forall e, e ∈ edits ->
       exists q : ptr, (q = r \/ q ∈ Guild.Roles g) /\ RoleMove.ID e = idOf st q).
Proof.
  intros HM. apply Move_inv in HM.
  destruct HM as [(Hp & -> & -> & ->)|(Hp & rv & g & Hr & Hg & HM)].
  { left. auto. }
  destruct HM as [(Hid & -> & -> & ->)|(Hid & HM)].
  { left. split; [reflexivity|]. split; [reflexivity|]. right.
    split; [exact Hp|]. split; [reflexivity|]. exists rv. split; [exact Hr|].
    unfold IsDefault. rewrite Hg. f_equal. apply bool_decide_eq_true_2. exact Hid. }
  right. split; [exact Hp|].
  destruct HM as (collected & edits & Hc & Hrep & -> & ->).
  exists rv, g, edits. split; [exact Hr|]. split.
  { unfold IsDefault. rewrite Hg. f_equal. apply bool_decide_eq_false_2. exact Hid. }
  split; [exact Hg|]. split; [reflexivity|]. split; [reflexivity|].
  destruct (reposition_frame _ _ _ _ _ _ _ Hrep) as (_ & _ & new & Hnew & Hids).
  cbn in Hnew. subst new. intros e He.
  destruct (Hids e He) as (q & Hq & Heq). exists q. split; [|exact Heq].
  apply elem_of_combined in Hq as [Hq|Hq]; [left; exact Hq|right].
  rewrite sorted_perm in Hq.
  rewrite collect_filter in Hc by (eapply collect_Some; exact Hc).
  injection Hc as <-. cbn in Hq. apply list_elem_of_filter in Hq. tauto.
Qed.

(** X8: [Move] changes positions and nothing else: the collection keeps
    its size, every role keeps its ID and its guild, and a role other
    than the moved one that is not a role of its guild lying in the
    range of the move (with another ID) is left exactly as it was. *)
Theorem Move_changes_positions_only st r position st' sub err :
  Move st r position = Return st' sub err ->
  length st' = length st /\
  (forall (q : ptr) v', st' !! q = Some v' ->
     exists v, st !! q = Some v /\ Role.ID v' = Role.ID v /\ Role.Guild v' = Role.Guild v) /\
  (forall rv g (q : ptr), st !! r = Some rv -> Role.Guild rv = Some g -> q ≠ r ->
     ~ (q ∈ Guild.Roles g /\
        inRange st (Role.ID rv) (moveMin position (Role.Position rv))
          (moveMax position (Role.Position rv)) q) ->
     st' !! q = st !! q).
Proof. intros HM. exact (Move_frame _ _ _ _ _ _ HM). Qed.

(** X9: [ContainsID] gives the same answer after a [Move] as before it,
    for every slice of roles and every ID. *)
Theorem Move_keeps_ContainsID st r position st' sub err :
  Move st r position = Return st' sub err ->
  forall (l : list ptr) (ID : string), ContainsID st' l ID = ContainsID st l ID.
Proof.
  intros HM l ID. destruct (Move_frame _ _ _ _ _ _ HM) as (Hlen & Hfields & _).
  apply ContainsID_ext; [exact Hlen|].
  intros q. unfold idOf. destruct (st' !! q) as [v'|] eqn:Hq'.
  - destruct (Hfields q v' Hq') as (v & -> & Hid & _). exact Hid.
  - apply lookup_ge_None in Hq'. rewrite Hlen in Hq'.
    apply lookup_ge_None in Hq'. rewrite Hq'. reflexivity.
Qed.

Lemma reposition_take l : forall (st : store) p hi edits,
  Forall (fun q => is_Some (st !! q)) l ->
  GoInt.MinInt64 <= p -> GoInt.MinInt64 <= hi <= GoInt.MaxInt64 - 2 ->
  reposition st p hi l edits
  = Some (assignFrom st p (take (Z.to_nat (hi + 2 - p)) l),
          edits ++ editsFrom st p (take (Z.to_nat (hi + 2 - p)) l)).
Proof.
  induction l as [|a l IH]; intros st p hi edits Hv Hp Hhi.
  - rewrite take_nil. cbn. rewrite app_nil_r. reflexivity.
  - apply Forall_cons in Hv as [[rv Ha] Hv]. cbn [reposition].
    rewrite (GoIntFacts.add_exact hi 1)
      by (unfold GoInt.MaxInt64, GoInt.MinInt64 in *; lia).
    destruct (Z.leb_spec p (hi + 1)) as [Hle|Hgt].
    + rewrite (GoIntFacts.add_exact p 1)
        by (unfold GoInt.MaxInt64, GoInt.MinInt64 in *; lia).
      replace (Z.to_nat (hi + 2 - p)) with (Datatypes.S (Z.to_nat (hi + 2 - (p + 1))))
        by lia.
      rewrite Ha, (insert_setPosition _ _ _ _ Ha).
      rewrite IH; [| |lia..].
      * cbn [take assignFrom Role.setPosition Role.ID Role.Position].
        rewrite editsFrom_alter, editsFrom_cons, <- app_assoc.
        unfold idOf. rewrite Ha. reflexivity.
      * eapply Forall_impl; [exact Hv|]. intros q. rewrite valid_alter. auto.
    + replace (Z.to_nat (hi + 2 - p)) with 0%nat by lia.
      cbn. rewrite app_nil_r. reflexivity.
Qed.

(** X10: whatever number of roles shares the range of the move, [Move]
    repositions the first [max - min + 2] roles of its list at most (the
    others of the range in ascending order, the moved role in front of
    them or behind them) and at least one; they get the positions that
    follow [min] one by one, and every role behind the cut is left
    where it was. *)
Theorem Move_repositions_a_prefix st r rv g position :
  0 < position < 2 ^ 53 ->
  Z.abs (Role.Position rv) < 2 ^ 53 ->
  st !! r = Some rv ->
  Role.Guild rv = Some g ->
  Role.ID rv ≠ Guild.ID g ->
  Forall (fun q => is_Some (st !! q)) (Guild.Roles g) ->
  let lo := Z.min position (Role.Position rv) in
  let hi := Z.max position (Role.Position rv) in
  let others := filter (inRange st (Role.ID rv) lo hi) (Guild.Roles g) in
  let l := combined position lo r (sortSort (Reverse (Less st)) others) in
  let done := take (Z.to_nat (hi - lo + 2)) l in
  exists st' edits,
    Move st r position
    = Return st' [(Guild.ID g, edits)] (GuildRoleReorder (Guild.ID g) edits) /\
    edits = editsFrom st lo done /\
    RoleMove.Position <$> edits
    = seqZ lo (Z.min (Z.of_nat (length others) + 1) (hi - lo + 2)) /\
    (forall q : ptr, q ∉ done -> st' !! q = st !! q).
Proof.
  intros Hpos Hcur Hr Hg Hid Hvalid lo hi others l done.
  exists (assignFrom st lo done), (editsFrom st lo done).
  split; [|split; [reflexivity|split]].
  - unfold Hierarchy.Move.
    destruct (Z.leb_spec position 0) as [?|_]; [lia|].
    rewrite Hr. unfold IsDefault. rewrite Hg.
    rewrite bool_decide_eq_false_2 by exact Hid.
    rewrite moveMin_exact, moveMax_exact by lia.
    rewrite collect_filter by exact Hvalid. cbn [app].
    fold lo hi others. fold (combined position lo r (sortSort (Reverse (Less st)) others)).
    fold l. rewrite reposition_take.
    + replace (hi + 2 - lo) with (hi - lo + 2) by lia. reflexivity.
    + apply Forall_forall. intros q [->|Hq]%elem_of_combined; [eexists; exact Hr|].
      rewrite sorted_perm in Hq. apply list_elem_of_filter in Hq as [_ Hq].
      rewrite Forall_forall in Hvalid. apply Hvalid. exact Hq.
    + unfold GoInt.MinInt64. lia.
    + unfold GoInt.MinInt64, GoInt.MaxInt64. lia.
  - rewrite editsFrom_positions. f_equal. unfold done.
    rewrite length_take. unfold l. rewrite length_combined, sorted_perm.
    fold others. unfold lo, hi. lia.
  - intros q Hq. apply assignFrom_notin. exact Hq.
Qed.

(** X11: moving a role to the position it has, when no other role of
    the guild has that position, leaves every role as it was; the
    remote is called all the same, with the one edit of the role, and
    its answer is returned. *)
Theorem Move_to_own_position st r rv g :
  0 < Role.Position rv < 2 ^ 53 ->
  st !! r = Some rv ->
  Role.Guild rv = Some g ->
  Role.ID rv ≠ Guild.ID g ->
  Forall (fun q => is_Some (st !! q)) (Guild.Roles g) ->
  (forall q : ptr, q ∈ Guild.Roles g -> idOf st q ≠ Role.ID rv ->
     positionOf st q ≠ Role.Position rv) ->
  Move st r (Role.Position rv)
  = Return st [(Guild.ID g, [RoleMove.mk (Role.ID rv) (Role.Position rv)])]
      (GuildRoleReorder (Guild.ID g) [RoleMove.mk (Role.ID rv) (Role.Position rv)]).
Proof.
  intros Hcur Hr Hg Hid Hvalid Halone.
  assert (Hothers : filter (inRange st (Role.ID rv)
                              (Z.min (Role.Position rv) (Role.Position rv))
                              (Z.max (Role.Position rv) (Role.Position rv)))
                      (Guild.Roles g) = []).
  { destruct (filter _ _) as [|q others] eqn:Hf; [reflexivity|exfalso].
    assert (Hq : q ∈ q :: others) by apply list_elem_of_here.
    rewrite <- Hf in Hq. apply list_elem_of_filter in Hq as [(Hne & Hle & Hge) Hq].
    apply (Halone q Hq Hne). lia. }
  rewrite (Move_reorders st r rv g (Role.Position rv)); [|lia|lia|assumption..|].
  2:{ cbv zeta. rewrite Hothers. cbn. lia. }
  cbv zeta. rewrite Hothers.
  assert (Hs : sortSort (Reverse (Less st)) [] = []).
  { apply Permutation_nil_r. apply sorted_perm. }
  rewrite Hs. unfold combined. rewrite Z.min_id, Z.eqb_refl.
  assert (Hst : assignFrom st (Role.Position rv) [r] = st).
  { cbn [assignFrom]. apply list_eq. intros k.
    destruct (decide (k = r)) as [->|Hne].
    - rewrite list_lookup_alter_eq, Hr. cbn. rewrite setPosition_id. reflexivity.
    - rewrite list_lookup_alter_ne by congruence. reflexivity. }
  rewrite Hst. unfold editsFrom, idOf. cbn. rewrite Hr. reflexivity.
Qed.

Section RoundTrip.
Variables (st : store) (r : ptr) (rv : Role.t) (g : Guild.t) (position : Z).
Hypothesis Hpos : 0 < position < 2 ^ 53.
Hypothesis Hcur : 0 < Role.Position rv < 2 ^ 53.
Hypothesis Hr : st !! r = Some rv.
Hypothesis Hg : Role.Guild rv = Some g.
Hypothesis Hid : Role.ID rv ≠ Guild.ID g.
Hypothesis Hvalid : Forall (fun q => is_Some (st !! q)) (Guild.Roles g).
Hypothesis Hnd : NoDup (Guild.Roles g).
Hypothesis Hrin : r ∈ Guild.Roles g.
Hypothesis Hids : forall q, q ∈ Guild.Roles g -> q ≠ r -> idOf st q ≠ Role.ID rv.

Let lo := Z.min position (Role.Position rv).
Let hi := Z.max position (Role.Position rv).

Hypothesis Hdense :
  positionOf st <$> filter (within st lo hi) (Guild.Roles g)
  ≡ₚ seqZ lo (hi - lo + 1).

Let others := filter (inRange st (Role.ID rv) lo hi) (Guild.Roles g).
Let S := sortSort (Reverse (Less st)) others.
Let st1 := assignFrom st lo (combined position lo r S).

Local Lemma pos_r : positionOf st r = Role.Position rv.
Proof. unfold positionOf. by rewrite Hr. Qed.

Local Lemma id_r : idOf st r = Role.ID rv.
Proof. unfold idOf. by rewrite Hr. Qed.

Local Lemma others_alt :
  others = filter (fun q => q ≠ r /\ within st lo hi q) (Guild.Roles g).
Proof.
  apply filter_ext_elem. intros q Hq. unfold inRange, within. split.
  - intros (Hne & ? & ?). split; [|lia]. intros ->. by rewrite id_r in Hne.
  - intros (Hne & ? & ?). split_and!; [by apply Hids|lia..].
Qed.

Local Lemma within_perm : filter (within st lo hi) (Guild.Roles g) ≡ₚ r :: S.
Proof.
  unfold S. rewrite sorted_perm, others_alt.
  apply filter_split_elem; [done..|].
  unfold within. rewrite pos_r. unfold lo, hi. lia.
Qed.

Local Lemma positions_perm :
  Role.Position rv :: (positionOf st <$> S) ≡ₚ seqZ lo (hi - lo + 1).
Proof.
  rewrite <- Hdense, within_perm, fmap_cons. by rewrite pos_r.
Qed.

Local Lemma S_length : Z.of_nat (length S) = hi - lo.
Proof.
  pose proof (Permutation_length positions_perm) as H.
  rewrite length_seqZ in H. cbn [length] in H. rewrite length_fmap in H.
  unfold lo, hi in *. lia.
Qed.

Local Lemma S_NoDup : NoDup S.
Proof.
  unfold S. rewrite sorted_perm. by apply NoDup_filter.
Qed.

Local Lemma r_notin_S : r ∉ S.
Proof. by apply moved_not_among_others. Qed.

Local Lemma S_positions x :
  x ∈ positionOf st <$> S -> lo <= x <= hi /\ x ≠ Role.Position rv.
Proof.
  intros Hx. split.
  - assert (x ∈ seqZ lo (hi - lo + 1)) as Hin.
    { rewrite <- positions_perm. by right. }
    apply elem_of_seqZ in Hin. lia.
  - intros ->. pose proof (NoDup_seqZ lo (hi - lo + 1)) as HN.
    rewrite <- positions_perm in HN. by apply NoDup_cons in HN as [].
Qed.

Local Lemma S_strict : StronglySorted Z.lt (positionOf st <$> S).
Proof.
  apply StronglySorted_le_NoDup_lt.
  - apply (StronglySorted_key_fmap (positionOf st) Z.le). apply sorted_sorted.
  - pose proof (NoDup_seqZ lo (hi - lo + 1)) as HN.
    rewrite <- positions_perm in HN. by apply NoDup_cons in HN as [].
Qed.

(** The roles of the range, lowest first, are the moved role put back
    at its own end of the sorted others. *)
Local Lemma original_positions :
  positionOf st <$> combined (Role.Position rv) lo r S = seqZ lo (hi - lo + 1).
Proof.
  assert (Hlen : Z.of_nat (length (positionOf st <$> combined (Role.Position rv) lo r S))
                 = hi - lo + 1).
  { rewrite length_fmap, length_combined. pose proof S_length. lia. }
  rewrite <- Hlen. apply strictly_sorted_interval.
  - unfold combined. destruct (Z.eqb_spec (Role.Position rv) lo) as [He|Hne].
    + rewrite fmap_cons, pos_r. constructor; [apply S_strict|].
      apply Forall_forall. intros x Hx. apply S_positions in Hx. lia.
    + rewrite fmap_app. apply StronglySorted_app. split_and!.
      * intros x y Hx Hy. cbn in Hy. apply list_elem_of_singleton in Hy as ->.
        rewrite pos_r. apply S_positions in Hx. unfold lo, hi in *. lia.
      * apply S_strict.
      * repeat constructor.
  - rewrite Hlen. intros x Hx.
    apply list_elem_of_fmap in Hx as (q & -> & [->|Hq]%elem_of_combined).
    + rewrite pos_r. unfold lo, hi. lia.
    + assert (positionOf st q ∈ positionOf st <$> S) as Hin
        by (by apply list_elem_of_fmap_2).
      apply S_positions in Hin. lia.
Qed.

Local Lemma combined_NoDup p : NoDup (combined p lo r S).
Proof.
  unfold combined. destruct (p =? lo).
  - apply NoDup_cons. split; [apply r_notin_S | apply S_NoDup].
  - apply NoDup_app. split_and!; [apply S_NoDup| |apply NoDup_singleton].
    intros x Hx ->%list_elem_of_singleton. by apply r_notin_S.
Qed.

Local Lemma others_bound : Z.of_nat (length others) <= hi - lo + 1.
Proof.
  pose proof S_length as H. unfold S in H. rewrite sorted_perm in H. lia.
Qed.

Local Lemma first_move :
  Move st r position
  = Return st1 [(Guild.ID g, editsFrom st lo (combined position lo r S))]
      (GuildRoleReorder (Guild.ID g) (editsFrom st lo (combined position lo r S))).
Proof.
  apply Move_reorders; [lia|lia|done..|apply others_bound].
Qed.

(** After the first move the [i]-th role of the list is at [lo + i]. *)
Local Lemma st1_lookup i q v :
  combined position lo r S !! i = Some q -> st !! q = Some v ->
  st1 !! q = Some (Role.setPosition (lo + Z.of_nat i) v).
Proof.
  intros Hi Hq. unfold st1. eapply assignFrom_lookup; eauto using combined_NoDup.
Qed.

Local Lemma st1_r : st1 !! r = Some (Role.setPosition position rv).
Proof.
  destruct (Z.eqb_spec position lo) as [He|Hne].
  - rewrite (st1_lookup 0 r rv); [| |done].
    + f_equal. f_equal. lia.
    + unfold combined. by rewrite (proj2 (Z.eqb_eq _ _) He).
  - rewrite (st1_lookup (length S) r rv); [| |done].
    + f_equal. f_equal. pose proof S_length. unfold lo, hi in *. lia.
    + unfold combined. destruct (Z.eqb_spec position lo); [done|].
      rewrite lookup_app_r by lia. by rewrite Nat.sub_diag.
Qed.

Local Lemma S_roles q : q ∈ S -> q ∈ Guild.Roles g /\ inRange st (Role.ID rv) lo hi q.
Proof.
  unfold S. rewrite sorted_perm. intros Hq.
  apply list_elem_of_filter in Hq. tauto.
Qed.

(** Where the others sit after the first move. *)
Local Lemma st1_pos_S i q :
  S !! i = Some q ->
  positionOf st1 q
  = lo + (if position =? lo then 1 else 0) + Z.of_nat i.
Proof.
  intros Hi.
  assert (is_Some (st !! q)) as [v Hv].
  { rewrite Forall_forall in Hvalid. apply Hvalid.
    eapply S_roles, list_elem_of_lookup_2, Hi. }
  unfold positionOf at 1.
  destruct (Z.eqb_spec position lo) as [He|Hne].
  - rewrite (st1_lookup (Datatypes.S i) q v); [cbn; lia| |done].
    unfold combined. by rewrite (proj2 (Z.eqb_eq _ _) He).
  - rewrite (st1_lookup i q v); [cbn; lia| |done].
    unfold combined. destruct (Z.eqb_spec position lo); [done|].
    rewrite lookup_app_l; [done|]. by eapply lookup_lt_Some.
Qed.

Local Lemma st1_other q : q ≠ r -> q ∉ S -> st1 !! q = st !! q.
Proof.
  intros Hne Hq. unfold st1. apply assignFrom_notin.
  rewrite elem_of_combined. tauto.
Qed.

Local Lemma others_after :
  filter (inRange st1 (Role.ID rv) lo hi) (Guild.Roles g) = others.
Proof.
  apply filter_ext_elem. intros q Hq. unfold inRange.
  unfold st1 at 1. rewrite idOf_assignFrom.
  destruct (decide (idOf st q = Role.ID rv)) as [He|Hne]; [tauto|].
  assert (q ≠ r) as Hqr by (intros ->; by rewrite id_r in Hne).
  destruct (decide (q ∈ S)) as [HS|HS].
  - destruct (S_roles q HS) as (_ & _ & ? & ?).
    apply list_elem_of_lookup in HS as [i Hi].
    rewrite (st1_pos_S i q Hi).
    pose proof (lookup_lt_Some _ _ _ Hi). pose proof S_length.
    destruct (Z.eqb_spec position lo); split; intros _; split_and!;
      try done; unfold lo, hi in *; lia.
  - unfold positionOf. by rewrite st1_other.
Qed.

Local Lemma offset_sorted (key : ptr -> Z) (l : list ptr) : forall c,
  (forall i q, l !! i = Some q -> key q = c + Z.of_nat i) ->
  StronglySorted (fun a b => key a < key b) l.
Proof.
  induction l as [|x l IH]; intros c Hk; constructor.
  - apply (IH (c + 1)). intros i q Hi.
    rewrite (Hk (Datatypes.S i) q Hi). lia.
  - apply Forall_forall. intros y Hy.
    apply list_elem_of_lookup in Hy as [i Hi].
    rewrite (Hk 0%nat x eq_refl), (Hk (Datatypes.S i) y Hi). lia.
Qed.

Local Lemma sorted_after : sortSort (Reverse (Less st1)) others = S.
Proof.
  eapply (sort_unique sortSort (positionOf st1));
    [done | apply Reverse_Less | |].
  - unfold S. by rewrite sorted_perm.
  - eapply offset_sorted. intros i q Hi. apply (st1_pos_S i q Hi).
Qed.

Local Lemma second_move :
  Move st1 r (Role.Position rv)
  = Return (assignFrom st1 lo (combined (Role.Position rv) lo r S))
      [(Guild.ID g, editsFrom st1 lo (combined (Role.Position rv) lo r S))]
      (GuildRoleReorder (Guild.ID g)
         (editsFrom st1 lo (combined (Role.Position rv) lo r S))).
Proof.
  pose proof (Move_reorders st1 r (Role.setPosition position rv) g
                (Role.Position rv)) as HM.
  cbn [Role.setPosition Role.Position Role.ID Role.Guild] in HM.
  rewrite (Z.min_comm (Role.Position rv) position) in HM.
  rewrite (Z.max_comm (Role.Position rv) position) in HM.
  fold lo hi in HM. rewrite others_after, sorted_after in HM.
  apply HM; [lia|lia|apply st1_r|done|done| |apply others_bound].
  eapply Forall_impl; [exact Hvalid|]. intros q.
  rewrite !lookup_lt_is_Some. unfold st1. by rewrite assignFrom_length.
Qed.

(** The second move writes every role of the range back. *)
Local Lemma restored :
  assignFrom st1 lo (combined (Role.Position rv) lo r S) = st.
Proof.
  apply list_eq. intros k.
  destruct (decide (k ∈ combined (Role.Position rv) lo r S)) as [Hk|Hk].
  - pose proof Hk as Hk'.
    apply list_elem_of_lookup in Hk as [i Hi].
    rewrite elem_of_combined, <- (elem_of_combined position lo) in Hk'.
    apply list_elem_of_lookup in Hk' as [j Hj].
    assert (is_Some (st !! k)) as [v Hv].
    { apply list_elem_of_lookup_2, elem_of_combined in Hi as [->|Hi];
        [by eexists|].
      rewrite Forall_forall in Hvalid. by apply Hvalid, S_roles. }
    erewrite assignFrom_lookup;
      [|apply combined_NoDup|exact Hi|by apply (st1_lookup j k v)].
    rewrite setPosition_setPosition, Hv. f_equal.
    assert (positionOf st k = lo + Z.of_nat i) as Hp.
    { pose proof original_positions as Ho.
      apply (f_equal (fun l => l !! i)) in Ho.
      rewrite list_lookup_fmap, Hi in Ho. cbn in Ho.
      symmetry in Ho. apply lookup_seqZ in Ho. lia. }
    unfold positionOf in Hp. rewrite Hv in Hp. rewrite <- Hp.
    apply setPosition_id.
  - rewrite assignFrom_notin by done.
    rewrite elem_of_combined in Hk. apply st1_other; tauto.
Qed.

(** C10 (as amended): for a non-default entity [r] of the collection
    at a position [P] above zero and a target [T] above zero, when the
    entities of the collection are distinct, no other carries the ID
    of [r], and every position between [P] and [T] is held by exactly
    one of them, moving [r] to [T] and then back to [P] submits one
    batch each time and leaves every entity at the position it had
    before the first move. *)
Theorem move_there_and_back :
  exists st' edits edits',
    Move st r position
    = Return st' [(Guild.ID g, edits)] (GuildRoleReorder (Guild.ID g) edits) /\
    positionOf st' r = position /\
    Move st' r (Role.Position rv)
    = Return st [(Guild.ID g, edits')] (GuildRoleReorder (Guild.ID g) edits').
Proof.
  eexists st1, _, _. split_and!.
  - apply first_move.
  - unfold positionOf. by rewrite st1_r.
  - rewrite second_move, restored. reflexivity.
Qed.


(** *** The move itself, in a range occupied once per position *)

Local Lemma st1_positions :
  positionOf st1 <$> combined position lo r S = seqZ lo (hi - lo + 1).
Proof.
  pose proof S_length as HS.
  apply list_eq. intros i. rewrite list_lookup_fmap.
  destruct (combined position lo r S !! i) as [q|] eqn:Hi; cbn.
  - assert (is_Some (st !! q)) as [v Hv].
    { apply list_elem_of_lookup_2, elem_of_combined in Hi as [->|Hi];
        [eexists; exact Hr|].
      rewrite Forall_forall in Hvalid. apply Hvalid, S_roles, Hi. }
    unfold positionOf. rewrite (st1_lookup i q v Hi Hv). cbn.
    apply lookup_lt_Some in Hi. rewrite length_combined in Hi.
    symmetry. apply lookup_seqZ_lt. lia.
  - apply lookup_ge_None in Hi. rewrite length_combined in Hi.
    symmetry. apply lookup_seqZ_ge. lia.
Qed.

Local Lemma within_after :
  filter (within st1 lo hi) (Guild.Roles g) = filter (within st lo hi) (Guild.Roles g).
Proof.
  apply filter_ext_elem. intros q Hq. unfold within.
  destruct (decide (q = r)) as [->|Hne].
  - rewrite pos_r. unfold positionOf. rewrite st1_r. cbn. unfold lo, hi. lia.
  - destruct (decide (q ∈ S)) as [HS|HS].
    + destruct (S_roles q HS) as (_ & _ & ? & ?).
      apply list_elem_of_lookup in HS as [i Hi].
      rewrite (st1_pos_S i q Hi).
      pose proof (lookup_lt_Some _ _ _ Hi). pose proof S_length.
      destruct (Z.eqb_spec position lo); split; intros _; split;
        try assumption; unfold lo, hi in *; lia.
    + unfold positionOf. rewrite st1_other by assumption. reflexivity.
Qed.

Local Lemma dense_after :
  positionOf st1 <$> filter (within st lo hi) (Guild.Roles g) ≡ₚ seqZ lo (hi - lo + 1).
Proof.
  rewrite within_perm, <- st1_positions. apply fmap_Permutation.
  unfold combined. destruct (position =? lo); [reflexivity|].
  apply Permutation_cons_append.
Qed.

(** X12: in a range where every position from [min] to [max] is taken
    by exactly one role of the guild, [Move] puts the role at the
    target and shifts every other role of the range by one position
    towards the place the role left; roles outside the range are not
    touched.  The range is again taken once per position afterwards,
    and the positions of the roles of the guild are the same
    collection of numbers as before. *)
Theorem move_shifts_the_range_by_one :
  exists st' edits,
    Move st r position
    = Return st' [(Guild.ID g, edits)] (GuildRoleReorder (Guild.ID g) edits) /\
    positionOf st' r = position /\
    (forall q : ptr, q ∈ Guild.Roles g -> q ≠ r -> within st lo hi q ->
       positionOf st' q
       = positionOf st q + (if position <? Role.Position rv then 1 else -1)) /\
    (forall q : ptr, q ≠ r -> ~ (q ∈ Guild.Roles g /\ within st lo hi q) ->
       st' !! q = st !! q) /\
    positionOf st' <$> filter (within st' lo hi) (Guild.Roles g)
      ≡ₚ seqZ lo (hi - lo + 1) /\
    positionOf st' <$> Guild.Roles g ≡ₚ positionOf st <$> Guild.Roles g.
Proof.
  exists st1, (editsFrom st lo (combined position lo r S)).
  split; [apply first_move|]. split; [|split; [|split; [|split]]].
  - unfold positionOf. rewrite st1_r. reflexivity.
  - intros q Hq Hqr Hw.
    assert (HqS : q ∈ S).
    { unfold S. rewrite sorted_perm, others_alt. apply list_elem_of_filter. auto. }
    apply list_elem_of_lookup in HqS as [i Hi]. rewrite (st1_pos_S i q Hi).
    pose proof (lookup_lt_Some _ _ _ Hi) as Hlt. pose proof S_length as HS.
    assert (Hp : positionOf st q
                 = lo + (if Role.Position rv =? lo then 1 else 0) + Z.of_nat i).
    { pose proof original_positions as Ho. unfold combined in Ho.
      destruct (Z.eqb_spec (Role.Position rv) lo) as [He|Hne].
      - apply (f_equal (fun l => l !! Datatypes.S i)) in Ho.
        rewrite list_lookup_fmap in Ho.
        change ((r :: S) !! Datatypes.S i) with (S !! i) in Ho.
        rewrite Hi in Ho. cbn in Ho.
        symmetry in Ho. apply lookup_seqZ in Ho. lia.
      - apply (f_equal (fun l => l !! i)) in Ho.
        rewrite list_lookup_fmap, lookup_app_l, Hi in Ho by exact Hlt. cbn in Ho.
        symmetry in Ho. apply lookup_seqZ in Ho. lia. }
    rewrite Hp.
    destruct (Z.eqb_spec position lo), (Z.eqb_spec (Role.Position rv) lo),
      (Z.ltb_spec position (Role.Position rv)); unfold lo, hi in *; lia.
  - intros q Hqr Hout. apply st1_other; [exact Hqr|].
    intros HS. apply S_roles in HS as (Hin & _ & Hle & Hge).
    apply Hout. split; [exact Hin|]. unfold within. lia.
  - rewrite within_after. apply dense_after.
  - transitivity (positionOf st1 <$>
                    (filter (within st lo hi) (Guild.Roles g)
                     ++ filter (fun q => ~ within st lo hi q) (Guild.Roles g))).
    { apply fmap_Permutation. symmetry. apply filter_app_complement. }
    transitivity (positionOf st <$>
                    (filter (within st lo hi) (Guild.Roles g)
                     ++ filter (fun q => ~ within st lo hi q) (Guild.Roles g))).
    2:{ apply fmap_Permutation. apply filter_app_complement. }
    rewrite !fmap_app. apply Permutation_app.
    + rewrite dense_after. symmetry. exact Hdense.
    + apply eq_subrelation; [apply _|].
      apply list_fmap_ext. intros i q Hi.
      apply list_elem_of_lookup_2, list_elem_of_filter in Hi as [Hout Hq].
      unfold positionOf. rewrite st1_other; [reflexivity| |].
      * intros ->. apply Hout. unfold within. rewrite pos_r. unfold lo, hi. lia.
      * intros HS. apply S_roles in HS as (_ & _ & Hle & Hge).
        apply Hout. unfold within. lia.
Qed.

End RoundTrip.

End MoveFacts.

(** *** The theorems at sample collections *)

Lemma roles5_valid : Forall (fun q => is_Some (roles5 !! q)) (Guild.Roles guild5).
Proof.
  apply Forall_forall. intros q Hq. apply lookup_lt_is_Some.
  apply list_elem_of_In in Hq. cbn in Hq. cbn. lia.
Defined.

(** The default entity with target 0, its own position: [Move] reports
    the position-bounds error, not the unmovable-default one. *)
Lemma move_default_to_zero_is_bounds_error :
  Move insertionSort reorderOk roles5 0%nat 0
  = Return roles5 [] (Some ErrRolePositionBounds) /\
  Move insertionSort reorderOk roles5 0%nat 0
  <> Return roles5 [] (Some ErrUnmovableDefaultRole).
Proof. split; [reflexivity | discriminate]. Qed.

Lemma move_default_rejected_witness :
  roles5 !! 0%nat = Some (Role.mk "g" 0 (Some guild5)) /\
  Move insertionSort reorderOk roles5 0%nat 3
  = Return roles5 [] (Some ErrUnmovableDefaultRole).
Proof.
  split; [reflexivity|].
  exact (move_default_rejected insertionSort reorderOk roles5 0%nat
           (Role.mk "g" 0 (Some guild5)) guild5 3 eq_refl eq_refl eq_refl).
Defined.

(** Moving a non-default entity from position 0 to 1 while the default
    entity shares position 0: the default entity is moved to 1 and an
    edit naming it is submitted. *)
Lemma move_repositions_default_in_range :
  Move insertionSort reorderOk roles000 2%nat 1
  = Return
      [Role.mk "x" 0 (Some guild000); Role.mk "g" 1 (Some guild000);
       Role.mk "r" 2 (Some guild000)]
      [("g", [RoleMove.mk "x" 0; RoleMove.mk "g" 1; RoleMove.mk "r" 2])]
      None /\
  positionOf roles000 1%nat = 0 /\
  Guild.ID guild000 = "g".
Proof. split_and!; reflexivity. Qed.

Lemma move_spares_default_witness :
  (forall d dv, roles5 !! d = Some dv -> Role.ID dv = Guild.ID guild5 ->
     [Role.mk "g" 0 (Some guild5); Role.mk "a" 1 (Some guild5);
      Role.mk "b" 4 (Some guild5); Role.mk "c" 2 (Some guild5);
      Role.mk "d" 3 (Some guild5)] !! d = Some dv) /\
  (forall gid edits e,
     (gid, edits)
     ∈ [("g", [RoleMove.mk "c" 2; RoleMove.mk "d" 3; RoleMove.mk "b" 4])] ->
     e ∈ edits -> RoleMove.ID e ≠ Guild.ID guild5).
Proof.
  apply (move_spares_default_outside_range insertionSort reorderOk
           insertionSort_contract roles5 2%nat (Role.mk "b" 2 (Some guild5))
           guild5 4 _ _ None).
  - reflexivity.
  - reflexivity.
  - intros d dv Hd Hdv Hid. left.
    change (moveMin 4 (Role.Position (Role.mk "b" 2 (Some guild5)))) with 2.
    destruct d as [|[|[|[|[|d]]]]]; cbn in Hdv; try discriminate;
      injection Hdv as <-; cbn in Hid; try discriminate. cbn. lia.
  - reflexivity.
Defined.

(** Four entities share position 1; moving one of them to 2 submits
    edits for the three others only and leaves the moved entity at 1. *)
Lemma move_crowded_range_skips_moved_entity :
  Move insertionSort reorderOk roles1111 1%nat 2
  = Return
      [Role.mk "g" 0 (Some guild1111); Role.mk "a" 1 (Some guild1111);
       Role.mk "b" 1 (Some guild1111); Role.mk "c" 2 (Some guild1111);
       Role.mk "d" 3 (Some guild1111)]
      [("g", [RoleMove.mk "b" 1; RoleMove.mk "c" 2; RoleMove.mk "d" 3])]
      None /\
  idOf roles1111 1%nat = "a".
Proof. split; reflexivity. Qed.

Lemma move_assigns_contiguous_positions_witness :
  exists st' edits,
    Move insertionSort reorderOk roles5 2%nat 4
    = Return st' [("g", edits)] (reorderOk "g" edits) /\
    RoleMove.Position <$> edits = seqZ 2 3 /\
    Forall (fun e => 2 <= RoleMove.Position e <= 5) edits /\
    edits !! 2%nat = Some (RoleMove.mk "b" 4) /\
    st' !! 2%nat = Some (Role.mk "b" 4 (Some guild5)) /\
    (2 = 4 - 2 -> 4 = 4).
Proof.
  apply (move_assigns_contiguous_positions insertionSort reorderOk
           insertionSort_contract roles5 2%nat (Role.mk "b" 2 (Some guild5))
           guild5 4).
  - lia.
  - cbn. lia.
  - reflexivity.
  - reflexivity.
  - discriminate.
  - exact roles5_valid.
  - vm_compute. discriminate.
Defined.

(** The edits of the sample move are not the ones with the two
    collected entities in descending order. *)
Lemma move_2_to_4_not_descending :
  submitted (Move insertionSort reorderOk roles5 2%nat 4)
  <> [("g", [RoleMove.mk "d" 2; RoleMove.mk "c" 3; RoleMove.mk "b" 4])].
Proof. discriminate. Qed.

Lemma move_2_to_4_edits_witness :
  Move insertionSort reorderOk roles5 2%nat 4
  = Return
      [Role.mk "g" 0 (Some guild5); Role.mk "a" 1 (Some guild5);
       Role.mk "b" 4 (Some guild5); Role.mk "c" 2 (Some guild5);
       Role.mk "d" 3 (Some guild5)]
      [("g", [RoleMove.mk "c" 2; RoleMove.mk "d" 3; RoleMove.mk "b" 4])]
      (reorderOk "g" [RoleMove.mk "c" 2; RoleMove.mk "d" 3; RoleMove.mk "b" 4]).
Proof.
  exact (move_2_to_4_edits insertionSort reorderOk insertionSort_contract).
Defined.

(** With a gap between positions 1 and 3, moving the entity at 1 to 3
    and back to 1 leaves the other entity at 2 instead of 3. *)
Lemma move_there_and_back_closes_gap :
  Move insertionSort reorderOk roles13 1%nat 3
  = Return
      [Role.mk "g" 0 (Some guild13); Role.mk "a" 2 (Some guild13);
       Role.mk "b" 1 (Some guild13)]
      [("g", [RoleMove.mk "b" 1; RoleMove.mk "a" 2])] None /\
  Move insertionSort reorderOk
    [Role.mk "g" 0 (Some guild13); Role.mk "a" 2 (Some guild13);
     Role.mk "b" 1 (Some guild13)] 1%nat 1
  = Return
      [Role.mk "g" 0 (Some guild13); Role.mk "a" 1 (Some guild13);
       Role.mk "b" 2 (Some guild13)]
      [("g", [RoleMove.mk "a" 1; RoleMove.mk "b" 2])] None /\
  positionOf roles13 2%nat = 3.
Proof. split_and!; reflexivity. Qed.

Lemma move_there_and_back_witness :
  exists st' edits edits',
    Move insertionSort reorderOk roles5 2%nat 4
    = Return st' [("g", edits)] (reorderOk "g" edits) /\
    positionOf st' 2%nat = 4 /\
    Move insertionSort reorderOk st' 2%nat 2
    = Return roles5 [("g", edits')] (reorderOk "g" edits').
Proof.
  apply (move_there_and_back insertionSort reorderOk insertionSort_contract
           roles5 2%nat (Role.mk "b" 2 (Some guild5)) guild5 4).
  - lia.
  - cbn. lia.
  - reflexivity.
  - reflexivity.
  - discriminate.
  - exact roles5_valid.
  - apply (bool_decide_unpack _). vm_compute. exact I.
  - apply (bool_decide_unpack _). vm_compute. exact I.
  - intros q Hq Hne. apply list_elem_of_In in Hq. cbn in Hq.
    destruct Hq as [<-|[<-|[<-|[<-|[<-|[]]]]]]; cbn; try discriminate.
    by destruct Hne.
  - vm_compute. reflexivity.
Defined.


(** *** The general behaviour of [Move] on the sample collections *)

Lemma Move_roles5_b4 :
  Move insertionSort reorderOk roles5 2%nat 4 = Return roles5_b4 [("g", edits_b4)] None.
Proof. vm_compute. reflexivity. Qed.

Lemma Move_rejects_or_submits_once_witness :
  (roles5_b4 = roles5 /\ [("g", edits_b4)] = [] /\
   (4 <= 0 /\ None = Some ErrRolePositionBounds \/
    0 < 4 /\ None = Some ErrUnmovableDefaultRole /\
    exists rv, roles5 !! 2%nat = Some rv /\ IsDefault rv = Some true)) \/
  (0 < 4 /\
   exists rv g edits,
     roles5 !! 2%nat = Some rv /\ IsDefault rv = Some false /\ Role.Guild rv = Some g /\
     [("g", edits_b4)] = [(Guild.ID g, edits)] /\
     None = reorderOk (Guild.ID g) edits /\
     forall e, e ∈ edits ->
       exists q : ptr, (q = 2%nat \/ q ∈ Guild.Roles g) /\ RoleMove.ID e = idOf roles5 q).
Proof.
  apply (Move_rejects_or_submits_once insertionSort reorderOk insertionSort_contract
           roles5 2%nat 4 roles5_b4 [("g", edits_b4)] None).
  vm_compute. reflexivity.
Defined.

Lemma Move_changes_positions_only_witness :
  length roles5_b4 = length roles5 /\
  (forall (q : ptr) v', roles5_b4 !! q = Some v' ->
     exists v, roles5 !! q = Some v /\ Role.ID v' = Role.ID v /\
       Role.Guild v' = Role.Guild v) /\
  (forall rv g (q : ptr), roles5 !! 2%nat = Some rv -> Role.Guild rv = Some g ->
     q ≠ 2%nat ->
     ~ (q ∈ Guild.Roles g /\
        inRange roles5 (Role.ID rv) (moveMin 4 (Role.Position rv))
          (moveMax 4 (Role.Position rv)) q) ->
     roles5_b4 !! q = roles5 !! q).
Proof.
  apply (Move_changes_positions_only insertionSort reorderOk insertionSort_contract
           roles5 2%nat 4 roles5_b4 [("g", edits_b4)] None).
  vm_compute. reflexivity.
Defined.

Lemma Move_keeps_ContainsID_witness :
  ContainsID roles5_b4 [0; 1; 2; 3; 4]%nat "c" = ContainsID roles5 [0; 1; 2; 3; 4]%nat "c".
Proof.
  apply (Move_keeps_ContainsID insertionSort reorderOk insertionSort_contract
           roles5 2%nat 4 roles5_b4 [("g", edits_b4)] None).
  vm_compute. reflexivity.
Defined.

Lemma Move_repositions_a_prefix_witness :
  exists st' edits,
    Move insertionSort reorderOk roles1111 1%nat 2
    = Return st' [("g", edits)] (reorderOk "g" edits) /\
    edits = [RoleMove.mk "b" 1; RoleMove.mk "c" 2; RoleMove.mk "d" 3] /\
    RoleMove.Position <$> edits = seqZ 1 3 /\
    (forall q : ptr, q ∉ [2; 3; 4]%nat -> st' !! q = roles1111 !! q).
Proof.
  apply (Move_repositions_a_prefix insertionSort reorderOk insertionSort_contract
           roles1111 1%nat (Role.mk "a" 1 (Some guild1111)) guild1111 2).
  - lia.
  - cbn. lia.
  - reflexivity.
  - reflexivity.
  - discriminate.
  - apply Forall_forall. intros q Hq. apply lookup_lt_is_Some.
    apply list_elem_of_In in Hq. cbn in Hq. cbn. lia.
Defined.

Lemma Move_to_own_position_witness :
  Move insertionSort reorderOk roles5 2%nat 2
  = Return roles5 [("g", [RoleMove.mk "b" 2])] (reorderOk "g" [RoleMove.mk "b" 2]).
Proof.
  apply (Move_to_own_position insertionSort reorderOk insertionSort_contract
           roles5 2%nat (Role.mk "b" 2 (Some guild5)) guild5).
  - cbn. lia.
  - reflexivity.
  - reflexivity.
  - discriminate.
  - exact roles5_valid.
  - intros q Hq Hne. apply list_elem_of_In in Hq. cbn in Hq.
    destruct Hq as [<-|[<-|[<-|[<-|[<-|[]]]]]]; cbn; try discriminate.
    destruct Hne. reflexivity.
Defined.

Lemma move_shifts_the_range_by_one_witness :
  exists st' edits,
    Move insertionSort reorderOk roles5 2%nat 4
    = Return st' [("g", edits)] (reorderOk "g" edits) /\
    positionOf st' 2%nat = 4 /\
    (forall q : ptr, q ∈ Guild.Roles guild5 -> q ≠ 2%nat -> within roles5 2 4 q ->
       positionOf st' q = positionOf roles5 q + -1) /\
    (forall q : ptr, q ≠ 2%nat -> ~ (q ∈ Guild.Roles guild5 /\ within roles5 2 4 q) ->
       st' !! q = roles5 !! q) /\
    positionOf st' <$> filter (within st' 2 4) (Guild.Roles guild5) ≡ₚ seqZ 2 3 /\
    positionOf st' <$> Guild.Roles guild5 ≡ₚ positionOf roles5 <$> Guild.Roles guild5.
Proof.
  apply (move_shifts_the_range_by_one insertionSort reorderOk insertionSort_contract
           roles5 2%nat (Role.mk "b" 2 (Some guild5)) guild5 4).
  - lia.
  - cbn. lia.
  - reflexivity.
  - reflexivity.
  - discriminate.
  - exact roles5_valid.
  - apply (bool_decide_unpack _). vm_compute. exact I.
  - apply (bool_decide_unpack _). vm_compute. exact I.
  - intros q Hq Hne. apply list_elem_of_In in Hq. cbn in Hq.
    destruct Hq as [<-|[<-|[<-|[<-|[<-|[]]]]]]; cbn; try discriminate.
    destruct Hne. reflexivity.
  - vm_compute. reflexivity.
Defined.

(** ** The other functions of roles.go *)

Lemma gtb_lt (a b : Z) : (a >? b) = true <-> b < a.
Proof. rewrite Z.gtb_ltb. apply Z.ltb_lt. Qed.

Lemma gtb_ge (a b : Z) : (a >? b) = false <-> a <= b.
Proof. rewrite Z.gtb_ltb. apply Z.ltb_ge. Qed.

(** X1: [Roles.Less] is a strict weak order on the roles: it is
    irreflexive, asymmetric and transitive, and so is being unordered
    (roles of equal position are unordered, whatever their IDs); under
    [sort.Reverse] it orders by ascending position. *)
Theorem Less_strict_weak_order (st : store) :
  (forall a : ptr, Less st a a = false) /\
  (forall a b : ptr, Less st a b = true -> Less st b a = false) /\
  (forall a b c : ptr, Less st a b = true -> Less st b c = true -> Less st a c = true) /\
  (forall a b c : ptr, Less st a b = false -> Less st b c = false -> Less st a c = false) /\
  (forall a b : ptr,
     Less st a b = false /\ Less st b a = false <-> positionOf st a = positionOf st b) /\
  (forall a b : ptr, Reverse (Less st) a b = true <-> positionOf st a < positionOf st b).
Proof.
  unfold Reverse, Less. repeat split.
  - intros a. apply gtb_ge. lia.
  - intros a b H. apply gtb_lt in H. apply gtb_ge. lia.
  - intros a b c H1 H2. apply gtb_lt in H1, H2. apply gtb_lt. lia.
  - intros a b c H1 H2. apply gtb_ge in H1, H2. apply gtb_ge. lia.
  - intros [H1 H2]. apply gtb_ge in H1, H2. lia.
  - apply gtb_ge. lia.
  - apply gtb_ge. lia.
  - apply gtb_lt.
  - apply gtb_lt.
Qed.

(** X2: [Roles.Swap] succeeds exactly when both indices are in range;
    it then exchanges the two entries and nothing else, keeps [Len] and
    the roles of the slice, turns [Less(i, j)] into what [Less(j, i)]
    was, and is undone by a second call. *)
Theorem Swap_exchanges (st : store) (r : list ptr) (i j : nat) :
  (is_Some (Swap r i j) <-> (i < Len r)%nat /\ (j < Len r)%nat) /\
  (forall r', Swap r i j = Some r' ->
     r' !! i = r !! j /\ r' !! j = r !! i /\
     (forall k, k <> i -> k <> j -> r' !! k = r !! k) /\
     Len r' = Len r /\ r' ≡ₚ r /\
     LessAt st r' i j = LessAt st r j i /\
     Swap r' i j = Some r).
Proof.
  unfold Swap, Len. split.
  - rewrite <- !lookup_lt_is_Some.
    destruct (r !! i) as [a|], (r !! j) as [b|]; cbn.
    + split; eauto.
    + split; [intros [? ?]; discriminate | intros [_ [? ?]]; discriminate].
    + split; [intros [? ?]; discriminate | intros [[? ?] _]; discriminate].
    + split; [intros [? ?]; discriminate | intros [[? ?] _]; discriminate].
  - intros r' H.
    destruct (r !! i) as [a|] eqn:Hi; [|discriminate].
    destruct (r !! j) as [b|] eqn:Hj; [|discriminate].
    cbn in H. injection H as <-.
    pose proof (lookup_lt_Some _ _ _ Hi) as Hli.
    pose proof (lookup_lt_Some _ _ _ Hj) as Hlj.
    assert (Hi' : <[j:=a]> (<[i:=b]> r) !! i = Some b).
    { destruct (decide (j = i)) as [->|Hne].
      - rewrite list_lookup_insert_eq by (rewrite length_insert; lia). congruence.
      - rewrite list_lookup_insert_ne by done. apply list_lookup_insert_eq. lia. }
    assert (Hj' : <[j:=a]> (<[i:=b]> r) !! j = Some a).
    { apply list_lookup_insert_eq. rewrite length_insert. lia. }
    repeat split.
    + exact Hi'.
    + exact Hj'.
    + intros k Hki Hkj. rewrite !list_lookup_insert_ne by done. reflexivity.
    + rewrite !length_insert. reflexivity.
    + apply Permutation_insert_swap; assumption.
    + unfold LessAt. rewrite Hi', Hj', Hi, Hj. reflexivity.
    + rewrite Hi', Hj'. cbn. f_equal.
      apply list_eq. intros k.
      destruct (decide (j = k)) as [<-|Hjk].
      * rewrite list_lookup_insert_eq by (rewrite !length_insert; lia). done.
      * rewrite list_lookup_insert_ne by done.
        destruct (decide (i = k)) as [<-|Hik].
        -- rewrite list_lookup_insert_eq by (rewrite !length_insert; lia). done.
        -- rewrite !list_lookup_insert_ne by done. reflexivity.
Qed.

(** X3: of two roles exactly one of three holds: the first is lower
    than the second, higher than it, or they share their position; and
    [LowerThan] is [HigherThan] with the roles exchanged. *)
Theorem LowerThan_HigherThan_trichotomy (r other : Role.t) :
  LowerThan r other = HigherThan other r /\
  (LowerThan r other = true -> HigherThan r other = false) /\
  (HigherThan r other = true -> LowerThan r other = false) /\
  (LowerThan r other = false /\ HigherThan r other = false
     <-> Role.Position r = Role.Position other).
Proof.
  unfold LowerThan, HigherThan. rewrite !Z.gtb_ltb. repeat split.
  - intros H. apply Z.ltb_lt in H. apply Z.ltb_ge. lia.
  - intros H. apply Z.ltb_lt in H. apply Z.ltb_ge. lia.
  - intros [H1 H2]. apply Z.ltb_ge in H1, H2. lia.
  - apply Z.ltb_ge. lia.
  - apply Z.ltb_ge. lia.
Qed.


(** X4: [Roles.ContainsID] answers whether some role of the slice
    carries the ID; it stops at the first such role, so that a nil
    entry behind it is never read, while a nil entry met before any
    role with the ID panics. *)
Theorem ContainsID_finds_first (st : store) (ID : string) :
  (forall r : list ptr,
     Forall (fun a : ptr => is_Some (st !! a)) r ->
     ContainsID st r ID = Some (bool_decide (ID ∈ idOf st <$> r))) /\
  (forall (l1 l2 : list ptr),
     ContainsID st l1 ID = Some true -> ContainsID st (l1 ++ l2) ID = Some true) /\
  (forall (l1 l2 : list ptr) (a : ptr),
     Forall (fun a : ptr => is_Some (st !! a)) l1 ->
     ID ∉ idOf st <$> l1 -> st !! a = None ->
     ContainsID st (l1 ++ a :: l2) ID = None).
Proof.
  split; [|split].
  - intros r. apply ContainsID_valid.
  - intros l1 l2. induction l1 as [|a l1 IH]; cbn; [discriminate|].
    destruct (st !! a) as [rv|]; [|discriminate].
    case_bool_decide; [reflexivity | exact IH].
  - intros l1 l2 a Hv. induction Hv as [|b l1 [rv Hb] _ IH]; cbn; intros Hno Ha.
    + rewrite Ha. reflexivity.
    + rewrite Hb. rewrite not_elem_of_cons in Hno. destruct Hno as [Hne Hno].
      unfold idOf in Hne. rewrite Hb in Hne.
      rewrite bool_decide_eq_false_2 by congruence. apply IH; assumption.
Qed.

Lemma scanRoles_spec (rID : string) (m : ptr) (roles : list string) (members : list ptr) :
  scanRoles rID m roles members
  = members ++ replicate (length (filter (fun roleID => roleID = rID) roles)) m.
Proof.
  revert members. induction roles as [|x roles IH]; intros members; cbn [scanRoles].
  - cbn. rewrite app_nil_r. reflexivity.
  - rewrite IH, filter_cons. case_bool_decide as Hx.
    + rewrite decide_True by done. cbn. rewrite <- app_assoc. reflexivity.
    + rewrite decide_False by done. reflexivity.
Qed.

Lemma scanMembers_spec (ms : list Member.t) (rID : string)
    (allMembers members : list ptr) :
  Forall (fun m : ptr => is_Some (ms !! m)) allMembers ->
  scanMembers ms rID allMembers members
  = Some (members ++ (allMembers ≫= fun m => replicate (timesListed ms rID m) m)).
Proof.
  intros Hv. revert members.
  induction Hv as [|m rest [mv Hm] _ IH]; intros members; cbn.
  - rewrite app_nil_r. reflexivity.
  - rewrite Hm, IH, scanRoles_spec. unfold timesListed at 2. rewrite Hm.
    rewrite <- app_assoc. reflexivity.
Qed.

Lemma filter_eq_length_pos (rID : string) (roles : list string) :
  length (filter (fun roleID => roleID = rID) roles) ≠ 0%nat <-> rID ∈ roles.
Proof.
  induction roles as [|x roles IH].
  - cbn. split; [done | intros H; inversion H].
  - rewrite filter_cons, elem_of_cons. destruct (decide (x = rID)) as [->|Hne]; cbn.
    + split; auto.
    + rewrite IH. split; [auto | intros [->|H]; [done | exact H]].
Qed.

Lemma filter_eq_length_NoDup (rID : string) (roles : list string) :
  NoDup roles ->
  length (filter (fun roleID => roleID = rID) roles)
  = if decide (rID ∈ roles) then 1%nat else 0%nat.
Proof.
  induction 1 as [|x roles Hx Hnd IH].
  - cbn. rewrite decide_False by apply not_elem_of_nil. reflexivity.
  - rewrite filter_cons. destruct (decide (x = rID)) as [->|Hne]; cbn.
    + rewrite decide_True by apply list_elem_of_here.
      rewrite IH, decide_False by done. reflexivity.
    + rewrite IH. destruct (decide (rID ∈ roles)) as [Hin|Hin].
      * rewrite decide_True by (apply list_elem_of_further; exact Hin). reflexivity.
      * rewrite decide_False; [reflexivity|].
        rewrite elem_of_cons. intros [->|?]; done.
Qed.

(** X5: [GetMembers] walks the members of the guild in order and
    returns a member once for every entry of its role list that equals
    the ID of the role.  So a member is returned exactly when it lists
    the role, and, when no member lists a role twice, the result is the
    guild's member list restricted to the holders of the role. *)
Theorem GetMembers_lists_holders (ms : list Member.t) (r : Role.t) (g : Guild.t)
    (allMembers : list ptr) :
  Role.Guild r = Some g ->
  Forall (fun m : ptr => is_Some (ms !! m)) allMembers ->
  exists members,
    GetMembers ms r allMembers = Some members /\
    members = (allMembers ≫= fun m => replicate (timesListed ms (Role.ID r) m) m) /\
    (forall m : ptr, m ∈ members <-> m ∈ allMembers /\ hasRole ms (Role.ID r) m) /\
    ((forall (m : ptr) mv, m ∈ allMembers -> ms !! m = Some mv -> NoDup (Member.Roles mv)) ->
     members = filter (hasRole ms (Role.ID r)) allMembers).
Proof.
  intros Hg Hv. eexists. split; [|split; [reflexivity|split]].
  - unfold GetMembers. rewrite Hg. apply scanMembers_spec. exact Hv.
  - intros m. rewrite list_elem_of_bind. split.
    + intros (y & Hm & Hy). apply elem_of_replicate in Hm as [-> Hn].
      split; [exact Hy|]. unfold hasRole, timesListed in *.
      destruct (ms !! y); [|done]. apply filter_eq_length_pos. exact Hn.
    + intros [Hm Hh]. exists m. split; [|exact Hm].
      apply elem_of_replicate. split; [reflexivity|].
      unfold hasRole, timesListed in *.
      destruct (ms !! m); [|done]. apply filter_eq_length_pos. exact Hh.
  - intros Hnd. clear Hg. induction Hv as [|m rest [mv Hm] _ IH]; [reflexivity|].
    rewrite bind_cons, filter_cons, IH.
    2:{ intros m' mv' Hin. apply Hnd. apply list_elem_of_further. exact Hin. }
    assert (Hh : hasRole ms (Role.ID r) m <-> Role.ID r ∈ Member.Roles mv)
      by (unfold hasRole; rewrite Hm; reflexivity).
    assert (Ht : timesListed ms (Role.ID r) m
                 = length (filter (fun roleID => roleID = Role.ID r) (Member.Roles mv)))
      by (unfold timesListed; rewrite Hm; reflexivity).
    rewrite Ht, (filter_eq_length_NoDup _ _ (Hnd m mv (list_elem_of_here _ _) Hm)).
    destruct (decide (Role.ID r ∈ Member.Roles mv)) as [Hin|Hin].
    + rewrite decide_True by (apply Hh; exact Hin). reflexivity.
    + rewrite decide_False by (rewrite Hh; exact Hin). reflexivity.
Qed.

Lemma GetMembers_lists_holders_witness :
  exists members,
    GetMembers members6 (Role.mk "b" 2 (Some guild5)) [0; 1; 2; 3; 4; 5]%nat = Some members /\
    members = ([0; 1; 2; 3; 4; 5]%nat ≫= fun m => replicate (timesListed members6 "b" m) m) /\
    (forall m : ptr, m ∈ members <-> m ∈ [0; 1; 2; 3; 4; 5]%nat /\ hasRole members6 "b" m) /\
    ((forall (m : ptr) mv, m ∈ [0; 1; 2; 3; 4; 5]%nat -> members6 !! m = Some mv ->
        NoDup (Member.Roles mv)) ->
     members = filter (hasRole members6 "b") [0; 1; 2; 3; 4; 5]%nat).
Proof.
  apply (GetMembers_lists_holders members6 (Role.mk "b" 2 (Some guild5)) guild5).
  - reflexivity.
  - repeat constructor; eexists; reflexivity.
Defined.

Lemma append_char_inj (s1 s2 : string) (c : Ascii.ascii) :
  String.append s1 (String c EmptyString) = String.append s2 (String c EmptyString) ->
  s1 = s2.
Proof.
  revert s2. induction s1 as [|a s1 IH]; intros [|b s2]; cbn; intros H.
  - reflexivity.
  - injection H as _ H. destruct s2; discriminate.
  - injection H as _ H. destruct s1; discriminate.
  - injection H as -> H. f_equal. apply IH. exact H.
Qed.

Lemma length_append_char (s : string) (c : Ascii.ascii) :
  String.length (String.append s (String c EmptyString)) = S (String.length s).
Proof.
  induction s as [|a s IH]; [reflexivity|].
  change (S (String.length (String.append s (String c EmptyString)))
          = S (S (String.length s))).
  rewrite IH. reflexivity.
Qed.

(** X6: [Mention] wraps the ID of the role in the three characters of
    the role mention and the closing bracket, so that two roles are
    mentioned by the same string exactly when they have the same ID. *)
Theorem Mention_injective (r1 r2 : Role.t) :
  (Mention r1 = Mention r2 <-> GetID r1 = GetID r2) /\
  String.length (Mention r1) = (4 + String.length (GetID r1))%nat.
Proof.
  unfold Mention, GetID. split; [split|].
  - cbn. intros H. injection H as H. apply append_char_inj in H. exact H.
  - intros ->. reflexivity.
  - change (S (S (S (String.length (String.append (Role.ID r1) ">"))))
            = (4 + String.length (Role.ID r1))%nat).
    rewrite length_append_char. reflexivity.
Qed.

End HierarchyFacts.

(** ** The event-handler registry and dispatcher *)

Module DispatchFacts.
Import Dispatch.

Section DispatcherFacts.
Variable growslice : nat -> nat -> nat.
Variable Handler : Type.
Variable handlerForInterface : Handler -> option EventHandler.t.
Variable State_OnInterface : Event -> option string.
Variable json_Unmarshal : string -> Event -> Event * option string.
Variable NATS_QueueSubscribe : string -> string -> option nat * option string.

Local Abbreviation handleEvent := (handleEvent State_OnInterface).
Local Abbreviation natsHandler := (natsHandler State_OnInterface json_Unmarshal).

(** *** [handle] *)

Lemma fire_fold i l : forall w,
  let w' := fold_left (fire i) l w in
  trace w' = trace w ++ (call w i <$> l) /\
  handlers w' = handlers w /\ onceHandlers w' = onceHandlers w /\
  SyncEvents w' = SyncEvents w /\ State w' = State w /\
  instances w' = instances w.
Proof.
  induction l as [|eh l IH]; intros w; cbn [fold_left fmap list_fmap].
  - by rewrite app_nil_r.
  - destruct (IH (fire i w eh)) as (Ht & Hh & Ho & Hs & HS & Hi).
    rewrite Ht, Hh, Ho, Hs, HS, Hi. unfold fire, call.
    destruct (SyncEvents w) eqn:E; cbn; rewrite ?E; cbn;
      by rewrite <- app_assoc.
Qed.

Lemma handle_spec t i w :
  let w' := handle t i w in
  trace w'
  = trace w ++ (call w i <$> elems (index (handlers w) t)
                             ++ elems (index (onceHandlers w) t)) /\
  handlers w' = handlers w /\
  onceHandlers w' = clearOnce t (onceHandlers w) /\
  SyncEvents w' = SyncEvents w /\ State w' = State w /\
  instances w' = instances w.
Proof.
  unfold handle, clearOnce.
  destruct (fire_fold i (elems (index (handlers w) t)) w)
    as (Ht & Hh & Ho & Hs & HS & Hi).
  set (w1 := fold_left (fire i) (elems (index (handlers w) t)) w) in *.
  rewrite Ho. destruct (0 <? _)%nat eqn:E.
  - destruct (fire_fold i (elems (index (onceHandlers w) t)) w1)
      as (Ht' & Hh' & Ho' & Hs' & HS' & Hi').
    cbn. rewrite Ht', Ht, Hh', Ho', Ho, Hs', HS', Hi'.
    rewrite fmap_app, <- app_assoc. unfold call. rewrite Hs. done.
  - apply Nat.ltb_ge in E.
    destruct (elems (index (onceHandlers w) t)); [|cbn in E; lia].
    cbn. by rewrite app_nil_r.
Qed.

Lemma fire_fold_globals i l : forall w,
  globals (fold_left (fire i) l w) = globals w /\
  sessionID (fold_left (fire i) l w) = sessionID w.
Proof using Type.
  induction l as [|eh l IH]; intros w; cbn [fold_left]; [split; reflexivity|].
  destruct (IH (fire i w eh)) as [-> ->].
  unfold fire. destruct (SyncEvents w); split; reflexivity.
Qed.

Lemma handle_globals t i w :
  globals (handle t i w) = globals w /\ sessionID (handle t i w) = sessionID w.
Proof using Type.
  unfold handle.
  destruct (fire_fold_globals i (elems (index (handlers w) t)) w) as [Hg Hs].
  set (w1 := fold_left (fire i) (elems (index (handlers w) t)) w) in *.
  destruct (0 <? _)%nat; [|split; assumption].
  destruct (fire_fold_globals i (elems (index (onceHandlers w1) t)) w1) as [Hg' Hs'].
  split; [rewrite <- Hg, <- Hg' | rewrite <- Hs, <- Hs']; reflexivity.
Qed.

(** *** [onInterface] and [handleEvent] *)

Lemma onInterface_None i w :
  afterHook i = None -> onInterface State_OnInterface i w = None.
Proof using Type.
  unfold afterHook, onInterface.
  destruct i as [[t|]|[t|]|[t|]| | |]; cbn; try discriminate; try reflexivity.
  - destruct (mapM readyGuild (Ready.Guilds t)); [discriminate | reflexivity].
  - destruct (setGuildIds (GuildCreate.Guild t)); [discriminate | reflexivity].
  - destruct (setGuildIds (GuildUpdate.Guild t)); [discriminate | reflexivity].
Qed.

Lemma onInterface_spec i v w :
  State w = true -> afterHook i = Some v ->
  exists w' hook,
    onInterface State_OnInterface i w = Some (v, w') /\
    trace w' = trace w ++ hook /\
    StateOnInterface v ∈ hook /\
    Forall (fun a => isHandlerCall a = false) hook /\
    handlers w' = handlers w /\ onceHandlers w' = onceHandlers w /\
    SyncEvents w' = SyncEvents w /\ State w' = State w /\
    instances w' = instances w /\ globals w' = globals w /\
    sessionID w' = sessionIDAfter w i.
Proof using Type.
  intros HS Hv. unfold onInterface, sessionIDAfter. rewrite HS.
  unfold afterHook in Hv.
  destruct i as [[t|]|[t|]|[t|]| | |]; cbn in Hv |- *; try discriminate;
    try (destruct (mapM readyGuild (Ready.Guilds t)); [|discriminate]);
    try (destruct (setGuildIds (GuildCreate.Guild t)); [|discriminate]);
    try (destruct (setGuildIds (GuildUpdate.Guild t)); [|discriminate]);
    cbn in Hv |- *; injection Hv as <-; rewrite HS;
    destruct (State_OnInterface _);
    eexists _, _; (split; [reflexivity|]); cbn;
    rewrite <- ?app_assoc;
    (split; [reflexivity|]);
    (split; [apply list_elem_of_In; cbn; auto|]);
    (split; [repeat constructor|]); repeat split; exact HS.
Qed.

Lemma handleEvent_None t i w :
  State w = true -> afterHook i = None -> handleEvent t i w = None.
Proof using Type.
  intros HS Hv. unfold Dispatch.handleEvent.
  rewrite HS, (onInterface_None i w Hv). reflexivity.
Qed.

Lemma handleEvent_full t i w :
  getsPastHook w i ->
  exists w' hook,
    handleEvent t i w = Some w' /\
    trace w'
    = trace w ++ hook
        ++ (call w (delivered w i)
              <$> elems (index (handlers w) interfaceEventType)
                  ++ elems (index (onceHandlers w) interfaceEventType))
        ++ (call w (delivered w i)
              <$> elems (index (handlers w) t)
                  ++ elems (index (clearOnce interfaceEventType (onceHandlers w)) t)) /\
    (State w = true -> StateOnInterface (delivered w i) ∈ hook) /\
    (State w = false -> hook = []) /\
    Forall (fun a => isHandlerCall a = false) hook /\
    handlers w' = handlers w /\
    onceHandlers w' = clearOnce t (clearOnce interfaceEventType (onceHandlers w)) /\
    SyncEvents w' = SyncEvents w /\ State w' = State w /\
    instances w' = instances w /\
    globals w' = globals w /\
    sessionID w' = sessionIDAfter w i.
Proof using Type.
  intros Hpast. unfold Dispatch.handleEvent.
  assert (exists w0 hook,
    (if State w then onInterface State_OnInterface i w else Some (i, w))
    = Some (delivered w i, w0) /\
    trace w0 = trace w ++ hook /\
    (State w = true -> StateOnInterface (delivered w i) ∈ hook) /\
    (State w = false -> hook = []) /\
    Forall (fun a => isHandlerCall a = false) hook /\
    handlers w0 = handlers w /\ onceHandlers w0 = onceHandlers w /\
    SyncEvents w0 = SyncEvents w /\ State w0 = State w /\
    instances w0 = instances w /\ globals w0 = globals w /\
    sessionID w0 = sessionIDAfter w i)
    as (w0 & hook & -> & Ht & H1 & H2 & H3 & Hh & Ho & Hs & HS & Hi & Hg & Hsid).
  { unfold getsPastHook in Hpast. unfold delivered.
    destruct (State w) eqn:E.
    - destruct (Hpast eq_refl) as [v Hv]. rewrite Hv. cbn [default].
      destruct (onInterface_spec i v w E Hv)
        as (w' & hook & Hon & Ht & Hin & Hno & Hh & Ho & Hs & HS & Hi & Hg & Hsid).
      exists w', hook.
      split; [exact Hon|]. split; [exact Ht|]. split; [intros _; exact Hin|].
      split; [discriminate|]. rewrite HS. repeat split; assumption.
    - exists w, []. rewrite app_nil_r. unfold sessionIDAfter. rewrite E.
      split; [reflexivity|]. split; [reflexivity|]. split; [discriminate|].
      split; [reflexivity|]. split; [constructor|]. repeat split. }
  cbn [mbind option_bind].
  set (v := delivered w i) in *.
  destruct (handle_spec interfaceEventType v w0) as (Ht1 & Hh1 & Ho1 & Hs1 & HS1 & Hi1).
  destruct (handle_globals interfaceEventType v w0) as (Hg1 & Hsid1).
  set (w1 := handle interfaceEventType v w0) in *.
  destruct (handle_spec t v w1) as (Ht2 & Hh2 & Ho2 & Hs2 & HS2 & Hi2).
  destruct (handle_globals t v w1) as (Hg2 & Hsid2).
  exists (handle t v w1), hook. split; [reflexivity|].
  rewrite Ht2, Ht1, Ht, Hh2, Hh1, Hh, Ho2, Ho1, Ho, Hs2, Hs1, Hs, HS2, HS1, HS,
    Hi2, Hi1, Hi, Hg2, Hg1, Hg, Hsid2, Hsid1, Hsid.
  split.
  { rewrite <- !app_assoc. unfold call. rewrite Hs1, Hs. reflexivity. }
  split; [exact H1|]. split; [exact H2|]. split; [exact H3|]. repeat split.
Qed.

Lemma handleEvent_spec t i w :
  getsPastHook w i ->
  exists i' w' hook,
    handleEvent t i w = Some w' /\
    trace w'
    = trace w ++ hook
        ++ (call w i' <$> elems (index (handlers w) interfaceEventType)
              ++ elems (index (onceHandlers w) interfaceEventType))
        ++ (call w i' <$> elems (index (handlers w) t)
              ++ elems (index (clearOnce interfaceEventType (onceHandlers w)) t)) /\
    (State w = true -> StateOnInterface i' ∈ hook) /\
    (State w = false -> hook = [] /\ i' = i) /\
    Forall (fun a => isHandlerCall a = false) hook /\
    handlers w' = handlers w /\
    onceHandlers w'
    = clearOnce t (clearOnce interfaceEventType (onceHandlers w)) /\
    SyncEvents w' = SyncEvents w /\ State w' = State w /\
    instances w' = instances w.
Proof using Type.
  intros Hpast.
  destruct (handleEvent_full t i w Hpast)
    as (w' & hook & He & Ht & H1 & H2 & H3 & Hh & Ho & Hs & HS & Hi & _).
  exists (delivered w i), w', hook.
  split; [exact He|]. split; [exact Ht|]. split; [exact H1|].
  split; [|repeat split; assumption].
  intros E. split; [exact (H2 E)|]. unfold delivered. rewrite E. reflexivity.
Qed.

(** A dispatch that returns got past the hook. *)
Lemma handleEvent_Some t i w w' :
  handleEvent t i w = Some w' -> getsPastHook w i.
Proof using Type.
  intros He HS. destruct (afterHook i) as [v|] eqn:Hv; [eexists; reflexivity|].
  rewrite (handleEvent_None t i w HS Hv) in He. discriminate.
Qed.

(** *** C5 *)


(** *** Counting invocations *)

Lemma invocations_app eh tr1 tr2 :
  invocations eh (tr1 ++ tr2) = (invocations eh tr1 + invocations eh tr2)%nat.
Proof. unfold invocations. by rewrite List.filter_app, length_app. Qed.

Lemma invocations_hook eh hook :
  Forall (fun a => isHandlerCall a = false) hook -> invocations eh hook = 0%nat.
Proof.
  unfold invocations. induction 1 as [|a hook Ha _ IH]; [done|].
  cbn. destruct a; cbn in *; try discriminate; exact IH.
Qed.

Lemma invocations_calls_absent eh w i l :
  eh ∉ l -> invocations eh (call w i <$> l) = 0%nat.
Proof.
  unfold invocations. induction l as [|x l IH]; intros Hx; [done|].
  apply not_elem_of_cons in Hx as [Hne Hx]. cbn.
  unfold call at 1. destruct (SyncEvents w); cbn;
    rewrite bool_decide_eq_false_2 by done; by apply IH.
Qed.

Lemma invocations_call eh w i : invocations eh [call w i eh] = 1%nat.
Proof.
  unfold invocations, call. destruct (SyncEvents w); cbn;
    by rewrite bool_decide_eq_true_2.
Qed.

Lemma elems_append s xs : elems (append growslice s xs) = elems s ++ xs.
Proof. unfold append. by destruct (_ <=? _)%nat. Qed.

Lemma elems_clearOnce_eq t m : elems (index (clearOnce t m) t) = [].
Proof.
  unfold clearOnce. destruct (0 <? _)%nat eqn:E.
  - unfold index. by rewrite lookup_insert_eq.
  - apply Nat.ltb_ge in E. destruct (elems (index m t)); [done|cbn in E; lia].
Qed.

Lemma index_clearOnce_ne t t' m : t ≠ t' -> index (clearOnce t m) t' = index m t'.
Proof.
  intros Hne. unfold clearOnce. destruct (0 <? _)%nat; [|done].
  unfold index. by rewrite lookup_insert_ne.
Qed.

Lemma elem_of_clearOnce eh t t' m :
  eh ∈ elems (index (clearOnce t m) t') -> eh ∈ elems (index m t').
Proof.
  destruct (decide (t = t')) as [->|Hne].
  - rewrite elems_clearOnce_eq. by intros ?%elem_of_nil.
  - by rewrite index_clearOnce_ne.
Qed.

(** A dispatch never invokes an instance that no table holds, and
    leaves it out of the tables. *)
Lemma handleEvent_silent eh t i w w' :
  ~ held w eh -> handleEvent t i w = Some w' ->
  exists tr,
    trace w' = trace w ++ tr /\ invocations eh tr = 0%nat /\ ~ held w' eh.
Proof using Type.
  intros Hno He.
  destruct (handleEvent_spec t i w (handleEvent_Some t i w w' He))
    as (i' & w'' & hook & He' & Ht & _ & _ & Hhook & Hh & Ho & _).
  rewrite He in He'. injection He' as <-.
  eexists. split; [exact Ht|]. split.
  - rewrite !invocations_app, (invocations_hook _ _ Hhook).
    rewrite !invocations_calls_absent; [reflexivity|..]; intros Hin; apply Hno;
      apply elem_of_app in Hin as [Hin|Hin].
    + exists t. left. exact Hin.
    + exists t. right. eapply elem_of_clearOnce, Hin.
    + exists interfaceEventType. left. exact Hin.
    + exists interfaceEventType. right. exact Hin.
  - intros [t' [Hin|Hin]]; apply Hno; exists t'.
    + left. rewrite <- Hh. exact Hin.
    + right. rewrite Ho in Hin. do 2 apply elem_of_clearOnce in Hin. exact Hin.
Qed.

(** *** Registration and removal keep the tables within the heap *)

Lemma index_insert_eq (m : gmap string Slice) t sl : index (<[t := sl]> m) t = sl.
Proof using Type. unfold index. by rewrite lookup_insert_eq. Qed.

Lemma index_insert_ne (m : gmap string Slice) t t' sl :
  t ≠ t' -> index (<[t := sl]> m) t' = index m t'.
Proof using Type. intros Hne. unfold index. by rewrite lookup_insert_ne. Qed.

Lemma addEventHandler_tables eventHandler w :
  let w' := fst (addEventHandler growslice eventHandler w) in
  let t := EventHandler.Type_ eventHandler in
  elems (index (handlers w') t)
  = elems (index (handlers w) t) ++ [length (instances w)] /\
  (forall t', t ≠ t' -> index (handlers w') t' = index (handlers w) t') /\
  onceHandlers w' = onceHandlers w /\
  instances w' = instances w ++ [eventHandler] /\
  trace w' = trace w.
Proof using Type.
  cbn. split_and!; try done.
  - by rewrite index_insert_eq, elems_append.
  - intros t' Hne. by rewrite index_insert_ne.
Qed.

Lemma addEventHandlerOnce_tables eventHandler w :
  let w' := fst (addEventHandlerOnce growslice eventHandler w) in
  let t := EventHandler.Type_ eventHandler in
  elems (index (onceHandlers w') t)
  = elems (index (onceHandlers w) t) ++ [length (instances w)] /\
  (forall t', t ≠ t' -> index (onceHandlers w') t' = index (onceHandlers w) t') /\
  handlers w' = handlers w /\
  instances w' = instances w ++ [eventHandler] /\
  trace w' = trace w.
Proof using Type.
  cbn. split_and!; try done.
  - by rewrite index_insert_eq, elems_append.
  - intros t' Hne. by rewrite index_insert_ne.
Qed.

Lemma addEventHandler_allocated eventHandler w :
  allocated w -> allocated (fst (addEventHandler growslice eventHandler w)).
Proof using Type.
  intros Halloc t eh Hin.
  destruct (addEventHandler_tables eventHandler w) as (Ht & Hne & Ho & Hi & _).
  rewrite Hi, length_app. cbn [length].
  rewrite Ho in Hin.
  destruct (decide (EventHandler.Type_ eventHandler = t)) as [<-|Hd].
  - rewrite Ht in Hin. destruct Hin as [Hin|Hin].
    + apply elem_of_app in Hin as [Hin|Hin].
      * specialize (Halloc _ _ (or_introl Hin)). lia.
      * apply list_elem_of_singleton in Hin. lia.
    + specialize (Halloc _ _ (or_intror Hin)). lia.
  - rewrite (Hne t Hd) in Hin. specialize (Halloc _ _ Hin). lia.
Qed.

Lemma addEventHandlerOnce_allocated eventHandler w :
  allocated w -> allocated (fst (addEventHandlerOnce growslice eventHandler w)).
Proof using Type.
  intros Halloc t eh Hin.
  destruct (addEventHandlerOnce_tables eventHandler w) as (Ht & Hne & Hh & Hi & _).
  rewrite Hi, length_app. cbn [length].
  rewrite Hh in Hin.
  destruct (decide (EventHandler.Type_ eventHandler = t)) as [<-|Hd].
  - rewrite Ht in Hin. destruct Hin as [Hin|Hin].
    + specialize (Halloc _ _ (or_introl Hin)). lia.
    + apply elem_of_app in Hin as [Hin|Hin].
      * specialize (Halloc _ _ (or_intror Hin)). lia.
      * apply list_elem_of_singleton in Hin. lia.
  - rewrite (Hne t Hd) in Hin. specialize (Halloc _ _ Hin). lia.
Qed.

(** A once registration makes a once entry: the fresh instance is held
    by the once list of its tag, once, and by nothing else. *)
Lemma addEventHandlerOnce_onceEntry eventHandler w :
  allocated w ->
  onceEntry (fst (addEventHandlerOnce growslice eventHandler w))
    (EventHandler.Type_ eventHandler) (length (instances w)).
Proof using Type.
  intros Halloc.
  destruct (addEventHandlerOnce_tables eventHandler w) as (Ht & Hne & Hh & _).
  assert (HfreshP : forall t, length (instances w) ∉ elems (index (handlers w) t)).
  { intros t Hin. specialize (Halloc t _ (or_introl Hin)). lia. }
  assert (HfreshO : forall t, length (instances w) ∉ elems (index (onceHandlers w) t)).
  { intros t Hin. specialize (Halloc t _ (or_intror Hin)). lia. }
  split_and!.
  - eexists _, []. split; [exact Ht|]. split; [apply HfreshO|].
    by intros ?%elem_of_nil.
  - intros t. rewrite Hh. apply HfreshP.
  - intros t Hnt. rewrite Hne by done. apply HfreshO.
Qed.

Lemma handleEvent_allocated t i w w' :
  allocated w -> handleEvent t i w = Some w' -> allocated w'.
Proof using Type.
  intros Halloc He.
  destruct (handleEvent_spec t i w (handleEvent_Some t i w w' He))
    as (i' & w'' & hook & He' & _ & _ & _ & _ & Hh & Ho & _ & _ & Hi).
  rewrite He in He'. injection He' as <-.
  intros t' eh Hin. rewrite Hi. apply (Halloc t'). rewrite Hh, Ho in Hin.
  destruct Hin as [Hin|Hin]; [by left|right].
  by do 2 apply elem_of_clearOnce in Hin.
Qed.

(** The cells and the stored slice of the first removal loop hold
    instances of the persistent list only. *)
Lemma spliceHandlers_within eh n c (P : ehi -> Prop) idxs : forall A asg,
  Forall P A ->
  (forall sl, asg = Some sl -> Forall P (elems sl)) ->
  Forall P (fst (fold_left (spliceHandlers eh n c) idxs (A, asg))) /\
  (forall sl, snd (fold_left (spliceHandlers eh n c) idxs (A, asg)) = Some sl ->
     Forall P (elems sl)).
Proof using Type.
  induction idxs as [|i idxs IH]; intros A asg HA Hasg; [done|].
  cbn [fold_left]. unfold spliceHandlers at 2 4.
  case_bool_decide; [|by apply IH].
  assert (Forall P (take i A ++ drop (S i) A)) as Hs.
  { apply Forall_app. split; [by apply Forall_take | by apply Forall_drop]. }
  apply IH.
  - apply Forall_app. split; [done | by apply Forall_drop].
  - by intros sl [= <-].
Qed.

(** Those of the second loop hold instances of either list. *)
Lemma spliceOnceHandlers_within eh handlers m c (P : ehi -> Prop) idxs :
  Forall P handlers ->
  forall B asg,
    Forall P B ->
    (forall sl, asg = Some sl -> Forall P (elems sl)) ->
    forall B' asg',
      fold_left (spliceOnceHandlers growslice eh handlers m c) idxs (Some (B, asg))
      = Some (B', asg') ->
      forall sl, asg' = Some sl -> Forall P (elems sl).
Proof using Type.
  intros Hh. induction idxs as [|i idxs IH]; intros B asg HB Hasg B' asg'.
  - cbn. intros [= <- <-]. exact Hasg.
  - cbn [fold_left]. unfold spliceOnceHandlers at 2. cbn [mbind option_bind].
    case_bool_decide; [|by apply IH].
    destruct (S i <=? length handlers)%nat.
    2:{ intros Hf. exfalso. clear -Hf.
        induction idxs as [|j idxs IHi]; [discriminate|]. by apply IHi. }
    assert (Forall P (take i B ++ drop (S i) handlers)) as Hs.
    { apply Forall_app. split; [by apply Forall_take | by apply Forall_drop]. }
    destruct (_ <=? c)%nat.
    + apply IH.
      * apply Forall_take, Forall_app. split; [done | by apply Forall_drop].
      * by intros sl [= <-].
    + apply IH; [done|]. by intros sl [= <-].
Qed.

Lemma removeEventHandlerInstance_allocated t eh w w' :
  allocated w -> removeEventHandlerInstance growslice t eh w = Some w' ->
  allocated w'.
Proof using Type.
  intros Halloc. unfold removeEventHandlerInstance.
  set (P := fun x : ehi => (x < length (instances w))%nat).
  assert (HA : Forall P (elems (index (handlers w) t))).
  { apply Forall_forall. intros x Hx. apply (Halloc t). by left. }
  assert (HB : Forall P (elems (index (onceHandlers w) t))).
  { apply Forall_forall. intros x Hx. apply (Halloc t). by right. }
  destruct (spliceHandlers_within eh (length (elems (index (handlers w) t)))
              (cap (index (handlers w) t)) P
              (seq 0 (length (elems (index (handlers w) t))))
              (elems (index (handlers w) t)) None HA) as [HA' Hasg]; [done|].
  destruct (fold_left (spliceHandlers _ _ _) _ _) as [A' asg]. cbn in HA', Hasg.
  cbn [onceHandlers setHandlers].
  destruct (fold_left (spliceOnceHandlers _ _ _ _ _) _ _) as [[B' asg']|] eqn:Hf;
    [|discriminate].
  cbn. intros [= <-].
  pose proof (spliceOnceHandlers_within _ _ _ _ P _ HA' _ None HB
                ltac:(done) _ _ Hf) as Hasg'.
  intros t' x Hin. cbn in Hin |- *.
  assert (forall (m : gmap string Slice) a,
            (forall sl, a = Some sl -> Forall P (elems sl)) ->
            x ∈ elems (index (Dispatch.store t a m) t') ->
            x ∈ elems (index m t') \/ P x) as Hstore.
  { intros m [sl|] Hsl Hx; cbn in Hx; [|by left].
    destruct (decide (t = t')) as [->|Hne].
    - rewrite index_insert_eq in Hx. right.
      specialize (Hsl sl eq_refl). rewrite Forall_forall in Hsl. by apply Hsl.
    - rewrite index_insert_ne in Hx by done. by left. }
  destruct Hin as [Hin|Hin].
  - apply Hstore in Hin as [Hin|Hin]; [|done..]. apply (Halloc t'). by left.
  - apply Hstore in Hin as [Hin|Hin]; [|done..]. apply (Halloc t'). by right.
Qed.

(** *** The persistent half of removal *)

Lemma spliceHandlers_no_match eh n c idxs : forall A asg,
  (forall j, j ∈ idxs -> A !! j ≠ Some eh) ->
  fold_left (spliceHandlers eh n c) idxs (A, asg) = (A, asg).
Proof using Type.
  induction idxs as [|i idxs IH]; intros A asg Hno; [done|].
  cbn [fold_left]. unfold spliceHandlers at 2.
  rewrite bool_decide_eq_false_2 by (apply Hno; left).
  apply IH. intros j Hj. apply Hno. by right.
Qed.

Lemma spliceOnceHandlers_no_match eh handlers m c idxs : forall B asg,
  (forall j, j ∈ idxs -> B !! j ≠ Some eh) ->
  fold_left (spliceOnceHandlers growslice eh handlers m c) idxs (Some (B, asg))
  = Some (B, asg).
Proof using Type.
  induction idxs as [|i idxs IH]; intros B asg Hno; [done|].
  cbn [fold_left]. unfold spliceOnceHandlers at 2. cbn [mbind option_bind].
  rewrite bool_decide_eq_false_2 by (apply Hno; left).
  apply IH. intros j Hj. apply Hno. by right.
Qed.

Lemma filter_all {A} (P : A -> Prop) `{forall x, Decision (P x)} (l : list A) :
  Forall P l -> filter P l = l.
Proof using Type.
  induction 1 as [|x l Hx _ IH]; [done|].
  by rewrite filter_cons, decide_True, IH.
Qed.

Lemma not_elem_of_drop_after (A : list ehi) i k eh :
  NoDup A -> A !! i = Some eh -> (i < k)%nat -> eh ∉ drop k A.
Proof using Type.
  intros Hnd Hi Hk [j Hj]%list_elem_of_lookup. rewrite lookup_drop in Hj.
  pose proof (NoDup_lookup _ _ _ _ Hnd Hi Hj). lia.
Qed.

Lemma not_elem_of_take_before (A : list ehi) i eh :
  NoDup A -> A !! i = Some eh -> eh ∉ take i A.
Proof using Type.
  intros Hnd Hi [j Hj]%list_elem_of_lookup.
  apply lookup_take_Some in Hj as [Hj Hlt].
  pose proof (NoDup_lookup _ _ _ _ Hnd Hi Hj). lia.
Qed.

Lemma filter_ne_lookup (A : list ehi) i eh :
  NoDup A -> A !! i = Some eh ->
  filter (fun x => x ≠ eh) A = take i A ++ drop (S i) A.
Proof using Type.
  intros Hnd Hi. rewrite <- (take_drop_middle A i eh Hi) at 1.
  rewrite filter_app, filter_cons, decide_False by (intros Hne; by apply Hne).
  f_equal; apply filter_all, Forall_forall; intros x Hx ->.
  - by eapply not_elem_of_take_before.
  - eapply (not_elem_of_drop_after A i (S i)); eauto.
Qed.

(** With the instance once in the persistent list, the first loop
    splices it out and matches nothing afterwards. *)
Lemma spliceHandlers_found eh c (A : list ehi) i :
  NoDup A -> A !! i = Some eh ->
  fold_left (spliceHandlers eh (length A) c) (seq 0 (length A)) (A, None)
  = (take i A ++ drop (S i) A ++ drop (length A - 1) A,
     Some (mkSlice (take i A ++ drop (S i) A) c)).
Proof using Type.
  intros Hnd Hi. pose proof (lookup_lt_Some _ _ _ Hi) as Hlt.
  replace (length A) with (i + S (length A - S i))%nat at 2 by lia.
  rewrite seq_app, fold_left_app. cbn [seq fold_left Nat.add].
  rewrite spliceHandlers_no_match.
  2:{ intros j Hj%elem_of_seq Hj'.
      pose proof (NoDup_lookup _ _ _ _ Hnd Hi Hj'). lia. }
  unfold spliceHandlers at 2. rewrite bool_decide_eq_true_2 by done.
  rewrite <- app_assoc. apply spliceHandlers_no_match.
  intros j Hj%elem_of_seq Hj'.
  rewrite lookup_app_r in Hj' by (rewrite length_take; lia).
  apply list_elem_of_lookup_2, elem_of_app in Hj' as [Hin|Hin].
  - by apply (not_elem_of_drop_after A i (S i) eh Hnd Hi) in Hin; [|lia].
  - by apply (not_elem_of_drop_after A i (length A - 1) eh Hnd Hi) in Hin; [|lia].
Qed.

Lemma setHandlers_setOnceHandlers_id w :
  setOnceHandlers (onceHandlers w) (setHandlers (handlers w) w) = w.
Proof using Type. by destruct w. Qed.

(** Removing an instance that neither list of the tag holds changes
    nothing. *)
Lemma remove_absent t eh w :
  eh ∉ elems (index (handlers w) t) ->
  eh ∉ elems (index (onceHandlers w) t) ->
  removeEventHandlerInstance growslice t eh w = Some w.
Proof using Type.
  intros Hh Ho. unfold removeEventHandlerInstance.
  rewrite spliceHandlers_no_match.
  2:{ intros j _ Hj. by apply list_elem_of_lookup_2, Hh in Hj. }
  cbn [Dispatch.store onceHandlers setHandlers].
  rewrite spliceOnceHandlers_no_match.
  2:{ intros j _ Hj. by apply list_elem_of_lookup_2, Ho in Hj. }
  cbn. f_equal. apply setHandlers_setOnceHandlers_id.
Qed.

(** The persistent half of what C1 asks for: the removal token of a
    persistent entry removes exactly that entry, leaves every other entry
    of both tables alone, and does nothing when invoked again. *)
Lemma remove_persistent_entry t eh w :
  NoDup (elems (index (handlers w) t)) ->
  eh ∈ elems (index (handlers w) t) ->
  eh ∉ elems (index (onceHandlers w) t) ->
  exists w',
    invoke growslice (Remove t eh) w = Some w' /\
    elems (index (handlers w') t)
    = filter (fun x => x ≠ eh) (elems (index (handlers w) t)) /\
    (forall t', t ≠ t' -> index (handlers w') t' = index (handlers w) t') /\
    onceHandlers w' = onceHandlers w /\
    invoke growslice (Remove t eh) w' = Some w'.
Proof using Type.
  intros Hnd [i Hi]%list_elem_of_lookup Ho.
  assert (Hrm : removeEventHandlerInstance growslice t eh w
    = Some (setOnceHandlers (onceHandlers w)
              (setHandlers
                 (<[t := mkSlice (take i (elems (index (handlers w) t))
                                    ++ drop (S i) (elems (index (handlers w) t)))
                           (cap (index (handlers w) t))]> (handlers w)) w))).
  { unfold removeEventHandlerInstance.
    rewrite (spliceHandlers_found eh _ _ i Hnd Hi).
    cbn [Dispatch.store onceHandlers setHandlers].
    rewrite spliceOnceHandlers_no_match; [done|].
    intros j _ Hj. by apply list_elem_of_lookup_2, Ho in Hj. }
  eexists. cbn [invoke]. split; [exact Hrm|].
  cbn [handlers onceHandlers setHandlers setOnceHandlers].
  split_and!.
  - rewrite index_insert_eq. cbn. symmetry. by apply filter_ne_lookup.
  - intros t' Hne. by rewrite index_insert_ne.
  - done.
  - apply remove_absent; cbn [handlers onceHandlers setHandlers setOnceHandlers].
    + rewrite index_insert_eq. cbn.
      rewrite <- (filter_ne_lookup _ i eh Hnd Hi).
      intros Hin%list_elem_of_filter. by destruct Hin as [Hne _].
    + done.
Qed.

(** [AddHandler] registers the handler whatever the subscription did. *)
Lemma AddHandler_registers handler eh w :
  handlerForInterface handler = Some eh ->
  let w' := fst (AddHandler growslice Handler handlerForInterface
                   NATS_QueueSubscribe handler w) in
  elems (index (handlers w') (EventHandler.Type_ eh))
  = elems (index (handlers w) (EventHandler.Type_ eh)) ++ [length (instances w)].
Proof using Type.
  intros Hh. unfold AddHandler. rewrite Hh.
  match goal with
  | |- context [addEventHandler growslice eh ?w0] =>
      destruct (addEventHandler_tables eh w0) as (Ht & _);
      assert (handlers w0 = handlers w /\ instances w0 = instances w) as [Hhw Hiw]
  end.
  { destruct (NATS w && _); [|done].
    destruct (natsSubscriptions w !! _); [done|].
    destruct (NATS_QueueSubscribe _ _) as [sub [err|]]; done. }
  cbn zeta. rewrite Ht, Hhw, Hiw. done.
Qed.

(** *** C7 *)



(** *** Registration *)

Lemma addEventHandler_token eventHandler w :
  addEventHandler growslice eventHandler w
  = (fst (addEventHandler growslice eventHandler w),
     Remove (EventHandler.Type_ eventHandler) (length (instances w))) /\
  natsSubscriptions (fst (addEventHandler growslice eventHandler w))
  = natsSubscriptions w.
Proof using Type. unfold addEventHandler, new. cbn. split; reflexivity. Qed.

(** X13: a handler value that is no event handler is not registered:
    [AddHandler] and [AddHandlerOnce] log the error and change neither
    the tables, the instances nor the subscriptions, and the function
    they return does nothing. *)
Theorem invalid_handler_is_not_registered handler w :
  handlerForInterface handler = None ->
  forall w1 tok,
    (w1, tok) = AddHandler growslice Handler handlerForInterface
                  NATS_QueueSubscribe handler w \/
    (w1, tok) = AddHandlerOnce growslice Handler handlerForInterface handler w ->
    trace w1
    = trace w ++ [Log LogError "Invalid handler type, handler will never be called"] /\
    handlers w1 = handlers w /\ onceHandlers w1 = onceHandlers w /\
    instances w1 = instances w /\ globals w1 = globals w /\
    forall w', invoke growslice tok w' = Some w'.
Proof using Type.
  intros Hh w1 tok Hadd.
  assert (Hpair : (w1, tok)
                  = (log LogError "Invalid handler type, handler will never be called" w,
                     NoOp)).
  { destruct Hadd as [->| ->].
    - unfold AddHandler. rewrite Hh. reflexivity.
    - unfold AddHandlerOnce. rewrite Hh. reflexivity. }
  injection Hpair as -> ->. cbn. repeat split.
Qed.

(** X14: [AddHandler] with a valid handler asks NATS for a subscription
    exactly when the session has a NATS connection, its mode is 1 and
    the subject is not recorded; the subject is ["*"] for the wildcard
    tag and the tag otherwise, and there is one request.  The
    subscription is recorded only if the request failed.  The handler
    is registered in every case, at the end of the list of its tag. *)
Theorem AddHandler_subscribes_when_unrecorded handler eh w :
  handlerForInterface handler = Some eh ->
  exists w' tr,
    AddHandler growslice Handler handlerForInterface NATS_QueueSubscribe handler w
    = (w', Remove (EventHandler.Type_ eh) (length (instances w))) /\
    trace w' = trace w ++ tr /\
    List.filter isSubscribe tr
    = (if subscribes w eh then [QueueSubscribe (subjectOf eh) (NatsQueueName w)]
       else []) /\
    natsSubscriptions w'
    = (if subscribes w eh then
         match NATS_QueueSubscribe (subjectOf eh) (NatsQueueName w) with
         | (sub, Some _) => <[subjectOf eh := sub]> (natsSubscriptions w)
         | (_, None) => natsSubscriptions w
         end
       else natsSubscriptions w) /\
    elems (index (handlers w') (EventHandler.Type_ eh))
    = elems (index (handlers w) (EventHandler.Type_ eh)) ++ [length (instances w)] /\
    onceHandlers w' = onceHandlers w.
Proof using Type.
  intros Hh. unfold AddHandler. rewrite Hh. fold (subjectOf eh).
  match goal with
  | |- context [addEventHandler growslice eh ?w0] =>
      assert (exists tr,
        trace w0 = trace w ++ tr /\
        List.filter isSubscribe tr
        = (if subscribes w eh then [QueueSubscribe (subjectOf eh) (NatsQueueName w)]
           else []) /\
        natsSubscriptions w0
        = (if subscribes w eh then
             match NATS_QueueSubscribe (subjectOf eh) (NatsQueueName w) with
             | (sub, Some _) => <[subjectOf eh := sub]> (natsSubscriptions w)
             | (_, None) => natsSubscriptions w
             end
           else natsSubscriptions w) /\
        handlers w0 = handlers w /\ onceHandlers w0 = onceHandlers w /\
        instances w0 = instances w) as (tr & Htr & Hsub & Hrec & Hhw & How & Hiw);
      [|destruct (addEventHandler_tables eh w0) as (Ht & _ & Ho & _ & Htrace);
        exists (fst (addEventHandler growslice eh w0)), tr]
  end.
  { unfold subscribes.
    destruct (NATS w && (NatsMode w =? 1)%Z); cbn [andb].
    2:{ exists []. rewrite app_nil_r. repeat split. }
    destruct (natsSubscriptions w !! subjectOf eh).
    { exists []. rewrite app_nil_r. repeat split. }
    cbn [log emit NatsQueueName natsSubscriptions].
    destruct (NATS_QueueSubscribe (subjectOf eh) (NatsQueueName w)) as [sub [err|]];
      cbn; rewrite <- ?app_assoc; eexists; (split; [reflexivity|]); repeat split. }
  split.
  { rewrite (proj1 (addEventHandler_token eh _)), Hiw. reflexivity. }
  split; [rewrite Htrace; exact Htr|].
  split; [exact Hsub|].
  split; [rewrite (proj2 (addEventHandler_token eh _)); exact Hrec|].
  split; [cbv zeta in Ht; rewrite Ht, Hhw, Hiw; reflexivity|].
  rewrite Ho. exact How.
Qed.


(** *** Persistent and once entries under dispatch *)

Lemma invocations_calls_single eh w i l1 l2 :
  eh ∉ l1 -> eh ∉ l2 -> invocations eh (call w i <$> l1 ++ eh :: l2) = 1%nat.
Proof using Type.
  intros H1 H2. rewrite fmap_app, fmap_cons, invocations_app.
  change (call w i eh :: (call w i <$> l2))
    with ([call w i eh] ++ (call w i <$> l2)).
  rewrite invocations_app, invocations_call.
  rewrite !invocations_calls_absent by assumption. reflexivity.
Qed.

Lemma addEventHandler_persistentEntry eventHandler w :
  allocated w ->
  persistentEntry (fst (addEventHandler growslice eventHandler w))
    (EventHandler.Type_ eventHandler) (length (instances w)).
Proof using Type.
  intros Halloc.
  destruct (addEventHandler_tables eventHandler w) as (Ht & Hne & Ho & _).
  cbv zeta in Ht, Hne.
  assert (Hfresh : forall t,
            (length (instances w) ∉ elems (index (handlers w) t)) /\
            (length (instances w) ∉ elems (index (onceHandlers w) t))).
  { intros t. split; intros Hin.
    - pose proof (Halloc t _ (or_introl Hin)). lia.
    - pose proof (Halloc t _ (or_intror Hin)). lia. }
  split; [|split].
  - exists (elems (index (handlers w) (EventHandler.Type_ eventHandler))), [].
    split; [exact Ht|]. split; [apply Hfresh | apply not_elem_of_nil].
  - intros t Hn. rewrite Hne by congruence. apply Hfresh.
  - intros t. rewrite Ho. apply Hfresh.
Qed.

Lemma persistent_entry_dispatch w T eh t i :
  persistentEntry w T eh -> getsPastHook w i ->
  exists w' tr,
    handleEvent t i w = Some w' /\ trace w' = trace w ++ tr /\
    invocations eh tr
    = ((if bool_decide (T = interfaceEventType) then 1 else 0)
       + (if bool_decide (T = t) then 1 else 0))%nat /\
    persistentEntry w' T eh.
Proof using Type.
  intros ((l1 & l2 & HT & Hl1 & Hl2) & HP & HO) Hpast.
  destruct (handleEvent_spec t i w Hpast)
    as (i' & w' & hook & He & Ht & _ & _ & Hhook & Hh & Ho & _).
  assert (Hcount : forall u,
            invocations eh (call w i' <$> elems (index (handlers w) u))
            = if bool_decide (T = u) then 1%nat else 0%nat).
  { intros u. case_bool_decide as Hu.
    - subst u. rewrite HT. apply invocations_calls_single; assumption.
    - apply invocations_calls_absent. apply HP. congruence. }
  exists w'. eexists. split; [exact He|]. split; [exact Ht|]. split.
  - rewrite !invocations_app, (invocations_hook _ _ Hhook).
    rewrite !fmap_app, !invocations_app, !Hcount.
    rewrite (invocations_calls_absent eh w i' _ (HO interfaceEventType)).
    rewrite invocations_calls_absent; [lia|].
    intros Hin. apply elem_of_clearOnce in Hin. exact (HO t Hin).
  - split; [|split].
    + exists l1, l2. rewrite Hh. auto.
    + intros u Hu. rewrite Hh. apply HP. exact Hu.
    + intros u Hin. rewrite Ho in Hin. do 2 apply elem_of_clearOnce in Hin.
      exact (HO u Hin).
Qed.

(** X15: an instance that the persistent list of a tag [T] holds once
    and that no other list holds, persistent or once (the state a
    registration leaves it in), is invoked once by a dispatch under [T]
    and once more by any dispatch when [T] is the wildcard tag (twice,
    then, by a dispatch under the wildcard tag itself); a dispatch
    under another tag does not invoke it.  The dispatch leaves it held
    in the same way, so that the same holds of the next one.  The
    dispatch is one that gets past the hook. *)
Theorem persistent_handler_fires_on_every_dispatch w T eh t i :
  persistentEntry w T eh -> getsPastHook w i ->
  exists w' tr,
    handleEvent t i w = Some w' /\ trace w' = trace w ++ tr /\
    invocations eh tr
    = ((if bool_decide (T = interfaceEventType) then 1 else 0)
       + (if bool_decide (T = t) then 1 else 0))%nat /\
    persistentEntry w' T eh /\
    getsPastHook w' i.
Proof using Type.
  intros HP Hpast.
  destruct (persistent_entry_dispatch w T eh t i HP Hpast)
    as (w' & tr & He & Ht & Hn & HP').
  exists w', tr. split; [exact He|]. split; [exact Ht|]. split; [exact Hn|].
  split; [exact HP'|].
  destruct (handleEvent_full t i w Hpast)
    as (w'' & hook & He' & _ & _ & _ & _ & _ & _ & _ & HS & _).
  rewrite He in He'. injection He' as <-.
  intros E. apply Hpast. rewrite <- HS. exact E.
Qed.

(** X16: a once handler waits for its tag: a dispatch under another
    tag neither invokes it nor removes it, unless its own tag is the
    wildcard tag, in which case any dispatch invokes it, once, and
    removes it; a dispatch under its tag does the same.  The dispatch
    is one that gets past the hook. *)
Theorem once_handler_waits_for_its_tag w T eh t i :
  onceEntry w T eh -> getsPastHook w i ->
  exists w' tr,
    handleEvent t i w = Some w' /\ trace w' = trace w ++ tr /\
    if bool_decide (T = interfaceEventType \/ T = t)
    then invocations eh tr = 1%nat /\ ~ held w' eh
    else invocations eh tr = 0%nat /\ onceEntry w' T eh.
Proof using Type.
  intros HE Hpast. pose proof HE as ((l1 & l2 & HoT & Hl1 & Hl2) & HP & HO).
  destruct (handleEvent_spec t i w Hpast)
    as (i' & w' & hook & He & Ht & _ & _ & Hhook & Hh & Ho & _).
  exists w'. eexists. split; [exact He|]. split; [exact Ht|].
  rewrite !invocations_app, (invocations_hook _ _ Hhook).
  rewrite !fmap_app, !invocations_app.
  rewrite (invocations_calls_absent eh w i' _ (HP interfaceEventType)).
  rewrite (invocations_calls_absent eh w i' _ (HP t)).
  assert (Hgone : forall u, T = interfaceEventType \/ T = t ->
            eh ∉ elems (index (onceHandlers w') u)).
  { intros u HT Hin. rewrite Ho in Hin.
    destruct (decide (u = T)) as [->|Hne].
    - destruct HT as [->| ->].
      + apply elem_of_clearOnce in Hin. rewrite elems_clearOnce_eq in Hin.
        apply elem_of_nil in Hin. exact Hin.
      + rewrite elems_clearOnce_eq in Hin. apply elem_of_nil in Hin. exact Hin.
    - do 2 apply elem_of_clearOnce in Hin. exact (HO u Hne Hin). }
  case_bool_decide as HT.
  - split.
    + destruct (decide (T = interfaceEventType)) as [Hw|Hw].
      * rewrite <- Hw, HoT, invocations_calls_single by assumption.
        rewrite invocations_calls_absent; [reflexivity|].
        destruct (decide (t = T)) as [->|Hne].
        -- rewrite elems_clearOnce_eq. apply not_elem_of_nil.
        -- rewrite index_clearOnce_ne by congruence. apply HO. exact Hne.
      * destruct HT as [HT|HT]; [destruct (Hw HT)|]. subst t.
        rewrite (invocations_calls_absent eh w i' _
                   (HO interfaceEventType ltac:(congruence))).
        rewrite index_clearOnce_ne by congruence.
        rewrite HoT, invocations_calls_single by assumption. reflexivity.
    + intros [u [Hin|Hin]].
      * rewrite Hh in Hin. exact (HP u Hin).
      * exact (Hgone u HT Hin).
  - assert (Hw : T ≠ interfaceEventType) by (intros E; apply HT; left; exact E).
    assert (Htt : T ≠ t) by (intros E; apply HT; right; exact E).
    split.
    + rewrite (invocations_calls_absent eh w i' _
                 (HO interfaceEventType ltac:(congruence))).
      rewrite invocations_calls_absent; [reflexivity|].
      intros Hin. apply elem_of_clearOnce in Hin.
      apply (HO t); [congruence | exact Hin].
    + split; [|split].
      * exists l1, l2. rewrite Ho.
        rewrite !index_clearOnce_ne by congruence. auto.
      * intros u. rewrite Hh. apply HP.
      * intros u Hu Hin. rewrite Ho in Hin. do 2 apply elem_of_clearOnce in Hin.
        exact (HO u Hu Hin).
Qed.


(** *** Removing a persistent entry *)

Lemma elem_of_drop_further {A} (x : A) n (l : list A) : x ∈ drop n l -> x ∈ l.
Proof using Type.
  intros [k Hk]%list_elem_of_lookup. rewrite lookup_drop in Hk.
  eapply list_elem_of_lookup_2, Hk.
Qed.

Lemma spliceHandlers_single eh c (l1 l2 : list ehi) :
  eh ∉ l1 -> eh ∉ l2 ->
  fold_left (spliceHandlers eh (length (l1 ++ eh :: l2)) c)
    (seq 0 (length (l1 ++ eh :: l2))) (l1 ++ eh :: l2, None)
  = (l1 ++ l2 ++ drop (length (l1 ++ eh :: l2) - 1) (l1 ++ eh :: l2),
     Some (mkSlice (l1 ++ l2) c)).
Proof using Type.
  intros H1 H2. set (A := l1 ++ eh :: l2). set (i := length l1).
  assert (Hi : A !! i = Some eh) by (apply list_lookup_middle; reflexivity).
  assert (Hlen : length A = (i + S (length l2))%nat)
    by (unfold A, i; rewrite length_app; reflexivity).
  assert (Htake : take i A = l1) by apply take_app_length.
  assert (Hdrop : drop (S i) A = l2).
  { unfold A. rewrite cons_middle, app_assoc. apply drop_app_length'.
    rewrite length_app. cbn. unfold i. lia. }
  replace (length A) with (i + S (length A - S i))%nat at 2 by lia.
  rewrite seq_app, fold_left_app. cbn [seq fold_left Nat.add].
  rewrite spliceHandlers_no_match.
  2:{ intros j Hj%elem_of_seq Hj'. unfold A in Hj'.
      rewrite lookup_app_l in Hj' by (fold i; lia).
      apply list_elem_of_lookup_2 in Hj'. exact (H1 Hj'). }
  unfold spliceHandlers at 2. rewrite bool_decide_eq_true_2 by exact Hi.
  rewrite Htake, Hdrop, <- app_assoc. apply spliceHandlers_no_match.
  intros j Hj%elem_of_seq Hj'.
  rewrite lookup_app_r in Hj' by (fold i; lia).
  apply list_elem_of_lookup_2, elem_of_app in Hj' as [Hin|Hin]; [exact (H2 Hin)|].
  replace (length A - 1)%nat with (S i + (length A - 1 - S i))%nat in Hin by lia.
  rewrite <- drop_drop, Hdrop in Hin. apply elem_of_drop_further in Hin.
  exact (H2 Hin).
Qed.

Lemma remove_persistent_single t eh w l1 l2 :
  elems (index (handlers w) t) = l1 ++ eh :: l2 -> eh ∉ l1 -> eh ∉ l2 ->
  eh ∉ elems (index (onceHandlers w) t) ->
  removeEventHandlerInstance growslice t eh w
  = Some (setOnceHandlers (onceHandlers w)
            (setHandlers
               (<[t := mkSlice (l1 ++ l2) (cap (index (handlers w) t))]> (handlers w))
               w)).
Proof using Type.
  intros HA H1 H2 Ho. unfold removeEventHandlerInstance.
  rewrite HA, (spliceHandlers_single eh _ l1 l2 H1 H2).
  cbn [Dispatch.store onceHandlers setHandlers].
  rewrite spliceOnceHandlers_no_match; [reflexivity|].
  intros j _ Hj. apply list_elem_of_lookup_2 in Hj. exact (Ho Hj).
Qed.

Lemma remove_persistent_tables t eh w l1 l2 :
  elems (index (handlers w) t) = l1 ++ eh :: l2 -> eh ∉ l1 -> eh ∉ l2 ->
  eh ∉ elems (index (onceHandlers w) t) ->
  exists w',
    invoke growslice (Remove t eh) w = Some w' /\
    elems (index (handlers w') t) = l1 ++ l2 /\
    (forall t', t' ≠ t -> index (handlers w') t' = index (handlers w) t') /\
    onceHandlers w' = onceHandlers w /\
    trace w' = trace w /\ instances w' = instances w /\
    globals w' = globals w.
Proof using Type.
  intros HA H1 H2 Ho. eexists. cbn [invoke].
  split; [apply (remove_persistent_single t eh w l1 l2); assumption|].
  cbn [handlers onceHandlers setHandlers setOnceHandlers trace instances].
  split; [rewrite index_insert_eq; reflexivity|].
  split; [intros t' Hne; apply index_insert_ne; congruence|].
  repeat split.
Qed.

(** X17: for an instance that the persistent list of its tag holds
    once and that no other list holds, persistent or once (the state a
    registration leaves it in), the removal function takes exactly
    that instance out of the list of its tag: the other entries stay in
    their order, and the other lists, the instances and the trace are
    as before.  Afterwards the instance is in no table, calling the
    function again changes nothing, and a dispatch neither invokes the
    instance nor brings it back. *)
Theorem removed_persistent_handler_is_silent w T eh :
  persistentEntry w T eh ->
  exists w1 l1 l2,
    invoke growslice (Remove T eh) w = Some w1 /\
    elems (index (handlers w) T) = l1 ++ eh :: l2 /\
    elems (index (handlers w1) T) = l1 ++ l2 /\
    (forall t, t ≠ T -> index (handlers w1) t = index (handlers w) t) /\
    onceHandlers w1 = onceHandlers w /\
    trace w1 = trace w /\ instances w1 = instances w /\
    ~ held w1 eh /\
    invoke growslice (Remove T eh) w1 = Some w1 /\
    forall t i w2, handleEvent t i w1 = Some w2 ->
      exists tr,
        trace w2 = trace w1 ++ tr /\ invocations eh tr = 0%nat /\ ~ held w2 eh.
Proof using Type.
  intros ((l1 & l2 & HT & Hl1 & Hl2) & HP & HO).
  destruct (remove_persistent_tables T eh w l1 l2 HT Hl1 Hl2 (HO T))
    as (w1 & Hrm & HT1 & Hne & Ho1 & Htr & Hin & _).
  assert (Hnot : forall t, (eh ∉ elems (index (handlers w1) t)) /\
                           (eh ∉ elems (index (onceHandlers w1) t))).
  { intros t. split.
    - destruct (decide (t = T)) as [->|Hn].
      + rewrite HT1, elem_of_app. intros [H|H]; [exact (Hl1 H) | exact (Hl2 H)].
      + rewrite (Hne t Hn). apply HP. exact Hn.
    - rewrite Ho1. apply HO. }
  assert (Hheld : ~ held w1 eh).
  { intros [t [H|H]]; [exact (proj1 (Hnot t) H) | exact (proj2 (Hnot t) H)]. }
  exists w1, l1, l2.
  split; [exact Hrm|]. split; [exact HT|]. split; [exact HT1|].
  split; [exact Hne|]. split; [exact Ho1|]. split; [exact Htr|].
  split; [exact Hin|]. split; [exact Hheld|]. split.
  - cbn [invoke]. apply remove_absent; apply Hnot.
  - intros t i w2. apply handleEvent_silent. exact Hheld.
Qed.

(** X18: registering a handler and calling the function that the
    registration returned brings every list of the tables back to what
    it was; nothing reaches the trace, and the instance that was
    allocated stays allocated. *)
Theorem register_then_remove_restores_tables eventHandler w :
  allocated w ->
  exists w1 tok w2,
    addEventHandler growslice eventHandler w = (w1, tok) /\
    invoke growslice tok w1 = Some w2 /\
    (forall t, elems (index (handlers w2) t) = elems (index (handlers w) t)) /\
    onceHandlers w2 = onceHandlers w /\
    trace w2 = trace w /\
    instances w2 = instances w ++ [eventHandler].
Proof using Type.
  intros Halloc.
  destruct (addEventHandler_tables eventHandler w) as (Ht & Hne & Ho & Hi & Htr).
  cbv zeta in Ht, Hne.
  destruct (addEventHandler_persistentEntry eventHandler w Halloc) as (_ & _ & HO).
  set (w1 := fst (addEventHandler growslice eventHandler w)) in *.
  assert (Hfresh : length (instances w)
                   ∉ elems (index (handlers w) (EventHandler.Type_ eventHandler))).
  { intros Hin. pose proof (Halloc _ _ (or_introl Hin)). lia. }
  destruct (remove_persistent_tables (EventHandler.Type_ eventHandler)
              (length (instances w)) w1
              (elems (index (handlers w) (EventHandler.Type_ eventHandler))) []
              Ht Hfresh (not_elem_of_nil _) (HO _))
    as (w2 & Hrm & HT2 & Hne2 & Ho2 & Htr2 & Hi2 & _).
  exists w1, (Remove (EventHandler.Type_ eventHandler) (length (instances w))), w2.
  split; [apply addEventHandler_token|]. split; [exact Hrm|].
  split.
  { intros t. destruct (decide (t = EventHandler.Type_ eventHandler)) as [->|Hn].
    - rewrite HT2, app_nil_r. reflexivity.
    - rewrite (Hne2 t Hn), Hne by congruence. reflexivity. }
  split; [rewrite Ho2; exact Ho|]. split; [rewrite Htr2; exact Htr|].
  rewrite Hi2. exact Hi.
Qed.

(** X19: instances are told apart by their address, not by their
    handler: when the same handler is registered twice, the function
    returned by the first registration removes the first instance only;
    the second one stays where it is and is the one and only instance
    of the two that later dispatches invoke. *)
Theorem same_handler_twice_is_two_entries eventHandler w :
  allocated w ->
  let T := EventHandler.Type_ eventHandler in
  let n := length (instances w) in
  exists w1 w2 w3,
    addEventHandler growslice eventHandler w = (w1, Remove T n) /\
    addEventHandler growslice eventHandler w1 = (w2, Remove T (S n)) /\
    invoke growslice (Remove T n) w2 = Some w3 /\
    elems (index (handlers w2) T) = elems (index (handlers w) T) ++ [n; S n] /\
    elems (index (handlers w3) T) = elems (index (handlers w) T) ++ [S n] /\
    persistentEntry w3 T (S n) /\
    ~ held w3 n.
Proof using Type.
  intros Halloc T n.
  destruct (addEventHandler_tables eventHandler w) as (Ht1 & Hne1 & Ho1 & Hi1 & _).
  pose proof (addEventHandler_allocated eventHandler w Halloc) as Halloc1.
  pose proof (addEventHandler_persistentEntry eventHandler w Halloc) as (_ & HP1 & HO1).
  set (w1 := fst (addEventHandler growslice eventHandler w)) in *.
  destruct (addEventHandler_tables eventHandler w1) as (Ht2 & Hne2 & Ho2 & Hi2 & _).
  pose proof (addEventHandler_persistentEntry eventHandler w1 Halloc1)
    as (_ & HP2 & HO2).
  set (w2 := fst (addEventHandler growslice eventHandler w1)) in *.
  cbv zeta in Ht1, Hne1, Ht2, Hne2. fold T in Ht1, Hne1, Ht2, Hne2, HP1, HP2.
  assert (Hn1 : length (instances w1) = S n).
  { rewrite Hi1, length_app. cbn. unfold n. lia. }
  rewrite Hn1 in Ht2, HP2, HO2. fold n in Ht1, HP1, HO1.
  assert (Hold : forall x, x ∈ elems (index (handlers w) T) -> (x < n)%nat).
  { intros x Hin. exact (Halloc _ _ (or_introl Hin)). }
  assert (HA : elems (index (handlers w2) T)
               = elems (index (handlers w) T) ++ n :: [S n]).
  { rewrite Ht2, Ht1, <- app_assoc. reflexivity. }
  assert (H1 : n ∉ elems (index (handlers w) T)).
  { intros Hin. apply Hold in Hin. lia. }
  assert (H2 : n ∉ [S n]).
  { intros Hin. apply list_elem_of_singleton in Hin. lia. }
  assert (H3 : n ∉ elems (index (onceHandlers w2) T)).
  { rewrite Ho2. apply HO1. }
  destruct (remove_persistent_tables T n w2 _ _ HA H1 H2 H3)
    as (w3 & Hrm & HT3 & Hne3 & Ho3 & _).
  exists w1, w2, w3.
  split; [apply addEventHandler_token|].
  split; [rewrite <- Hn1; apply addEventHandler_token|].
  split; [exact Hrm|]. split; [exact HA|]. split; [exact HT3|]. split.
  - split; [|split].
    + exists (elems (index (handlers w) T)), []. split; [exact HT3|].
      split; [|apply not_elem_of_nil].
      intros Hin. apply Hold in Hin. lia.
    + intros t Ht. rewrite (Hne3 t Ht). apply HP2. exact Ht.
    + intros t. rewrite Ho3. apply HO2.
  - intros [t [Hin|Hin]].
    + destruct (decide (t = T)) as [->|Hn].
      * rewrite HT3 in Hin. apply elem_of_app in Hin as [Hin|Hin]; [exact (H1 Hin)|].
        exact (H2 Hin).
      * rewrite (Hne3 t Hn), Hne2 in Hin by congruence. exact (HP1 t Hn Hin).
    + rewrite Ho3, Ho2 in Hin. exact (HO1 t Hin).
Qed.


(** *** Removing a once entry, and what a removal leaves alone *)

Lemma spliceOnceHandlers_panicked eh handlers m c idxs :
  fold_left (spliceOnceHandlers growslice eh handlers m c) idxs None = None.
Proof using Type. induction idxs as [|i idxs IH]; [reflexivity | exact IH]. Qed.

Lemma lookup_after_middle (l1 l2 : list ehi) eh j :
  (length l1 < j)%nat -> (l1 ++ eh :: l2) !! j = Some eh -> eh ∈ l2.
Proof using Type.
  intros Hj Hl. rewrite cons_middle, app_assoc in Hl.
  rewrite lookup_app_r in Hl by (rewrite length_app; cbn; lia).
  eapply list_elem_of_lookup_2, Hl.
Qed.

Lemma spliceOnceHandlers_single eh (A : list ehi) c (l1 l2 : list ehi) :
  eh ∉ A -> eh ∉ l1 -> eh ∉ l2 ->
  fold_left (spliceOnceHandlers growslice eh A (length (l1 ++ eh :: l2)) c)
    (seq 0 (length (l1 ++ eh :: l2))) (Some (l1 ++ eh :: l2, None))
  = if (S (length l1) <=? length A)%nat then
      Some (if (length (l1 ++ drop (S (length l1)) A) <=? c)%nat then
              take (length (l1 ++ eh :: l2))
                ((l1 ++ drop (S (length l1)) A)
                 ++ drop (length (l1 ++ drop (S (length l1)) A)) (l1 ++ eh :: l2))
            else l1 ++ eh :: l2,
            Some (mkSlice (l1 ++ drop (S (length l1)) A)
                    (if (length (l1 ++ drop (S (length l1)) A) <=? c)%nat then c
                     else growslice c (length (l1 ++ drop (S (length l1)) A)))))
    else None.
Proof using Type.
  intros HA H1 H2. set (B := l1 ++ eh :: l2). set (i := length l1).
  assert (Hi : B !! i = Some eh) by (apply list_lookup_middle; reflexivity).
  assert (Hlen : length B = (i + S (length l2))%nat)
    by (unfold B, i; rewrite length_app; reflexivity).
  assert (Htake : take i B = l1) by apply take_app_length.
  replace (length B) with (i + S (length B - S i))%nat at 2 by lia.
  rewrite seq_app, fold_left_app. cbn [seq fold_left Nat.add].
  rewrite spliceOnceHandlers_no_match.
  2:{ intros j Hj%elem_of_seq Hj'. unfold B in Hj'.
      rewrite lookup_app_l in Hj' by (fold i; lia).
      apply list_elem_of_lookup_2 in Hj'. exact (H1 Hj'). }
  unfold spliceOnceHandlers at 2. cbn [mbind option_bind].
  rewrite bool_decide_eq_true_2 by exact Hi. rewrite Htake.
  destruct (S i <=? length A)%nat; [|apply spliceOnceHandlers_panicked].
  set (spliced := l1 ++ drop (S i) A).
  destruct (Nat.leb_spec (length spliced) c) as [Hc|Hc];
    apply spliceOnceHandlers_no_match; intros j Hj%elem_of_seq Hj'.
  - apply lookup_take_Some in Hj' as [Hj' _].
    destruct (decide (j < length spliced)%nat) as [Hlt|Hge].
    + rewrite lookup_app_l in Hj' by exact Hlt. unfold spliced in Hj'.
      rewrite lookup_app_r in Hj' by (fold i; lia).
      apply list_elem_of_lookup_2, elem_of_drop_further in Hj'. exact (HA Hj').
    + rewrite lookup_app_r, lookup_drop in Hj' by lia.
      replace (length spliced + (j - length spliced))%nat with j in Hj' by lia.
      apply lookup_after_middle in Hj'; [exact (H2 Hj') | fold i; lia].
  - apply lookup_after_middle in Hj'; [exact (H2 Hj') | fold i; lia].
Qed.

Lemma setHandlers_id w : setHandlers (handlers w) w = w.
Proof using Type. destruct w. reflexivity. Qed.

Lemma remove_once_entry_tables t eh w l1 l2 :
  eh ∉ elems (index (handlers w) t) ->
  elems (index (onceHandlers w) t) = l1 ++ eh :: l2 ->
  eh ∉ l1 -> eh ∉ l2 ->
  if decide (length l1 < length (elems (index (handlers w) t)))%nat then
    exists w',
      invoke growslice (Remove t eh) w = Some w' /\
      elems (index (onceHandlers w') t)
      = l1 ++ drop (S (length l1)) (elems (index (handlers w) t)) /\
      (forall t', t' ≠ t -> index (onceHandlers w') t' = index (onceHandlers w) t') /\
      handlers w' = handlers w /\ trace w' = trace w /\ instances w' = instances w
  else invoke growslice (Remove t eh) w = None.
Proof using Type.
  intros HA HB H1 H2. cbn [invoke]. unfold removeEventHandlerInstance.
  rewrite spliceHandlers_no_match.
  2:{ intros j _ Hj. apply list_elem_of_lookup_2 in Hj. exact (HA Hj). }
  cbn [Dispatch.store]. rewrite setHandlers_id, HB.
  rewrite (spliceOnceHandlers_single eh _ _ l1 l2 HA H1 H2).
  destruct (decide (length l1 < length (elems (index (handlers w) t)))%nat)
    as [Hlt|Hge].
  - destruct (Nat.leb_spec (S (length l1)) (length (elems (index (handlers w) t))))
      as [_|?]; [|lia].
    cbn [mbind option_bind Dispatch.store]. eexists. split; [reflexivity|].
    cbn [handlers onceHandlers setOnceHandlers trace instances].
    split; [rewrite index_insert_eq; reflexivity|].
    split; [intros t' Hne; apply index_insert_ne; congruence|].
    repeat split.
  - destruct (Nat.leb_spec (S (length l1)) (length (elems (index (handlers w) t))))
      as [?|_]; [lia|]. reflexivity.
Qed.

(** X20: the function returned for a once handler that is still
    waiting cuts the once list of its tag at the entry and continues it
    with the entries that the persistent list of the same tag holds
    behind that index, whatever followed the entry in the once list;
    it panics when the persistent list has no more entries than the
    index.  The persistent lists and the trace are as before. *)
Theorem remove_once_entry_takes_persistent_tail t eh w l1 l2 :
  eh ∉ elems (index (handlers w) t) ->
  elems (index (onceHandlers w) t) = l1 ++ eh :: l2 ->
  eh ∉ l1 -> eh ∉ l2 ->
  if decide (length l1 < length (elems (index (handlers w) t)))%nat then
    exists w',
      invoke growslice (Remove t eh) w = Some w' /\
      elems (index (onceHandlers w') t)
      = l1 ++ drop (S (length l1)) (elems (index (handlers w) t)) /\
      (forall t', t' ≠ t -> index (onceHandlers w') t' = index (onceHandlers w) t') /\
      handlers w' = handlers w /\ trace w' = trace w /\ instances w' = instances w
  else invoke growslice (Remove t eh) w = None.
Proof using Type. apply remove_once_entry_tables. Qed.

(** *** C6 *)

(** C6: a once handler that is registered under a tag [T] and is not
    removed is lost when the removal function of a once handler
    registered before it under [T] is called: the once loop of
    [removeEventHandlerInstance] continues the once list with
    persistent entries instead of its own, so that the later once
    entry [o] is in no table any more.  No dispatch invokes it from
    then on, the first dispatch under [T] included: it fires zero
    times, not once. *)
Theorem once_handler_lost_when_earlier_one_is_removed w T eh o l1 l2 :
  onceEntry w T o ->
  elems (index (onceHandlers w) T) = l1 ++ eh :: l2 ->
  eh ∉ l1 -> eh ∉ l2 -> o ∈ l2 ->
  eh ∉ elems (index (handlers w) T) ->
  (length l1 < length (elems (index (handlers w) T)))%nat ->
  exists w1,
    invoke growslice (Remove T eh) w = Some w1 /\
    elems (index (onceHandlers w1) T)
    = l1 ++ drop (S (length l1)) (elems (index (handlers w) T)) /\
    ~ held w1 o /\
    forall t i w2, handleEvent t i w1 = Some w2 ->
      exists tr,
        trace w2 = trace w1 ++ tr /\ invocations o tr = 0%nat /\ ~ held w2 o.
Proof using Type.
  intros ((k1 & k2 & Hk & Hk1 & Hk2) & HP & HO) HB H1 H2 Ho HA Hlt.
  pose proof (remove_once_entry_tables T eh w l1 l2 HA HB H1 H2) as Hrm.
  destruct (decide (length l1 < length (elems (index (handlers w) T)))%nat)
    as [_|Hge]; [|lia].
  destruct Hrm as (w1 & Hrm & HT & Hne & Hh & _).
  assert (Hol : o ∉ l1).
  { intros Hin. rewrite HB in Hk.
    apply list_elem_of_lookup in Hin as [a Ha].
    apply list_elem_of_lookup in Ho as [b Hb].
    assert (E1 : (k1 ++ o :: k2) !! a = Some o).
    { rewrite <- Hk. apply lookup_app_l_Some. exact Ha. }
    assert (E2 : (k1 ++ o :: k2) !! (length l1 + S b)%nat = Some o).
    { rewrite <- Hk. rewrite lookup_app_r by lia.
      replace (length l1 + S b - length l1)%nat with (S b) by lia. exact Hb. }
    pose proof (lookup_lt_Some _ _ _ Ha) as Hla.
    assert (Honce : forall j, (k1 ++ o :: k2) !! j = Some o -> j = length k1).
    { intros j Hj. destruct (Nat.lt_trichotomy j (length k1)) as [Hl|[He|Hg]].
      - rewrite lookup_app_l in Hj by exact Hl.
        apply list_elem_of_lookup_2 in Hj. destruct (Hk1 Hj).
      - exact He.
      - apply lookup_after_middle in Hj; [destruct (Hk2 Hj) | exact Hg]. }
    pose proof (Honce _ E1). pose proof (Honce _ E2). lia. }
  assert (Hheld : ~ held w1 o).
  { intros [t [Hin|Hin]].
    - rewrite Hh in Hin. exact (HP t Hin).
    - destruct (decide (t = T)) as [->|Hn].
      + rewrite HT in Hin. apply elem_of_app in Hin as [Hin|Hin]; [exact (Hol Hin)|].
        apply elem_of_drop_further in Hin. exact (HP T Hin).
      + rewrite (Hne t Hn) in Hin. exact (HO t Hn Hin). }
  exists w1. split; [exact Hrm|]. split; [exact HT|]. split; [exact Hheld|].
  intros t i w2. apply handleEvent_silent. exact Hheld.
Qed.

Lemma store_other t (a : option Slice) (m : gmap string Slice) t' :
  t' ≠ t -> index (Dispatch.store t a m) t' = index m t'.
Proof using Type.
  intros Hne. destruct a as [sl|]; [|reflexivity]. cbn.
  apply index_insert_ne. congruence.
Qed.

Lemma store_same t (a : option Slice) (m : gmap string Slice) (P : ehi -> Prop) :
  (forall sl, a = Some sl -> Forall P (elems sl)) ->
  Forall P (elems (index m t)) ->
  Forall P (elems (index (Dispatch.store t a m) t)).
Proof using Type.
  intros Ha Hm. destruct a as [sl|]; [|exact Hm]. cbn.
  rewrite index_insert_eq. apply Ha. reflexivity.
Qed.

(** X21: a removal that returns has touched the two lists of its tag
    and nothing else: the lists of the other tags, the instances, the
    trace and the package-level maps are as before; the persistent
    list of the tag holds no instance it did not hold before, and the
    once list none that the two lists of the tag did not hold. *)
Theorem removal_touches_one_tag t eh w w' :
  removeEventHandlerInstance growslice t eh w = Some w' ->
  (forall t', t' ≠ t ->
     index (handlers w') t' = index (handlers w) t' /\
     index (onceHandlers w') t' = index (onceHandlers w) t') /\
  (forall x, x ∈ elems (index (handlers w') t) -> x ∈ elems (index (handlers w) t)) /\
  (forall x, x ∈ elems (index (onceHandlers w') t) ->
     x ∈ elems (index (onceHandlers w) t) \/ x ∈ elems (index (handlers w) t)) /\
  trace w' = trace w /\ instances w' = instances w /\ globals w' = globals w /\
  sessionID w' = sessionID w.
Proof using Type.
  unfold removeEventHandlerInstance.
  set (A := elems (index (handlers w) t)). set (B := elems (index (onceHandlers w) t)).
  set (P := fun x : ehi => x ∈ A). set (Q := fun x : ehi => x ∈ B \/ x ∈ A).
  assert (HA : Forall P A) by (apply Forall_forall; intros x Hx; exact Hx).
  assert (HB : Forall Q B) by (apply Forall_forall; intros x Hx; left; exact Hx).
  destruct (spliceHandlers_within eh (length A) (cap (index (handlers w) t)) P
              (seq 0 (length A)) A None HA) as [HA' Hasg]; [discriminate|].
  destruct (fold_left (spliceHandlers _ _ _) _ _) as [A' asg]. cbn in HA', Hasg.
  cbn [onceHandlers setHandlers]. fold B.
  destruct (fold_left (spliceOnceHandlers _ _ _ _ _) _ _) as [[B' asg']|] eqn:Hf;
    [|discriminate].
  cbn. intros [= <-].
  assert (HA'' : Forall Q A').
  { eapply Forall_impl; [exact HA'|]. intros x Hx. right. exact Hx. }
  pose proof (spliceOnceHandlers_within _ _ _ _ Q _ HA'' _ None HB
                ltac:(discriminate) _ _ Hf) as Hasg'.
  cbn [handlers onceHandlers setHandlers setOnceHandlers trace instances
       sessionID globals NATS NatsMode NatsQueueName natsSubscriptions
       registeredInterfaceProviders].
  split; [|split; [|split]].
  - intros t' Hne. split; apply store_other; exact Hne.
  - apply Forall_forall. apply (store_same t asg (handlers w) P Hasg HA).
  - apply Forall_forall. apply (store_same t asg' (onceHandlers w) Q Hasg' HB).
  - repeat split.
Qed.


(** *** What a dispatch does and leaves alone *)


Lemma filter_hook (hook : list Action) :
  Forall (fun a => isHandlerCall a = false) hook ->
  List.filter isHandlerCall hook = [].
Proof using Type.
  induction 1 as [|a hook Ha _ IH]; [reflexivity|]. cbn. rewrite Ha. exact IH.
Qed.

Lemma filter_calls w i (l : list ehi) :
  List.filter isHandlerCall (call w i <$> l) = call w i <$> l.
Proof using Type.
  induction l as [|eh l IH]; [reflexivity|]. cbn [fmap list_fmap List.filter].
  change (list_fmap ehi Action (call w i) l) with (call w i <$> l).
  rewrite IH. unfold call. destruct (SyncEvents w); reflexivity.
Qed.

(** X23: the handlers that a dispatch invokes, when it gets past the
    hook, are those of the wildcard tag and then those of the tag,
    persistent before once and each list in its order, and no others;
    all of them receive the same value: the event as the hook left it
    (guild IDs and session filled in) when the session has a [State],
    the event as it came otherwise.  With a [State], a [Ready] event also
    stores its session ID. *)
Theorem handlers_receive_the_value_of_the_hook t i w :
  getsPastHook w i ->
  exists w' tr,
    handleEvent t i w = Some w' /\ trace w' = trace w ++ tr /\
    List.filter isHandlerCall tr
    = (call w (delivered w i)
         <$> elems (index (handlers w) interfaceEventType)
             ++ elems (index (onceHandlers w) interfaceEventType)
             ++ elems (index (handlers w) t)
             ++ elems (index (clearOnce interfaceEventType (onceHandlers w)) t)) /\
    (State w = true ->
     afterHook i = Some (delivered w i) /\ StateOnInterface (delivered w i) ∈ tr) /\
    (State w = false -> delivered w i = i) /\
    sessionID w' = sessionIDAfter w i.
Proof using Type.
  intros Hpast.
  destruct (handleEvent_full t i w Hpast)
    as (w' & hook & He & Ht & Hin & _ & Hhook & _ & _ & _ & _ & _ & _ & Hsid).
  exists w'. eexists. split; [exact He|]. split; [exact Ht|].
  split; [|split; [|split]].
  - rewrite !List.filter_app, (filter_hook hook Hhook), !filter_calls.
    cbn [app]. rewrite <- fmap_app, <- app_assoc. reflexivity.
  - intros HS. split.
    + destruct (Hpast HS) as [v Hv]. unfold delivered. rewrite HS, Hv. reflexivity.
    + apply elem_of_app. left. apply Hin. exact HS.
  - intros HS. unfold delivered. rewrite HS. reflexivity.
  - exact Hsid.
Qed.

(** *** The instances of the tables are allocated *)

Lemma allocated_ext w w' :
  handlers w' = handlers w -> onceHandlers w' = onceHandlers w ->
  instances w' = instances w -> allocated w -> allocated w'.
Proof using Type.
  intros Hh Ho Hi Halloc t eh. rewrite Hh, Ho, Hi. apply Halloc.
Qed.

(** X24: every instance that a table holds has been allocated, and
    each operation of the registry keeps it so: registration, removal,
    dispatch, a message from NATS, the registration of a provider.  The
    instance that the next registration allocates is therefore in no
    table yet. *)
Theorem allocated_is_invariant w :
  allocated w ->
  ~ held w (length (instances w)) /\
  (forall handler,
     allocated (fst (AddHandler growslice Handler handlerForInterface
                       NATS_QueueSubscribe handler w)) /\
     allocated (fst (AddHandlerOnce growslice Handler handlerForInterface
                       handler w))) /\
  (forall tok w', invoke growslice tok w = Some w' -> allocated w') /\
  (forall t i w', handleEvent t i w = Some w' -> allocated w') /\
  (forall Subject Data w', natsHandler Subject Data w = Some w' -> allocated w') /\
  (forall p, allocated (registerInterfaceProvider p w)).
Proof using Type.
  intros Halloc. split; [|split; [|split; [|split; [|split]]]].
  - intros [t Hin]. pose proof (Halloc t _ Hin). lia.
  - intros handler. split.
    + unfold AddHandler. destruct (handlerForInterface handler) as [eh|].
      * apply addEventHandler_allocated.
        destruct (NATS w && _); [|exact Halloc].
        destruct (natsSubscriptions w !! _); [exact Halloc|].
        destruct (NATS_QueueSubscribe _ _) as [sub [err|]];
          (eapply allocated_ext; [| | |exact Halloc]); reflexivity.
      * exact Halloc.
    + unfold AddHandlerOnce. destruct (handlerForInterface handler) as [eh|].
      * apply addEventHandlerOnce_allocated. exact Halloc.
      * exact Halloc.
  - intros [|t eh] w'; cbn [invoke].
    + intros [= <-]. exact Halloc.
    + apply removeEventHandlerInstance_allocated. exact Halloc.
  - intros t i w'. apply handleEvent_allocated. exact Halloc.
  - intros Subject Data w'. unfold Dispatch.natsHandler.
    destruct (registeredInterfaceProviders w !! Subject) as [p|].
    2:{ intros [= <-]. exact Halloc. }
    destruct (json_Unmarshal Data (EventInterfaceProvider.New p)) as [i [e|]].
    + apply handleEvent_allocated. exact Halloc.
    + apply handleEvent_allocated. exact Halloc.
  - intros p. unfold registerInterfaceProvider.
    destruct (registeredInterfaceProviders w !! _); exact Halloc.
Qed.

End DispatcherFacts.

(** *** The registry at sample worlds *)

Lemma allocated_fresh state : allocated (fresh state).
Proof.
  intros t eh [Hin|Hin]; unfold index in Hin; cbn in Hin;
    rewrite lookup_empty in Hin; by apply elem_of_nil in Hin.
Defined.

(** C1: with two persistent and two once entries under one tag, the
    removal token of the first once entry leaves the once table holding
    the second persistent entry instead of the second once entry; with a
    once entry and no persistent one, the token panics. *)
Theorem remove_once_entry_splices_persistent_tail growslice :
  let '(w1, _) := addEventHandler growslice onT (fresh true) in
  let '(w2, _) := addEventHandler growslice onT w1 in
  let '(w3, token) := addEventHandlerOnce growslice onT w2 in
  let '(w4, _) := addEventHandlerOnce growslice onT w3 in
  elems (index (handlers w4) "T") = [0; 1] /\
  elems (index (onceHandlers w4) "T") = [2; 3] /\
  token = Remove "T" 2 /\
  (elems <$> ((fun w => index (handlers w) "T") <$> invoke growslice token w4)
   = Some [0; 1]) /\
  (elems <$> ((fun w => index (onceHandlers w) "T") <$> invoke growslice token w4)
   = Some [1]) /\
  invoke growslice (snd (addEventHandlerOnce growslice onT (fresh true)))
    (fst (addEventHandlerOnce growslice onT (fresh true))) = None.
Proof.
  vm_compute.
  repeat split;
    repeat match goal with
           | |- context [match ?c with O => _ | S _ => _ end] => destruct c
           end;
    reflexivity.
Qed.


Lemma getsPastHook_ping w : getsPastHook w ping.
Proof. intros _. eexists. reflexivity. Defined.


Lemma registerInterfaceProvider_allocated p w :
  allocated w -> allocated (registerInterfaceProvider p w).
Proof.
  unfold registerInterfaceProvider. by destruct (_ !! _).
Defined.

Lemma allocated_listening : allocated listening.
Proof.
  unfold listening. do 2 apply addEventHandler_allocated.
  apply registerInterfaceProvider_allocated, allocated_fresh.
Defined.

Lemma allocated_crowded_before :
  allocated (fst (addEventHandlerOnce growExact onT
                    (fst (addEventHandler growExact onT
                            (fst (addEventHandler growExact onT (fresh true))))))).
Proof.
  apply addEventHandlerOnce_allocated. do 2 apply addEventHandler_allocated.
  apply allocated_fresh.
Defined.

Lemma once_handler_lost_witness :
  exists w1,
    invoke growExact (Remove "T" 2) crowded = Some w1 /\
    elems (index (onceHandlers w1) "T")
    = [] ++ drop 1 (elems (index (handlers crowded) "T")) /\
    ~ held w1 3 /\
    forall t i w2, handleEvent OnInterfaceOk t i w1 = Some w2 ->
      exists tr,
        trace w2 = trace w1 ++ tr /\ invocations 3 tr = 0 /\ ~ held w2 3.
Proof.
  apply (once_handler_lost_when_earlier_one_is_removed growExact OnInterfaceOk
           crowded "T" 2 3 [] [3]).
  - exact (addEventHandlerOnce_onceEntry growExact onT _ allocated_crowded_before).
  - vm_compute. reflexivity.
  - apply not_elem_of_nil.
  - intros Hin. apply list_elem_of_In in Hin. cbn in Hin. lia.
  - apply list_elem_of_here.
  - assert (HA : elems (index (handlers crowded) "T") = [0; 1])
      by (vm_compute; reflexivity).
    rewrite HA. intros Hin. apply list_elem_of_In in Hin. cbn in Hin. lia.
  - assert (HA : elems (index (handlers crowded) "T") = [0; 1])
      by (vm_compute; reflexivity).
    rewrite HA. cbn. lia.
Defined.



(** A [GuildCreate] message that fails to decode: with a [State] the
    hook panics on the nil guild and the handler is not invoked;
    without a [State] the handler receives the empty value. *)
Lemma natsHandler_panics_on_undecoded_guild :
  natsHandler OnInterfaceOk UnmarshalFails "GUILD_CREATE" "{" (guildProvided true)
  = None /\
  trace <$> natsHandler OnInterfaceOk UnmarshalFails "GUILD_CREATE" "{"
              (guildProvided false)
  = Some [Log LogError "error unmarshalling %s event, %s";
          Handle 0 emptyGuildCreate].
Proof. split; reflexivity. Qed.

(** C8: on a bridged session whose subscriptions succeed, two
    registrations under one tag subscribe twice and record nothing, and a
    once registration does not subscribe at all. *)
Theorem AddHandler_subscribes_again growslice :
  let '(w1, _) := AddHandler growslice EventHandler.t resolve SubscribeOk onT bridged in
  let '(w2, _) := AddHandler growslice EventHandler.t resolve SubscribeOk onT w1 in
  List.filter isSubscribe (trace w1) = [QueueSubscribe "T" "q"] /\
  natsSubscriptions w1 = ∅ /\
  List.filter isSubscribe (trace w2)
  = [QueueSubscribe "T" "q"; QueueSubscribe "T" "q"] /\
  natsSubscriptions w2 = ∅ /\
  trace (fst (AddHandlerOnce growslice EventHandler.t resolve onT bridged)) = [].
Proof.
  vm_compute.
  repeat split;
    repeat match goal with
           | |- context [match ?c with O => _ | S _ => _ end] => destruct c
           end;
    reflexivity.
Qed.


(** *** Providers and guild data *)

(** X25: the first provider registered for a tag stays: a later
    registration for the same tag is ignored, the providers of other
    tags are not touched, and neither are the tables, the instances
    and the trace. *)
Theorem registerInterfaceProvider_first_wins (eh eh' : EventInterfaceProvider.t)
    (w : World) :
  let T := EventInterfaceProvider.Type_ eh in
  let w' := registerInterfaceProvider eh w in
  registeredInterfaceProviders w' !! T
  = Some (default eh (registeredInterfaceProviders w !! T)) /\
  (forall t, t ≠ T ->
     registeredInterfaceProviders w' !! t = registeredInterfaceProviders w !! t) /\
  (EventInterfaceProvider.Type_ eh' = T -> registerInterfaceProvider eh' w' = w') /\
  handlers w' = handlers w /\ onceHandlers w' = onceHandlers w /\
  instances w' = instances w /\ trace w' = trace w /\
  natsSubscriptions w' = natsSubscriptions w.
Proof.
  intros T w'. unfold w', registerInterfaceProvider. fold T.
  destruct (registeredInterfaceProviders w !! T) as [p|] eqn:Hp.
  - split; [exact Hp|]. split; [reflexivity|]. split; [|repeat split].
    intros ->. rewrite Hp. reflexivity.
  - cbn [registeredInterfaceProviders setProviders default].
    split; [apply lookup_insert_eq|].
    split; [intros t Hne; apply lookup_insert_ne; congruence|].
    split; [|repeat split].
    intros ->. cbn [registeredInterfaceProviders setProviders].
    rewrite lookup_insert_eq. reflexivity.
Qed.

Lemma forEach_Some {A} (body : A -> option A) (xs ys : list (option A)) :
  forEach body xs = Some ys <->
  Forall2 (fun p q => exists x y, p = Some x /\ body x = Some y /\ q = Some y) xs ys.
Proof.
  unfold forEach. rewrite mapM_Some.
  split; intros H; (eapply Forall2_impl; [exact H|]); cbn.
  - intros [x|] q; cbn; [|discriminate].
    destruct (body x) as [y|] eqn:Hy; cbn; [|discriminate].
    intros [= <-]. exists x, y. auto.
  - intros p q (x & y & -> & Hy & ->). cbn. rewrite Hy. reflexivity.
Qed.

Lemma forEach_total_is_Some {A} (f : A -> A) (xs : list (option A)) :
  is_Some (forEach (fun x => Some (f x)) xs) <-> None ∉ xs.
Proof.
  unfold forEach. rewrite mapM_is_Some, Forall_forall. split.
  - intros H Hin. apply H in Hin. cbn in Hin. destruct Hin as [? Hin]. discriminate.
  - intros H [x|] Hin; [cbn; eexists; reflexivity | destruct (H Hin)].
Qed.

Lemma forEach_fixed {A} (body : A -> option A) (ys : list (option A)) :
  Forall (fun q => exists y, q = Some y /\ body y = Some y) ys ->
  forEach body ys = Some ys.
Proof.
  intros H. apply forEach_Some.
  induction H as [|q ys (y & -> & Hy) _ IH]; constructor; [|exact IH].
  exists y, y. auto.
Qed.

Lemma Forall2_Forall_right {A B} (P : A -> B -> Prop) (R : A -> Prop)
    (Q : B -> Prop) (l : list A) (k : list B) :
  Forall2 P l k -> Forall R l -> (forall x y, R x -> P x y -> Q y) -> Forall Q k.
Proof.
  intros H HR HQ. induction H as [|x y l k Hxy _ IH]; [constructor|].
  apply Forall_cons in HR as [Hx HR].
  constructor; [exact (HQ x y Hx Hxy) | exact (IH HR)].
Qed.

(** X26: [setGuildIds] panics on a nil guild and on a nil entry among the
    channels, members or voice states, and on nothing else; when it
    returns it has written the ID of the guild into every channel,
    member and voice state and left everything else as it was, and
    doing it again changes nothing.  When [setSession] on top returns,
    as for the guilds of a [Ready] event, the guild and all its
    channels, members, roles and emojis point to the session, and the
    members, roles and emojis to the guild; no list has changed its
    length. *)
Theorem setGuildIds_then_setSession (g : Guild.t) :
  setGuildIds None = None /\ setSession None = None /\
  (is_Some (setGuildIds (Some g)) <->
   (None ∉ Guild.Channels g) /\ (None ∉ Guild.Members g) /\
   (None ∉ Guild.VoiceStates g)) /\
  forall g1, setGuildIds (Some g) = Some g1 ->
    Guild.ID g1 = Guild.ID g /\ Guild.Session g1 = Guild.Session g /\
    Guild.Roles g1 = Guild.Roles g /\ Guild.Emojis g1 = Guild.Emojis g /\
    Forall2 (fun p q => exists c, p = Some c /\
               q = Some (Guild.mkChannel (Guild.ID g) (Guild.ChannelSession c)))
      (Guild.Channels g) (Guild.Channels g1) /\
    Forall2 (fun p q => exists m, p = Some m /\
               q = Some (Guild.mkMember (Guild.ID g) (Guild.MemberUser m)))
      (Guild.Members g) (Guild.Members g1) /\
    Forall2 (fun p q => is_Some p /\ q = Some (Guild.mkVoiceState (Guild.ID g)))
      (Guild.VoiceStates g) (Guild.VoiceStates g1) /\
    setGuildIds (Some g1) = Some g1 /\
    forall g2, setSession (Some g1) = Some g2 ->
      Guild.ID g2 = Guild.ID g /\ Guild.Session g2 = true /\
      Forall (fun q => q = Some (Guild.mkChannel (Guild.ID g) true)) (Guild.Channels g2) /\
      Forall (fun q => q = Some (Guild.mkMember (Guild.ID g) (Some (Guild.mkUser true))))
        (Guild.Members g2) /\
      Forall (fun q => q = Some (Guild.mkRole true (Some (Guild.ID g)))) (Guild.Roles g2) /\
      Forall (fun q => q = Some (Guild.mkEmoji true (Some (Guild.ID g))))
        (Guild.Emojis g2) /\
      Guild.VoiceStates g2 = Guild.VoiceStates g1 /\
      length (Guild.Channels g2) = length (Guild.Channels g) /\
      length (Guild.Members g2) = length (Guild.Members g) /\
      length (Guild.VoiceStates g2) = length (Guild.VoiceStates g) /\
      length (Guild.Roles g2) = length (Guild.Roles g) /\
      length (Guild.Emojis g2) = length (Guild.Emojis g).
Proof.
  split; [reflexivity|]. split; [reflexivity|]. split.
  { unfold setGuildIds. cbn [mbind option_bind].
    rewrite <- (forEach_total_is_Some
                  (fun c => Guild.mkChannel (Guild.ID g) (Guild.ChannelSession c))),
      <- (forEach_total_is_Some
            (fun m => Guild.mkMember (Guild.ID g) (Guild.MemberUser m))),
      <- (forEach_total_is_Some (fun _ => Guild.mkVoiceState (Guild.ID g))).
    destruct (forEach _ (Guild.Channels g)) as [cs|];
      [|split; [intros [? ?]; discriminate | intros [[? ?] _]; discriminate]].
    destruct (forEach _ (Guild.Members g)) as [ms|];
      [|split; [intros [? ?]; discriminate | intros (_ & [? ?] & _); discriminate]].
    destruct (forEach _ (Guild.VoiceStates g)) as [vs|];
      [|split; [intros [? ?]; discriminate | intros (_ & _ & [? ?]); discriminate]].
    cbn. split; intros _; repeat split; eexists; reflexivity. }
  intros g1 H1. unfold setGuildIds in H1. cbn [mbind option_bind] in H1.
  destruct (forEach _ (Guild.Channels g)) as [cs|] eqn:Hc; [|discriminate].
  destruct (forEach _ (Guild.Members g)) as [ms|] eqn:Hm; [|discriminate].
  destruct (forEach _ (Guild.VoiceStates g)) as [vs|] eqn:Hv; [|discriminate].
  cbn [mbind option_bind] in H1. injection H1 as <-.
  apply forEach_Some in Hc, Hm, Hv.
  cbn [Guild.ID Guild.Session Guild.Channels Guild.Members Guild.VoiceStates
       Guild.Roles Guild.Emojis].
  split; [reflexivity|]. split; [reflexivity|]. split; [reflexivity|].
  split; [reflexivity|].
  split.
  { eapply Forall2_impl; [exact Hc|].
    intros p q (c & y & -> & [= <-] & ->). exists c. split; reflexivity. }
  split.
  { eapply Forall2_impl; [exact Hm|].
    intros p q (m & y & -> & [= <-] & ->). exists m. split; reflexivity. }
  split.
  { eapply Forall2_impl; [exact Hv|].
    intros p q (v & y & -> & [= <-] & ->). split; [eexists|]; reflexivity. }
  assert (Hcs : Forall (fun q => exists y, q = Some y /\
                          Guild.ChannelGuildID y = Guild.ID g) cs).
  { apply (Forall2_Forall_right _ (fun _ => True) _ _ _ Hc).
    - apply Forall_forall. intros; exact I.
    - intros p q _ (c & y & _ & [= <-] & ->). eexists. split; reflexivity. }
  assert (Hms : Forall (fun q => exists y, q = Some y /\
                          Guild.MemberGuildID y = Guild.ID g) ms).
  { apply (Forall2_Forall_right _ (fun _ => True) _ _ _ Hm).
    - apply Forall_forall. intros; exact I.
    - intros p q _ (m & y & _ & [= <-] & ->). eexists. split; reflexivity. }
  assert (Hvs : Forall (fun q => q = Some (Guild.mkVoiceState (Guild.ID g))) vs).
  { apply (Forall2_Forall_right _ (fun _ => True) _ _ _ Hv).
    - apply Forall_forall. intros; exact I.
    - intros p q _ (v & y & _ & [= <-] & ->). reflexivity. }
  split.
  { unfold setGuildIds. cbn [mbind option_bind Guild.ID Guild.Session Guild.Channels
      Guild.Members Guild.VoiceStates Guild.Roles Guild.Emojis].
    rewrite (forEach_fixed _ cs), (forEach_fixed _ ms), (forEach_fixed _ vs);
      [reflexivity|..].
    - eapply Forall_impl; [exact Hvs|]. intros q ->. eexists. split; reflexivity.
    - eapply Forall_impl; [exact Hms|]. intros q ([gid u] & -> & Hid).
      cbn in Hid. subst gid. eexists. split; reflexivity.
    - eapply Forall_impl; [exact Hcs|]. intros q ([gid b] & -> & Hid).
      cbn in Hid. subst gid. eexists. split; reflexivity. }
  intros g2 H2. unfold setSession in H2.
  cbn [mbind option_bind Guild.ID Guild.Session Guild.Channels Guild.Members
       Guild.VoiceStates Guild.Roles Guild.Emojis] in H2.
  destruct (forEach _ cs) as [cs2|] eqn:Hc2; [|discriminate].
  destruct (forEach _ ms) as [ms2|] eqn:Hm2; [|discriminate].
  destruct (forEach _ (Guild.Roles g)) as [rs2|] eqn:Hr2; [|discriminate].
  destruct (forEach _ (Guild.Emojis g)) as [es2|] eqn:He2; [|discriminate].
  cbn [mbind option_bind] in H2. injection H2 as <-.
  apply forEach_Some in Hc2, Hm2, Hr2, He2.
  cbn [Guild.ID Guild.Session Guild.Channels Guild.Members Guild.VoiceStates
       Guild.Roles Guild.Emojis].
  split; [reflexivity|]. split; [reflexivity|]. split.
  { apply (Forall2_Forall_right _ _ _ _ _ Hc2 Hcs).
    intros p q (y0 & -> & Hid) (c & y & [= <-] & [= <-] & ->).
    rewrite Hid. reflexivity. }
  split.
  { apply (Forall2_Forall_right _ (fun _ => True) _ _ _ Hm2).
    - apply Forall_forall. intros; exact I.
    - intros p q _ (m & y & _ & Hy & ->).
      destruct (Guild.MemberUser m); [|discriminate]. cbn in Hy.
      injection Hy as <-. reflexivity. }
  split.
  { apply (Forall2_Forall_right _ (fun _ => True) _ _ _ Hr2).
    - apply Forall_forall. intros; exact I.
    - intros p q _ (r & y & _ & [= <-] & ->). reflexivity. }
  split.
  { apply (Forall2_Forall_right _ (fun _ => True) _ _ _ He2).
    - apply Forall_forall. intros; exact I.
    - intros p q _ (r & y & _ & [= <-] & ->). reflexivity. }
  split; [reflexivity|].
  rewrite <- (Forall2_length _ _ _ Hc2), <- (Forall2_length _ _ _ Hc),
    <- (Forall2_length _ _ _ Hm2), <- (Forall2_length _ _ _ Hm),
    <- (Forall2_length _ _ _ Hv), <- (Forall2_length _ _ _ Hr2),
    <- (Forall2_length _ _ _ He2).
  repeat split.
Qed.


(** *** The theorems above at the sample worlds *)

Lemma allocated_provided : allocated provided.
Proof.
  unfold provided. apply addEventHandler_allocated.
  apply registerInterfaceProvider_allocated, allocated_fresh.
Defined.

Lemma persistentEntry_listening : persistentEntry listening "T" 1.
Proof.
  exact (addEventHandler_persistentEntry growExact onT provided allocated_provided).
Defined.

Lemma invalid_handler_is_not_registered_witness :
  trace (log LogError "Invalid handler type, handler will never be called" bridged)
  = trace bridged ++ [Log LogError "Invalid handler type, handler will never be called"] /\
  handlers (log LogError "Invalid handler type, handler will never be called" bridged)
  = handlers bridged /\
  onceHandlers (log LogError "Invalid handler type, handler will never be called" bridged)
  = onceHandlers bridged /\
  instances (log LogError "Invalid handler type, handler will never be called" bridged)
  = instances bridged /\
  globals (log LogError "Invalid handler type, handler will never be called" bridged)
  = globals bridged /\
  forall w', invoke growExact NoOp w' = Some w'.
Proof.
  apply (invalid_handler_is_not_registered growExact EventHandler.t reject SubscribeOk
           onT bridged eq_refl
           (log LogError "Invalid handler type, handler will never be called" bridged)
           NoOp).
  left. reflexivity.
Defined.

Lemma AddHandler_subscribes_when_unrecorded_witness :
  exists w' tr,
    AddHandler growExact EventHandler.t resolve SubscribeFails onT bridged
    = (w', Remove "T" 0) /\
    trace w' = trace bridged ++ tr /\
    List.filter isSubscribe tr = [QueueSubscribe "T" "q"] /\
    natsSubscriptions w' = <["T" := None]> (natsSubscriptions bridged) /\
    elems (index (handlers w') "T") = elems (index (handlers bridged) "T") ++ [0] /\
    onceHandlers w' = onceHandlers bridged.
Proof.
  exact (AddHandler_subscribes_when_unrecorded growExact EventHandler.t resolve
           SubscribeFails onT onT bridged eq_refl).
Defined.

Lemma persistent_handler_fires_on_every_dispatch_witness :
  exists w' tr,
    handleEvent OnInterfaceOk "T" ping listening = Some w' /\
    trace w' = trace listening ++ tr /\
    invocations 1 tr = 1 /\
    persistentEntry w' "T" 1 /\
    getsPastHook w' ping.
Proof.
  exact (persistent_handler_fires_on_every_dispatch OnInterfaceOk listening "T" 1 "T"
           ping persistentEntry_listening (getsPastHook_ping listening)).
Defined.

Lemma once_handler_waits_for_its_tag_witness :
  exists w' tr,
    handleEvent OnInterfaceOk "U" ping waiting = Some w' /\
    trace w' = trace waiting ++ tr /\
    invocations 2 tr = 0 /\ onceEntry w' "T" 2.
Proof.
  exact (once_handler_waits_for_its_tag OnInterfaceOk waiting "T" 2 "U" ping
           (addEventHandlerOnce_onceEntry growExact onT listening allocated_listening)
           (getsPastHook_ping waiting)).
Defined.

Lemma removed_persistent_handler_is_silent_witness :
  exists w1,
    invoke growExact (Remove "T" 1) listening = Some w1 /\
    ~ held w1 1 /\
    forall w2, handleEvent OnInterfaceOk "T" ping w1 = Some w2 ->
      exists tr,
        trace w2 = trace w1 ++ tr /\ invocations 1 tr = 0 /\ ~ held w2 1.
Proof.
  destruct (removed_persistent_handler_is_silent growExact OnInterfaceOk listening "T" 1
              persistentEntry_listening)
    as (w1 & l1 & l2 & Hrm & _ & _ & _ & _ & _ & _ & Hheld & _ & Hsilent).
  exists w1. split; [exact Hrm|]. split; [exact Hheld|].
  exact (Hsilent "T" ping).
Defined.

Lemma handlers_receive_the_value_of_the_hook_witness :
  exists w' tr,
    handleEvent OnInterfaceOk "T" ping listening = Some w' /\
    trace w' = trace listening ++ tr /\
    List.filter isHandlerCall tr
    = (call listening (delivered listening ping)
         <$> elems (index (handlers listening) interfaceEventType)
             ++ elems (index (onceHandlers listening) interfaceEventType)
             ++ elems (index (handlers listening) "T")
             ++ elems (index (clearOnce interfaceEventType (onceHandlers listening))
                         "T")) /\
    (State listening = true ->
     afterHook ping = Some (delivered listening ping) /\
     StateOnInterface (delivered listening ping) ∈ tr) /\
    (State listening = false -> delivered listening ping = ping) /\
    sessionID w' = sessionIDAfter listening ping.
Proof.
  exact (handlers_receive_the_value_of_the_hook OnInterfaceOk "T" ping listening
           (getsPastHook_ping listening)).
Defined.

Lemma register_then_remove_restores_tables_witness :
  exists w1 tok w2,
    addEventHandler growExact onT listening = (w1, tok) /\
    invoke growExact tok w1 = Some w2 /\
    (forall t, elems (index (handlers w2) t) = elems (index (handlers listening) t)) /\
    onceHandlers w2 = onceHandlers listening /\
    trace w2 = trace listening /\
    instances w2 = instances listening ++ [onT].
Proof.
  exact (register_then_remove_restores_tables growExact onT listening
           allocated_listening).
Defined.

Lemma same_handler_twice_is_two_entries_witness :
  exists w1 w2 w3,
    addEventHandler growExact onT (fresh true) = (w1, Remove "T" 0) /\
    addEventHandler growExact onT w1 = (w2, Remove "T" 1) /\
    invoke growExact (Remove "T" 0) w2 = Some w3 /\
    elems (index (handlers w2) "T") = elems (index (handlers (fresh true)) "T") ++ [0; 1] /\
    elems (index (handlers w3) "T") = elems (index (handlers (fresh true)) "T") ++ [1] /\
    persistentEntry w3 "T" 1 /\
    ~ held w3 0.
Proof.
  exact (same_handler_twice_is_two_entries growExact onT (fresh true)
           (allocated_fresh true)).
Defined.

Lemma remove_once_entry_takes_persistent_tail_witness :
  exists w',
    invoke growExact (Remove "T" 2) crowded = Some w' /\
    elems (index (onceHandlers w') "T")
    = [] ++ drop 1 (elems (index (handlers crowded) "T")) /\
    (forall t', t' ≠ "T" -> index (onceHandlers w') t' = index (onceHandlers crowded) t') /\
    handlers w' = handlers crowded /\ trace w' = trace crowded /\
    instances w' = instances crowded.
Proof.
  assert (HA : elems (index (handlers crowded) "T") = [0; 1]) by (vm_compute; reflexivity).
  pose proof (remove_once_entry_takes_persistent_tail growExact "T" 2 crowded [] [3]) as H.
  rewrite HA in H. rewrite HA. apply H.
  - intros Hin. apply list_elem_of_In in Hin. cbn in Hin. lia.
  - vm_compute. reflexivity.
  - apply not_elem_of_nil.
  - intros Hin. apply list_elem_of_In in Hin. cbn in Hin. lia.
Defined.

Lemma removal_touches_one_tag_witness :
  exists w',
    removeEventHandlerInstance growExact "T" 1 listening = Some w' /\
    (forall t', t' ≠ "T" ->
       index (handlers w') t' = index (handlers listening) t' /\
       index (onceHandlers w') t' = index (onceHandlers listening) t') /\
    (forall x, x ∈ elems (index (handlers w') "T") ->
       x ∈ elems (index (handlers listening) "T")) /\
    (forall x, x ∈ elems (index (onceHandlers w') "T") ->
       x ∈ elems (index (onceHandlers listening) "T") \/
       x ∈ elems (index (handlers listening) "T")) /\
    trace w' = trace listening /\ instances w' = instances listening /\
    globals w' = globals listening /\ sessionID w' = sessionID listening.
Proof.
  destruct persistentEntry_listening as ((l1 & l2 & HT & Hl1 & Hl2) & _ & HO).
  destruct (remove_persistent_tables growExact "T" 1 listening l1 l2 HT Hl1 Hl2 (HO "T"))
    as (w1 & Hrm & _).
  exists w1. split; [exact Hrm|].
  exact (removal_touches_one_tag growExact "T" 1 listening w1 Hrm).
Defined.

Lemma allocated_is_invariant_witness :
  ~ held listening 2 /\
  allocated (fst (AddHandler growExact EventHandler.t resolve SubscribeOk onT listening)) /\
  (forall t i w', handleEvent OnInterfaceOk t i listening = Some w' -> allocated w').
Proof.
  destruct (allocated_is_invariant growExact EventHandler.t resolve OnInterfaceOk
              UnmarshalFails SubscribeOk listening allocated_listening)
    as (Hfresh & Hadd & _ & Hdispatch & _).
  split; [exact Hfresh|]. split; [exact (proj1 (Hadd onT)) | exact Hdispatch].
Defined.

End DispatchFacts.
